(** * BioGit: a shallow embedding of the repository engine

    The development follows the C++ sources: [sha1.cpp], [object.cpp],
    [Index.cpp], [UserManager.cpp] and [Repository.cpp].  A [std::string] and
    a [std::vector<std::byte>] are both a [string] (a list of 8-bit
    characters); [std::optional] is [option]; an integer of the program is a
    [Z] or an [N]; the files below [.biogit] and the working tree are finite
    maps. *)

From Stdlib Require Import ZArith NArith List Ascii String Bool Lia.
From Stdlib Require Import Decimal DecimalString DecimalN DecimalZ.
From Stdlib Require Import Sorting.Sorted.
From stdpp Require Import base option list gmap sets strings sorting.

Local Open Scope Z_scope.

(** ** Strings and streams *)

Module Str.

Definition nl : ascii := "010"%char.
Definition nul : ascii := "000"%char.
Definition sp : ascii := " "%char.

Definition of_char (c : ascii) : string := String c "".

(** [std::isspace] in the "C" locale. *)
Definition isspace (c : ascii) : bool :=
  let n := N_of_ascii c in ((n =? 32) || ((9 <=? n) && (n <=? 13)))%N.

Definition isdigit (c : ascii) : bool :=
  let n := N_of_ascii c in ((48 <=? n) && (n <=? 57))%N.

(** [std::isxdigit]. *)
Definition isxdigit (c : ascii) : bool :=
  let n := N_of_ascii c in
  (((48 <=? n) && (n <=? 57)) || ((65 <=? n) && (n <=? 70))
   || ((97 <=? n) && (n <=? 102)))%N.

Fixpoint all_of (p : ascii -> bool) (s : string) : bool :=
  match s with
  | EmptyString => true
  | String c s' => p c && all_of p s'
  end.

Fixpoint contains (c : ascii) (s : string) : bool :=
  match s with
  | EmptyString => false
  | String a s' => Ascii.eqb a c || contains c s'
  end.

(** [s.find(c)]: the position of the first [c], [None] for [npos]. *)
Fixpoint find (c : ascii) (s : string) : option nat :=
  match s with
  | EmptyString => None
  | String a s' =>
      if Ascii.eqb a c then Some 0%nat
      else match find c s' with
           | Some i => Some (S i)
           | None => None
           end
  end.

Fixpoint take (n : nat) (s : string) : string :=
  match n, s with
  | S n', String c s' => String c (take n' s')
  | _, _ => EmptyString
  end.

Fixpoint drop (n : nat) (s : string) : string :=
  match n, s with
  | S n', String _ s' => drop n' s'
  | _, _ => s
  end.

(** [s.substr(pos, n)] and [s.substr(pos)] for [pos <= s.size()]. *)
Definition substr (pos n : nat) (s : string) : string := take n (drop pos s).
Definition substr_from (pos : nat) (s : string) : string := drop pos s.

(** [s.rfind(p, 0) == 0], the idiom of the sources for "starts with". *)
Definition starts_with (p s : string) : bool := String.prefix p s.

(** [s.find(p) != npos] for a pattern [p]. *)
Fixpoint has_substring (p s : string) : bool :=
  String.prefix p s ||
  match s with
  | EmptyString => false
  | String _ s' => has_substring p s'
  end.

(** [s.back()] of a non-empty string. *)
Fixpoint back (s : string) : option ascii :=
  match s with
  | EmptyString => None
  | String c EmptyString => Some c
  | String _ s' => back s'
  end.

(** [s.pop_back()]. *)
Fixpoint pop_back (s : string) : string :=
  match s with
  | EmptyString => EmptyString
  | String _ EmptyString => EmptyString
  | String c s' => String c (pop_back s')
  end.

(** [s.find_first_not_of(" \t\n\v\f\r") == npos]. *)
Definition blank (s : string) : bool := all_of isspace s.

(** [s.erase(0, s.find_first_not_of(" "))]. *)
Fixpoint erase_leading_spaces (s : string) : string :=
  match s with
  | String c s' => if Ascii.eqb c sp then erase_leading_spaces s' else s
  | EmptyString => EmptyString
  end.

(** The lines that [while (std::getline(in, line))] reads from a buffer: the
    text is cut at each newline, and a last line without newline is still
    read when it is not empty. *)
Fixpoint getlines (s : string) : list string :=
  match s with
  | EmptyString => []
  | String c s' =>
      if Ascii.eqb c nl then EmptyString :: getlines s'
      else match getlines s' with
           | [] => [String c EmptyString]
           | l :: ls => String c l :: ls
           end
  end.

(** One [std::getline(in, part, delim)]: the text before the first [delim]
    and what is left of the buffer; [None] when nothing at all could be
    extracted (the stream then fails). *)
Fixpoint getline_delim (d : ascii) (s : string) : option (string * string) :=
  match s with
  | EmptyString => None
  | String c s' =>
      if Ascii.eqb c d then Some (EmptyString, s')
      else match getline_delim d s' with
           | Some (l, r) => Some (String c l, r)
           | None => Some (String c EmptyString, EmptyString)
           end
  end.

Fixpoint skipws (s : string) : string :=
  match s with
  | String c s' => if isspace c then skipws s' else s
  | EmptyString => EmptyString
  end.

(** The longest prefix whose characters satisfy [p], and the rest. *)
Fixpoint span (p : ascii -> bool) (s : string) : string * string :=
  match s with
  | String c s' =>
      if p c then let '(a, b) := span p s' in (String c a, b)
      else (EmptyString, s)
  | EmptyString => (EmptyString, EmptyString)
  end.

(** [in >> word] for a [std::string]: leading white space is skipped and
    the characters up to the next white space are taken; the extraction
    fails when none is left. *)
Definition extract_word (s : string) : option (string * string) :=
  match span (fun c => negb (isspace c)) (skipws s) with
  | (EmptyString, _) => None
  | (w, r) => Some (w, r)
  end.

(** [std::to_string] and [operator<<] of an unsigned and of a signed
    integer. *)
Definition of_N (n : N) : string := NilEmpty.string_of_uint (N.to_uint n).
Definition of_nat (n : nat) : string := of_N (N.of_nat n).
Definition of_Z (z : Z) : string :=
  if z <? 0 then String "-" (of_N (Z.abs_N z)) else of_N (Z.to_N z).

Definition digits_value (ds : string) : option N :=
  match ds with
  | EmptyString => None
  | _ => option_map N.of_uint (NilEmpty.uint_of_string ds)
  end.

Definition LLONG_MIN : Z := - 2 ^ 63.
Definition LLONG_MAX : Z := 2 ^ 63 - 1.

(** The integer that [strtoll] in base ten reads at the head of [s]: an
    optional sign and at least one digit.  The value and the rest of the
    buffer are returned. *)
Definition scan_integer (s : string) : option (Z * string) :=
  let '(neg, body) :=
    match s with
    | String c s' =>
        if Ascii.eqb c "-" then (true, s')
        else if Ascii.eqb c "+" then (false, s')
        else (false, s)
    | EmptyString => (false, s)
    end in
  let '(ds, rest) := span isdigit body in
  match digits_value ds with
  | Some n => Some (if neg : bool then - Z.of_N n else Z.of_N n, rest)
  | None => None
  end.

(** [in >> x] for a [long long]: white space is skipped, the number is
    read, and a value outside the type makes the extraction fail. *)
Definition extract_ll (s : string) : option (Z * string) :=
  match scan_integer (skipws s) with
  | Some (z, r) =>
      if (LLONG_MIN <=? z) && (z <=? LLONG_MAX) then Some (z, r) else None
  | None => None
  end.

(** [std::stoll(s)]: [None] stands for the exception
    ([invalid_argument] or [out_of_range]). *)
Definition stoll (s : string) : option Z := fst <$> extract_ll s.

End Str.

(** ** SHA-1 ([sha1.cpp]) *)

Module SHA1.

Definition u32 (x : Z) : Z := Z.land x 0xFFFFFFFF.

(** [S(x, n)]: rotation to the left of a 32-bit word (named [S32] here,
    [S] being the successor of [nat]). *)
Definition S32 (x : Z) (n : Z) : Z :=
  u32 (Z.lor (Z.shiftl x n) (Z.shiftr x (32 - n))).

Definition not32 (x : Z) : Z := Z.lxor x 0xFFFFFFFF.

Definition f_t (t : nat) (b c d : Z) : Z :=
  if (t <? 20)%nat then Z.lor (Z.land b c) (Z.land (not32 b) d)
  else if (t <? 40)%nat then Z.lxor (Z.lxor b c) d
  else if (t <? 60)%nat then
    Z.lor (Z.lor (Z.land b c) (Z.land b d)) (Z.land c d)
  else Z.lxor (Z.lxor b c) d.

Definition K_t (t : nat) : Z :=
  if (t <? 20)%nat then 0x5a827999
  else if (t <? 40)%nat then 0x6ed9eba1
  else if (t <? 60)%nat then 0x8f1bbcdc
  else 0xca62c1d6.

Definition byte_of (c : ascii) : Z := Z.of_N (N_of_ascii c).

Fixpoint bytes_of (s : string) : list Z :=
  match s with
  | EmptyString => []
  | String c s' => byte_of c :: bytes_of s'
  end.

(** The message followed by [0x80], zeros up to 56 modulo 64, and the
    length in bits on eight bytes, most significant first. *)
Definition pad (data : list Z) : list Z :=
  let bits := Z.of_nat (length data) * 8 in
  let with80 := data ++ [0x80] in
  let zeros := ((56 + 64 - (length with80 mod 64)) mod 64)%nat in
  with80 ++ repeat 0 zeros
    ++ map (fun i => Z.land (Z.shiftr bits (56 - 8 * Z.of_nat i)) 0xFF)
         (seq 0 8).

Fixpoint words_of (fuel : nat) (bs : list Z) : list Z :=
  match fuel, bs with
  | S f, b0 :: b1 :: b2 :: b3 :: rest =>
      Z.lor (Z.lor (Z.lor (Z.shiftl b0 24) (Z.shiftl b1 16)) (Z.shiftl b2 8)) b3
        :: words_of f rest
  | _, _ => []
  end.

(** [W[16..79]]; the schedule is kept with the latest word first. *)
Fixpoint extend (n : nat) (rw : list Z) : list Z :=
  match n with
  | O => rw
  | S n' =>
      let w := S32 (Z.lxor (Z.lxor (Z.lxor (nth 2 rw 0) (nth 7 rw 0))
                            (nth 13 rw 0)) (nth 15 rw 0)) 1 in
      extend n' (w :: rw)
  end.

Definition schedule (chunk : list Z) : list Z :=
  rev (extend 64 (rev (words_of 16 chunk))).

Definition round (st : Z * Z * Z * Z * Z) (tw : nat * Z) : Z * Z * Z * Z * Z :=
  let '(A, B, C, D, E) := st in
  let '(t, w) := tw in
  let temp := u32 (S32 A 5 + f_t t B C D + E + K_t t + w) in
  (temp, A, S32 B 30, C, D).

Definition process_chunk (h : Z * Z * Z * Z * Z) (chunk : list Z)
  : Z * Z * Z * Z * Z :=
  let '(H0, H1, H2, H3, H4) := h in
  let W := schedule chunk in
  let '(A, B, C, D, E) := fold_left round (combine (seq 0 80) W) h in
  (u32 (H0 + A), u32 (H1 + B), u32 (H2 + C), u32 (H3 + D), u32 (H4 + E)).

Fixpoint chunks (fuel : nat) (bs : list Z) : list (list Z) :=
  match fuel, bs with
  | S f, _ :: _ => firstn 64 bs :: chunks f (skipn 64 bs)
  | _, _ => []
  end.

Definition process_data (data : list Z) : Z * Z * Z * Z * Z :=
  let padded := pad data in
  fold_left process_chunk (chunks (length padded) padded)
    (0x67452301, 0xefcdab89, 0x98badcfe, 0x10325476, 0xc3d2e1f0).

Definition hex_digit (n : Z) : ascii :=
  match n with
  | 0 => "0" | 1 => "1" | 2 => "2" | 3 => "3" | 4 => "4" | 5 => "5"
  | 6 => "6" | 7 => "7" | 8 => "8" | 9 => "9" | 10 => "a" | 11 => "b"
  | 12 => "c" | 13 => "d" | 14 => "e" | _ => "f"
  end%char.

(** [%08x]. *)
Definition hex8 (w : Z) (tail : string) : string :=
  let d k := hex_digit (Z.land (Z.shiftr w (4 * k)) 0xF) in
  String (d 7) (String (d 6) (String (d 5) (String (d 4)
    (String (d 3) (String (d 2) (String (d 1) (String (d 0) tail))))))).

Definition sha1 (data : string) : string :=
  let '(h0, h1, h2, h3, h4) := process_data (bytes_of data) in
  hex8 h0 (hex8 h1 (hex8 h2 (hex8 h3 (hex8 h4 EmptyString)))).

End SHA1.


(** ** [std::sort]

    The sort of the standard library is given a strict comparison [comp].
    It is modelled by an insertion sort; the order in which it leaves
    elements that [comp] does not separate is one of those the standard
    allows. *)

Section StdSort.
Context {A : Type} (comp : A -> A -> bool).

Fixpoint sort_insert (x : A) (l : list A) : list A :=
  match l with
  | [] => [x]
  | y :: l' => if comp x y then x :: y :: l' else y :: sort_insert x l'
  end.

Definition std_sort (l : list A) : list A :=
  fold_left (fun acc x => sort_insert x acc) l [].

(** What [std::is_sorted] checks of two neighbours: the second is not
    [comp]-smaller than the first. *)
Definition not_after (a b : A) : Prop := comp b a = false.

End StdSort.

(** ** Objects ([object.cpp]) *)

(** The header ["<type> <size>\0"] of a stored object. *)
Definition object_header (type : string) (size : nat) : string :=
  type +:+ " " +:+ Str.of_nat size +:+ Str.of_char Str.nul.

(** [read_and_parse_object_file], on the bytes of the file: the type up to
    the first space, the size up to the first NUL, and as many bytes of
    content as the size says (the read fails when fewer are there). *)
Definition read_and_parse_object_file (bytes : string)
  : option (string * nat * string) :=
  match Str.find Str.sp bytes with
  | None => None
  | Some i =>
      let type_str_read := Str.take i bytes in
      let after_type := Str.drop (S i) bytes in
      if String.eqb type_str_read "" then None else
      match Str.find Str.nul after_type with
      | None => None
      | Some j =>
          let size_str_read := Str.take j after_type in
          let after_size := Str.drop (S j) after_type in
          if String.eqb size_str_read "" then None else
          match Str.stoll size_str_read with
          | None => None
          | Some content_size_read =>
              if content_size_read <? 0 then None else
              let n := Z.to_nat content_size_read in
              if (String.length after_size <? n)%nat then None
              else Some (type_str_read, n, Str.take n after_size)
          end
      end
  end.

(** The directory [.biogit/objects]: the file [objects/<xx>/<rest>] is kept
    under the key [<xx><rest>], its bytes as they are on disk. *)
Abbreviation objects_dir := (gmap string string).

(** What the three [load_by_hash] share: the name must have 40 characters,
    the file must exist and parse, its type must be the expected one and
    the recomputed hash must be the name. *)
Definition load_raw (type : string) (hash_hex : string) (objects : objects_dir)
  : option string :=
  if negb (String.length hash_hex =? 40)%nat then None else
  match objects !! hash_hex with
  | None => None
  | Some bytes =>
      match read_and_parse_object_file bytes with
      | None => None
      | Some (type_str_read, _, raw_content_data) =>
          if negb (String.eqb type_str_read type) then None else
          let data_for_verify :=
            object_header type (String.length raw_content_data)
              +:+ raw_content_data in
          if negb (String.eqb (SHA1.sha1 data_for_verify) hash_hex) then None
          else Some raw_content_data
      end
  end.

(** What the three [save] share: the object is written under the hash of
    its serialized form unless a file of that name is already there. *)
Definition save_raw (serialized_data : string) (objects : objects_dir)
  : string * objects_dir :=
  let hash_hex := SHA1.sha1 serialized_data in
  match objects !! hash_hex with
  | Some _ => (hash_hex, objects)
  | None => (hash_hex, <[hash_hex := serialized_data]> objects)
  end.

Module Blob.

Record t := mk { content : string }.

Definition type_str : string := "blob".

Definition serialize (b : t) : string :=
  object_header type_str (String.length (content b)) +:+ content b.

Definition deserialize (raw_content_data : string) : option t :=
  Some (mk raw_content_data).

Definition save (b : t) (objects : objects_dir) : string * objects_dir :=
  save_raw (serialize b) objects.

Definition load_by_hash (hash_hex : string) (objects : objects_dir) : option t :=
  load_raw type_str hash_hex objects ≫= deserialize.

End Blob.

Record TreeEntry := mkTreeEntry {
  mode : string;
  name : string;
  sha1_hash_hex : string
}.

Definition is_directory (e : TreeEntry) : bool := String.eqb (mode e) "040000".

Definition TreeEntry_serialize (e : TreeEntry) : string :=
  mode e +:+ " " +:+ name e +:+ Str.of_char Str.nul +:+ sha1_hash_hex e.

Module Tree.

Record t := mk { entries : list TreeEntry }.

Definition empty : t := mk [].

Definition type_str : string := "tree".

(** The key of the comparison in [sort_entries]. *)
Definition name_for_sort (e : TreeEntry) : string :=
  if is_directory e then name e +:+ "/" else name e.

Definition sort_entries (tr : t) : t :=
  mk (std_sort
        (fun a b => String.ltb (name_for_sort a) (name_for_sort b))
        (entries tr)).

Definition add_entry (entry : TreeEntry) (tr : t) : t :=
  if negb (String.length (sha1_hash_hex entry) =? 40)%nat then tr
  else sort_entries (mk (entries tr ++ [entry])).

Definition content_data (tr : t) : string :=
  String.concat "" (map TreeEntry_serialize (entries tr)).

Definition serialize (tr : t) : string :=
  object_header type_str (String.length (content_data tr)) +:+ content_data tr.

(** The loop of [deserialize]; every turn reads one entry, so the length of
    the data bounds the number of turns. *)
Fixpoint deserialize_loop (fuel : nat) (raw : string) (acc : list TreeEntry)
  : option (list TreeEntry) :=
  match raw with
  | EmptyString => Some acc
  | _ =>
    match fuel with
    | O => None
    | S fuel' =>
      match Str.find Str.sp raw with
      | None => None
      | Some i =>
          let mode_str := Str.take i raw in
          let after_mode := Str.drop (S i) raw in
          match Str.find Str.nul after_mode with
          | None => None
          | Some j =>
              let name_str := Str.take j after_mode in
              let after_name := Str.drop (S j) after_mode in
              if (String.length after_name <? 40)%nat then None
              else deserialize_loop fuel' (Str.drop 40 after_name)
                     (acc ++ [mkTreeEntry mode_str name_str
                                (Str.take 40 after_name)])
          end
      end
    end
  end.

Definition deserialize (raw_content_data : string) : option t :=
  mk <$> deserialize_loop (String.length raw_content_data) raw_content_data [].

Definition save (tr : t) (objects : objects_dir) : string * objects_dir :=
  save_raw (serialize tr) objects.

Definition load_by_hash (hash_hex : string) (objects : objects_dir) : option t :=
  load_raw type_str hash_hex objects ≫= deserialize.

End Tree.

(** A [std::chrono::system_clock::time_point] is its count of nanoseconds
    since the epoch. *)
Definition time_point := Z.

(** [system_clock::to_time_t] and [from_time_t]: the conversion to seconds
    truncates. *)
Definition to_time_t (t : time_point) : Z := Z.quot t 1000000000.
Definition from_time_t (s : Z) : time_point := s * 1000000000.

Module PersonTimestamp.

Record t := mk {
  name : string;
  email : string;
  timestamp : time_point;
  timezone_offset : string
}.

(** The default-constructed value. *)
Definition default : t := mk "" "" 0 "".

Definition format_for_commit (p : t) : string :=
  name p +:+ " <" +:+ email p +:+ "> " +:+ Str.of_Z (to_time_t (timestamp p))
    +:+ " " +:+ timezone_offset p.

Definition parse_from_line_content (line_content : string) : option t :=
  match Str.find "<" line_content, Str.find ">" line_content with
  | Some email_start_pos, Some email_end_pos =>
      if (email_end_pos <? email_start_pos)%nat then None else
      let name0 := Str.substr 0 email_start_pos line_content in
      let name1 :=
        match Str.back name0 with
        | Some c => if Ascii.eqb c Str.sp then Str.pop_back name0 else name0
        | None => name0
        end in
      if String.eqb name1 "" then None else
      let email1 :=
        Str.substr (email_start_pos + 1)
          (email_end_pos - email_start_pos - 1) line_content in
      let remaining_part := Str.substr_from (email_end_pos + 1) line_content in
      match Str.extract_ll remaining_part with
      | None => None
      | Some (ts_seconds, rest) =>
          match Str.extract_word rest with
          | None => None
          | Some (tz, _) => Some (mk name1 email1 (from_time_t ts_seconds) tz)
          end
      end
  | _, _ => None
  end.

End PersonTimestamp.

Module Commit.

Record t := mk {
  tree_hash_hex : string;
  parent_hashes_hex : list string;
  author : PersonTimestamp.t;
  committer : PersonTimestamp.t;
  message : string
}.

Definition default : t :=
  mk "" [] PersonTimestamp.default PersonTimestamp.default "".

Definition type_str : string := "commit".

Definition content_str (c : t) : string :=
  "tree " +:+ tree_hash_hex c +:+ Str.of_char Str.nl
  +:+ String.concat ""
        (map (fun parent_hex => "parent " +:+ parent_hex +:+ Str.of_char Str.nl)
           (parent_hashes_hex c))
  +:+ "author " +:+ PersonTimestamp.format_for_commit (author c)
  +:+ Str.of_char Str.nl
  +:+ "committer " +:+ PersonTimestamp.format_for_commit (committer c)
  +:+ Str.of_char Str.nl
  +:+ Str.of_char Str.nl
  +:+ message c.

Definition serialize (c : t) : string :=
  object_header type_str (String.length (content_str c)) +:+ content_str c.

(** One line of the metadata section. *)
Definition parse_metadata_line (line : string) (c : t) : option t :=
  match Str.find Str.sp line with
  | None => None
  | Some first_space =>
      let key := Str.substr 0 first_space line in
      let value := Str.substr_from (first_space + 1) line in
      if String.eqb key "tree" then
        if negb (String.eqb (tree_hash_hex c) "") then None
        else if negb (String.length value =? 40)%nat then None
        else Some (mk value (parent_hashes_hex c) (author c) (committer c)
                     (message c))
      else if String.eqb key "parent" then
        if negb (String.length value =? 40)%nat then None
        else Some (mk (tree_hash_hex c) (parent_hashes_hex c ++ [value])
                     (author c) (committer c) (message c))
      else if String.eqb key "author" then
        match PersonTimestamp.parse_from_line_content value with
        | None => None
        | Some a => Some (mk (tree_hash_hex c) (parent_hashes_hex c) a
                            (committer c) (message c))
        end
      else if String.eqb key "committer" then
        match PersonTimestamp.parse_from_line_content value with
        | None => None
        | Some a => Some (mk (tree_hash_hex c) (parent_hashes_hex c)
                            (author c) a (message c))
        end
      else Some c
  end.

(** The loop over the lines: the commit read so far, whether the metadata
    section is still open, and the lines of the message. *)
Fixpoint deserialize_lines (lines : list string) (c : t)
    (in_metadata_section : bool) (message_lines : list string)
  : option (t * list string) :=
  match lines with
  | [] => Some (c, message_lines)
  | line :: rest =>
      if in_metadata_section then
        if String.eqb line "" then deserialize_lines rest c false message_lines
        else match parse_metadata_line line c with
             | None => None
             | Some c' => deserialize_lines rest c' true message_lines
             end
      else deserialize_lines rest c false (message_lines ++ [line])
  end.

Definition deserialize (raw_content_data : string) : option t :=
  match deserialize_lines (Str.getlines raw_content_data) default true [] with
  | None => None
  | Some (c, message_lines) =>
      let c' := mk (tree_hash_hex c) (parent_hashes_hex c) (author c)
                  (committer c)
                  (String.concat (Str.of_char Str.nl) message_lines) in
      if String.eqb (tree_hash_hex c') "" then None
      else if String.eqb (PersonTimestamp.name (author c')) ""
              || String.eqb (PersonTimestamp.name (committer c')) "" then None
      else Some c'
  end.

Definition save (c : t) (objects : objects_dir) : string * objects_dir :=
  save_raw (serialize c) objects.

Definition load_by_hash (hash_hex : string) (objects : objects_dir) : option t :=
  load_raw type_str hash_hex objects ≫= deserialize.

End Commit.

(** ** Paths ([std::filesystem::path], POSIX)

    A path is whether it starts at the root, and its elements; a trailing
    separator is not kept. *)

Module Path.

Record t := mk { is_absolute : bool; elements : list string }.

Definition empty : t := mk false [].

(** [p.empty()]. *)
Definition is_empty (p : t) : bool :=
  negb (is_absolute p) && match elements p with [] => true | _ => false end.

(** The elements of a text between its separators; runs of separators
    count for one. *)
Fixpoint split_elements (cur : string) (s : string) : list string :=
  match s with
  | EmptyString => match cur with EmptyString => [] | _ => [cur] end
  | String c s' =>
      if Ascii.eqb c "/" then
        match cur with
        | EmptyString => split_elements EmptyString s'
        | _ => cur :: split_elements EmptyString s'
        end
      else split_elements (cur +:+ Str.of_char c) s'
  end.

(** [std::filesystem::path(s)]. *)
Definition of_string (s : string) : t :=
  mk (Str.starts_with "/" s) (split_elements EmptyString s).

(** [p.generic_string()] and, on POSIX, [p.string()]. *)
Definition generic_string (p : t) : string :=
  (if is_absolute p then "/" else "") +:+ String.concat "/" (elements p).

(** [p / q]. *)
Definition append (p q : t) : t :=
  if is_absolute q then q
  else mk (is_absolute p) (elements p ++ elements q).

(** The elements of [lexically_normal]: a dot is dropped, a dot-dot takes
    the name before it away, and a dot-dot just below the root is dropped.
    [rstack] holds the elements kept so far, the last one first. *)
Fixpoint normal_elements (absolute : bool) (rstack : list string)
    (els : list string) : list string :=
  match els with
  | [] => rev rstack
  | e :: els' =>
      if String.eqb e "." then normal_elements absolute rstack els'
      else if String.eqb e ".." then
        match rstack with
        | top :: rstack' =>
            if String.eqb top ".."
            then normal_elements absolute (e :: rstack) els'
            else normal_elements absolute rstack' els'
        | [] =>
            if absolute then normal_elements absolute rstack els'
            else normal_elements absolute (e :: rstack) els'
        end
      else normal_elements absolute (e :: rstack) els'
  end.

Definition lexically_normal (p : t) : t :=
  if is_empty p then p else
  match normal_elements (is_absolute p) [] (elements p) with
  | [] => if is_absolute p then mk true [] else mk false ["."]
  | els => mk (is_absolute p) els
  end.

Fixpoint mismatch (a b : list string) : list string * list string :=
  match a, b with
  | x :: a', y :: b' => if String.eqb x y then mismatch a' b' else (a, b)
  | _, _ => (a, b)
  end.

(** [p.lexically_relative(base)]. *)
Definition lexically_relative (p base : t) : t :=
  if negb (Bool.eqb (is_absolute p) (is_absolute base)) then empty else
  let '(a, b) := mismatch (elements p) (elements base) in
  match a, b with
  | [], [] => mk false ["."]
  | _, _ =>
      let ups := length (List.filter (fun e => negb (String.eqb e "..")
                                          && negb (String.eqb e ".")) b) in
      let downs := length (List.filter (fun e => String.eqb e "..") b) in
      if (ups <? downs)%nat then empty
      else if (ups =? downs)%nat && match a with [] => true | _ => false end
      then mk false ["."]
      else mk false (repeat ".." (ups - downs) ++ a)
  end.

(** [std::filesystem::relative(p, base)] for absolute paths of a file
    system without symbolic links. *)
Definition relative (p base : t) : t :=
  lexically_relative (lexically_normal p) (lexically_normal base).

(** [p.parent_path()] and [p.filename()]. *)
Definition parent_path (p : t) : t :=
  mk (is_absolute p) (removelast (elements p)).

Definition filename (p : t) : string := List.last (elements p) "".

(** [p.has_parent_path()]. *)
Definition has_parent_path (p : t) : bool :=
  negb (is_empty (parent_path p)).

Definition eqb (p q : t) : bool :=
  Bool.eqb (is_absolute p) (is_absolute q)
  && bool_decide (elements p = elements q).

Fixpoint elements_ltb (a b : list string) : bool :=
  match a, b with
  | _, [] => false
  | [], _ :: _ => true
  | x :: a', y :: b' =>
      match String.compare x y with
      | Lt => true
      | Gt => false
      | Eq => elements_ltb a' b'
      end
  end.

(** [p < q]: a path without root directory comes before one with it, then
    the elements are compared one by one. *)
Definition ltb (p q : t) : bool :=
  match is_absolute p, is_absolute q with
  | false, true => true
  | true, false => false
  | _, _ => elements_ltb (elements p) (elements q)
  end.

End Path.

(** ** The files below [.biogit]

    A file is found under its path relative to [.biogit], written with
    slashes ([HEAD], [index], [refs/heads/main]); the directory [objects]
    is kept apart (see [objects_dir]). *)

Inductive node :=
| File (content : string)
| Dir.

Abbreviation files := (gmap string node).

Module Fs.

(** [std::filesystem::exists], [is_regular_file], [is_directory]. *)
Definition exists_ (fs : files) (p : string) : bool :=
  match fs !! p with Some _ => true | None => false end.

Definition is_regular_file (fs : files) (p : string) : bool :=
  match fs !! p with Some (File _) => true | _ => false end.

Definition is_directory (fs : files) (p : string) : bool :=
  match p with
  | EmptyString => true
  | _ => match fs !! p with Some Dir => true | _ => false end
  end.

(** What an [std::ifstream] on [p] can read: nothing from a missing file or
    from a directory. *)
Definition read (fs : files) (p : string) : option string :=
  match fs !! p with Some (File c) => Some c | _ => None end.

(** The text before the last separator; the empty text stands for
    [.biogit] itself. *)
Definition parent_path (p : string) : string :=
  String.concat "/" (removelast (Path.split_elements EmptyString p)).

(** An [std::ofstream] opened on [p] and written with [content]: the file
    is replaced; the stream does not open on a directory or below a missing
    directory. *)
Definition write (fs : files) (p : string) (content : string) : option files :=
  if is_directory fs p then None
  else if negb (is_directory fs (parent_path p)) then None
  else Some (<[p := File content]> fs).

(** [std::filesystem::create_directories(p)]: every missing directory on
    the way is made; a regular file on the way is an error. *)
Fixpoint create_directories_from (fs : files) (prefix : string)
    (els : list string) : option files :=
  match els with
  | [] => Some fs
  | e :: els' =>
      let p := match prefix with EmptyString => e | _ => prefix +:+ "/" +:+ e end in
      match fs !! p with
      | Some (File _) => None
      | Some Dir => create_directories_from fs p els'
      | None => create_directories_from (<[p := Dir]> fs) p els'
      end
  end.

Definition create_directories (fs : files) (p : string) : option files :=
  create_directories_from fs EmptyString (Path.split_elements EmptyString p).

(** [std::filesystem::remove(p)] of a file. *)
Definition remove (fs : files) (p : string) : files := delete p fs.

End Fs.

(** ** The index ([Index.cpp]) *)

Record IndexEntry := mkIndexEntry {
  ie_mode : string;
  blob_hash_hex : string;
  mtime : time_point;
  file_size : N;
  file_path : Path.t
}.

(** [operator<] of two entries. *)
Definition IndexEntry_lt (a b : IndexEntry) : bool :=
  Path.ltb (file_path a) (file_path b).

Definition format_for_file (e : IndexEntry) : string :=
  let mtime_sec_count := Z.quot (mtime e) 1000000000 in
  let mtime_nsec_part := Z.rem (mtime e) 1000000000 in
  ie_mode e +:+ " " +:+ blob_hash_hex e +:+ " " +:+ Str.of_Z mtime_sec_count
    +:+ " " +:+ Str.of_Z mtime_nsec_part +:+ " " +:+ Str.of_N (file_size e)
    +:+ " " +:+ Path.generic_string (file_path e).

(** [in >> x] for a [uint64_t]: a sign is accepted and a negative number
    wraps around. *)
Definition extract_u64 (s : string) : option (N * string) :=
  match Str.scan_integer (Str.skipws s) with
  | Some (z, r) =>
      if (- (2 ^ 64) <? z) && (z <? 2 ^ 64)
      then Some (Z.to_N (z mod 2 ^ 64), r) else None
  | None => None
  end.

(** [parse_from_line].  The five extractions are chained; once one fails
    the stream reads nothing more, the path stays empty and the line is
    refused. *)
Definition parse_from_line (line : string) : option IndexEntry :=
  '(mode_, r1) ← Str.extract_word line;
  '(hash, r2) ← Str.extract_word r1;
  '(mtime_sec_ll, r3) ← Str.extract_ll r2;
  '(mtime_nsec_ll, r4) ← Str.extract_ll r3;
  '(size, r5) ← extract_u64 r4;
  let path_str :=
    match r5 with
    | String c r6 => if Ascii.eqb c Str.sp then r6 else r5
    | EmptyString => r5
    end in
  if String.eqb path_str "" then None
  else if negb (String.length hash =? 40)%nat then None
  else Some (mkIndexEntry mode_ hash
               (mtime_sec_ll * 1000000000 + mtime_nsec_ll) size
               (Path.lexically_normal (Path.of_string path_str))).

Module Index.

(** The object keeps its entries and whether they were loaded; its file is
    [.biogit/index]. *)
Record t := mk { entries_ : list IndexEntry; loaded_ : bool }.

Definition index_file_path_ : string := "index".

(** A freshly constructed index. *)
Definition new : t := mk [] false.

Definition sort_entries_ (idx : t) : t :=
  mk (std_sort IndexEntry_lt (entries_ idx)) (loaded_ idx).

(** The loop of [load] over the lines of the file: [None] when a line that
    is not blank does not parse. *)
Fixpoint load_lines (lines : list string) (acc : list IndexEntry)
  : option (list IndexEntry) :=
  match lines with
  | [] => Some acc
  | line :: rest =>
      if Str.blank line then load_lines rest acc
      else match parse_from_line line with
           | Some entry => load_lines rest (acc ++ [entry])
           | None => None
           end
  end.

Definition load (fs : files) (idx : t) : bool * t :=
  if negb (Fs.exists_ fs index_file_path_) then (true, mk [] true)
  else match Fs.read fs index_file_path_ with
       | None => (false, mk [] false)
       | Some content =>
           match load_lines (Str.getlines content) [] with
           | None => (false, mk [] false)
           | Some es => (true, sort_entries_ (mk es true))
           end
       end.

Definition write (idx : t) (fs : files) : bool * files :=
  match Fs.write fs index_file_path_
          (String.concat ""
             (map (fun e => format_for_file e +:+ Str.of_char Str.nl)
                (entries_ idx))) with
  | Some fs' => (true, fs')
  | None => (false, fs)
  end.

(** The guard at the head of the mutators: an index that was not loaded is
    loaded first, and the operation is given up when a file that exists
    does not load. *)
Definition ensure_loaded (fs : files) (idx : t) : bool * t :=
  if loaded_ idx then (true, idx)
  else let '(ok, idx') := load fs idx in
       if negb ok && Fs.exists_ fs index_file_path_ then (false, idx')
       else (true, idx').

Definition add_or_update_entry (fs : files) (relative_path : Path.t)
    (blob_hash : string) (file_mode : string) (mtime_ : time_point)
    (size : N) (idx : t) : bool * t :=
  let '(ok, idx1) := ensure_loaded fs idx in
  if negb ok then (false, idx1) else
  let new_entry := mkIndexEntry file_mode blob_hash mtime_ size relative_path in
  if negb (String.length blob_hash =? 40)%nat then (false, idx1) else
  let fix replace_first (l : list IndexEntry) : option (list IndexEntry) :=
    match l with
    | [] => None
    | e :: l' =>
        if Path.eqb (file_path e) relative_path then Some (new_entry :: l')
        else option_map (cons e) (replace_first l')
    end in
  let es := match replace_first (entries_ idx1) with
            | Some l => l
            | None => entries_ idx1 ++ [new_entry]
            end in
  (true, sort_entries_ (mk es (loaded_ idx1))).

Definition remove_entry (fs : files) (relative_path : Path.t) (idx : t)
  : bool * t :=
  let '(ok, idx1) := ensure_loaded fs idx in
  if negb ok then (false, idx1) else
  let kept := List.filter (fun e => negb (Path.eqb (file_path e) relative_path))
                (entries_ idx1) in
  ((length kept <? length (entries_ idx1))%nat, mk kept (loaded_ idx1)).

(** [std::lower_bound] on the entries, which are sorted by path: the first
    entry that is not before the path. *)
Fixpoint lower_bound (l : list IndexEntry) (p : Path.t) : option IndexEntry :=
  match l with
  | [] => None
  | e :: l' => if Path.ltb (file_path e) p then lower_bound l' p else Some e
  end.

Definition get_entry (relative_file_path : Path.t) (idx : t)
  : option IndexEntry :=
  let normalized_path := Path.lexically_normal relative_file_path in
  match lower_bound (entries_ idx) normalized_path with
  | Some e => if Path.eqb (file_path e) normalized_path then Some e else None
  | None => None
  end.

Definition get_all_entries (idx : t) : list IndexEntry := entries_ idx.

Definition clear_in_memory (idx : t) : t := mk [] (loaded_ idx).

End Index.

(** ** Tokens ([UserManager.cpp]) *)

Module TokenManager.

Record t := mk { m_serverSecret : string; m_initialized : bool }.

(** The manager as it is constructed. *)
Definition new : t := mk "" false.

Definition initialize (server_secret : string) (tm : t) : t :=
  if m_initialized tm then tm
  else if String.eqb server_secret "" then tm
  else mk server_secret true.

Definition createSignature (tm : t) (data_payload : string) : string :=
  SHA1.sha1 (data_payload +:+ m_serverSecret tm).

Definition verifySignature (tm : t) (data_payload received_signature : string)
  : bool :=
  String.eqb (createSignature tm data_payload) received_signature.

(** [now] is what [system_clock::now()] returns at the call. *)
Definition generateToken (tm : t) (now : time_point) (username : string)
    (duration_seconds : Z) : string :=
  if negb (m_initialized tm) then ""
  else if String.eqb username "" || Str.contains ":" username then ""
  else
    let expiry_time_point := now + duration_seconds * 1000000000 in
    let expiry_timestamp := Z.quot expiry_time_point 1000000000 in
    let data_payload := username +:+ ":" +:+ Str.of_Z expiry_timestamp in
    let signature := createSignature tm data_payload in
    data_payload +:+ ":" +:+ signature.

(** The result and the value left in [out_username]. *)
Definition validateToken (tm : t) (now : time_point) (token : string)
    (out_username : string) : bool * string :=
  if negb (m_initialized tm) then (false, out_username) else
  match Str.getline_delim ":" token with
  | None => (false, "")
  | Some (username_part, r1) =>
      match Str.getline_delim ":" r1 with
      | None => (false, "")
      | Some (expiry_timestamp_str_part, r2) =>
          match Str.getline_delim Str.nl r2 with
          | None => (false, "")
          | Some (signature_part, _) =>
              let data_payload_to_verify :=
                username_part +:+ ":" +:+ expiry_timestamp_str_part in
              if negb (verifySignature tm data_payload_to_verify signature_part)
              then (false, "")
              else match Str.stoll expiry_timestamp_str_part with
                   | None => (false, "")
                   | Some expiry_timestamp =>
                       let now_timestamp := Z.quot now 1000000000 in
                       if expiry_timestamp <? now_timestamp then (false, "")
                       else (true, username_part)
                   end
          end
      end
  end.

End TokenManager.

(** ** [std::map] and [std::set] keyed by paths

    The program walks these containers in the order of their keys, so they
    are lists kept in that order, without two equal keys. *)

Section PathMap.
Context {V : Type}.

Fixpoint pmap_insert (k : Path.t) (v : V) (m : list (Path.t * V))
  : list (Path.t * V) :=
  match m with
  | [] => [(k, v)]
  | (k', v') :: m' =>
      if Path.ltb k k' then (k, v) :: m
      else if Path.ltb k' k then (k', v') :: pmap_insert k v m'
      else (k, v) :: m'
  end.

Fixpoint pmap_find (k : Path.t) (m : list (Path.t * V)) : option V :=
  match m with
  | [] => None
  | (k', v') :: m' => if Path.eqb k' k then Some v' else pmap_find k m'
  end.

End PathMap.

Definition pset_insert (k : Path.t) (s : list Path.t) : list Path.t :=
  map fst (pmap_insert k tt (map (fun p => (p, tt)) s)).

Definition pset_mem (k : Path.t) (s : list Path.t) : bool :=
  existsb (Path.eqb k) s.

(** ** The history of commits ([Repository.cpp])

    The two walks below see the object store through [load], which stands
    for [Commit::load_by_hash(., get_objects_directory())]. *)

Section History.
Context (load : string -> option Commit.t).

Definition MAX_FF_DEPTH : nat := 1000.

(** The loop of [is_fast_forward]; [fuel] is [MAX_FF_DEPTH - depth]. *)
Fixpoint is_fast_forward_loop (fuel : nat) (old_commit_hash current_hash : string)
    (visited_commits : gset string) : bool :=
  match fuel with
  | O => false
  | S fuel' =>
      if String.eqb current_hash "" then false
      else if String.eqb current_hash old_commit_hash then true
      else if bool_decide (current_hash ∈ visited_commits) then false
      else
        match load current_hash with
        | None => false
        | Some commit =>
            match Commit.parent_hashes_hex commit with
            | [] => false
            | first_parent :: _ =>
                if existsb (fun parent_hash => String.eqb parent_hash old_commit_hash)
                     (Commit.parent_hashes_hex commit)
                then true
                else is_fast_forward_loop fuel' old_commit_hash first_parent
                       ({[current_hash]} ∪ visited_commits)
            end
        end
  end.

Definition is_fast_forward (old_commit_hash new_commit_hash : string) : bool :=
  if String.eqb old_commit_hash "" then true
  else if String.eqb old_commit_hash new_commit_hash then true
  else is_fast_forward_loop MAX_FF_DEPTH old_commit_hash new_commit_hash ∅.

(** The inner loop of both searches of [_find_common_ancestor]: the parents
    that were not visited yet are marked and queued. *)
Fixpoint enqueue_parents (parents : list string) (visited : gset string)
    (q : list string) : gset string * list string :=
  match parents with
  | [] => (visited, q)
  | parent_hash :: rest =>
      if bool_decide (parent_hash ∈ visited) then enqueue_parents rest visited q
      else enqueue_parents rest ({[parent_hash]} ∪ visited) (q ++ [parent_hash])
  end.

(** The first search: all ancestors of the first commit, itself included.
    Every turn takes one hash from the queue; [None] when the turns are
    used up. *)
Fixpoint collect_ancestors (fuel : nat) (q1 : list string)
    (visited1_bfs ancestors1 : gset string) : option (gset string) :=
  match q1 with
  | [] => Some ancestors1
  | current_c1 :: q1' =>
      match fuel with
      | O => None
      | S fuel' =>
          let ancestors1' := {[current_c1]} ∪ ancestors1 in
          match load current_c1 with
          | Some commit =>
              let '(visited', q') :=
                enqueue_parents (Commit.parent_hashes_hex commit) visited1_bfs q1' in
              collect_ancestors fuel' q' visited' ancestors1'
          | None => collect_ancestors fuel' q1' visited1_bfs ancestors1'
          end
      end
  end.

(** The second search: the first hash reached from the second commit that
    is an ancestor of the first.  The outer [option] is [None] when the
    turns are used up. *)
Fixpoint first_common (fuel : nat) (q2 : list string)
    (visited2_bfs ancestors1 : gset string) : option (option string) :=
  match q2 with
  | [] => Some None
  | current_c2 :: q2' =>
      match fuel with
      | O => None
      | S fuel' =>
          if bool_decide (current_c2 ∈ ancestors1) then Some (Some current_c2)
          else
            match load current_c2 with
            | Some commit =>
                let '(visited', q') :=
                  enqueue_parents (Commit.parent_hashes_hex commit) visited2_bfs q2' in
                first_common fuel' q' visited' ancestors1
            | None => first_common fuel' q2' visited2_bfs ancestors1
            end
      end
  end.

Definition _find_common_ancestor (fuel : nat) (commit_hash1 commit_hash2 : string)
  : option (option string) :=
  if String.eqb commit_hash1 "" || String.eqb commit_hash2 "" then Some None
  else if String.eqb commit_hash1 commit_hash2 then Some (Some commit_hash1)
  else
    match collect_ancestors fuel [commit_hash1] {[commit_hash1]} ∅ with
    | None => None
    | Some ancestors1 =>
        first_common fuel [commit_hash2] {[commit_hash2]} ancestors1
    end.

End History.

(** ** The repository ([Repository.cpp]) *)

Inductive UpdateRefResult :=
| SUCCESS
| REF_NOT_FOUND_FOR_UPDATE
| OLD_HASH_MISMATCH
| NEW_COMMIT_NOT_FOUND
| NOT_FAST_FORWARD
| IO_ERROR
| INVALID_REF_NAME
| UNKNOWN_ERROR.

Record UserConfig := mkUserConfig { uc_name : string; uc_email : string }.

(** What a call reads from outside the repository: the current directory of
    the process, the clock, the offset that [strftime] prints for [%z], and
    the user of the configuration file. *)
Record Env := mkEnv {
  current_path : Path.t;
  now : time_point;
  tz_offset : string;
  user_config : option UserConfig
}.

(** A file of the working tree: its bytes and its time of last write. *)
Record wfile := mkWfile { w_content : string; w_mtime : time_point }.

(** The working tree holds files only; a directory is there when a file
    lies below it. *)
Module Wt.

Definition is_regular_file (w : gmap string wfile) (p : string) : bool :=
  match w !! p with Some _ => true | None => false end.

Definition is_directory (w : gmap string wfile) (p : string) : bool :=
  existsb (fun kv : string * wfile => Str.starts_with (p +:+ "/") kv.1)
    (map_to_list w).

Definition exists_ (w : gmap string wfile) (p : string) : bool :=
  is_regular_file w p || is_directory w p.

Definition read (w : gmap string wfile) (p : string) : option string :=
  w_content <$> w !! p.

(** The directories above a file, as they are written. *)
Definition ancestor_keys (p : Path.t) : list string :=
  map (fun n => String.concat "/" (firstn n (Path.elements p)))
    (seq 1 (length (Path.elements p) - 1)).

(** [create_directories] of the parent and an [std::ofstream] opened on the
    file, which is replaced: this fails when a regular file stands where a
    directory is needed, or a directory where the file is to be. *)
Definition write (w : gmap string wfile) (p : Path.t) (content : string)
    (mtime : time_point) : option (gmap string wfile) :=
  if existsb (is_regular_file w) (ancestor_keys p) then None
  else if is_directory w (Path.generic_string p) then None
  else Some (<[Path.generic_string p := mkWfile content mtime]> w).

(** [std::filesystem::remove]: a file is removed; a directory that holds
    files is not. *)
Definition remove (w : gmap string wfile) (p : Path.t)
  : gmap string wfile :=
  delete (Path.generic_string p) w.

End Wt.

Module Repository.

(** The repository on disk and the index object in memory.  The files of
    the working tree are found under their path relative to its root,
    written with slashes; the paths that the index and the trees name are
    taken to stay below the root and outside [.biogit]. *)
Record t := mk {
  work_tree_root_ : Path.t;
  gitdir : files;
  objects : objects_dir;
  worktree : gmap string wfile;
  index_manager_ : Index.t
}.

Definition HEAD_FILE_NAME : string := "HEAD".
Definition MERGE_HEAD_FILE_NAME : string := "MERGE_HEAD".
Definition FILE_CONFLICTS : string := "FILE_CONFLICTS".

Definition set_gitdir (fs : files) (r : t) : t :=
  mk (work_tree_root_ r) fs (objects r) (worktree r) (index_manager_ r).
Definition set_objects (o : objects_dir) (r : t) : t :=
  mk (work_tree_root_ r) (gitdir r) o (worktree r) (index_manager_ r).
Definition set_worktree (w : gmap string wfile) (r : t) : t :=
  mk (work_tree_root_ r) (gitdir r) (objects r) w (index_manager_ r).
Definition set_index (i : Index.t) (r : t) : t :=
  mk (work_tree_root_ r) (gitdir r) (objects r) (worktree r) i.

(** [in >> word && word.length() == 40] on the file [p]. *)
Definition read_hash (fs : files) (p : string) : option string :=
  match Fs.read fs p with
  | None => None
  | Some content =>
      match Str.extract_word content with
      | Some (w, _) => if (String.length w =? 40)%nat then Some w else None
      | None => None
      end
  end.

(** The first line of a file, as the sources clean it: [std::getline], then
    a carriage return at the end is taken away. *)
Definition first_line (fs : files) (p : string) : option string :=
  match Fs.read fs p with
  | None => None
  | Some content =>
      match Str.getlines content with
      | [] => None
      | line :: _ =>
          let is_eol c := Ascii.eqb c Str.nl || Ascii.eqb c "013" in
          let line1 := match Str.back line with
                       | Some c => if is_eol c then Str.pop_back line else line
                       | None => line
                       end in
          let line2 := match Str.back line1 with
                       | Some c => if Ascii.eqb c "013" then Str.pop_back line1
                                   else line1
                       | None => line1
                       end in
          Some line2
      end
  end.

(** The path of the reference that a symbolic [HEAD] line names. *)
Definition symbolic_target (line : string) : option string :=
  if Str.starts_with "ref: " line && (5 <? String.length line)%nat
  then Some (Str.erase_leading_spaces (Str.substr_from 5 line))
  else None.

Definition _get_head_commit_hash (r : t) : option string :=
  if negb (Fs.exists_ (gitdir r) HEAD_FILE_NAME) then None else
  match first_line (gitdir r) HEAD_FILE_NAME with
  | None => None
  | Some line =>
      match symbolic_target line with
      | Some ref_path_str =>
          if Fs.exists_ (gitdir r) ref_path_str
          then read_hash (gitdir r) ref_path_str
          else None
      | None => if (String.length line =? 40)%nat then Some line else None
      end
  end.

Definition is_fast_forward (r : t) (old_commit_hash new_commit_hash : string)
  : bool :=
  is_fast_forward (fun h => Commit.load_by_hash h (objects r))
    old_commit_hash new_commit_hash.

Definition _find_common_ancestor (fuel : nat) (r : t)
    (commit_hash1 commit_hash2 : string) : option (option string) :=
  _find_common_ancestor (fun h => Commit.load_by_hash h (objects r)) fuel
    commit_hash1 commit_hash2.

(** The check of the name at the head of [update_ref]. *)
Definition invalid_ref_name (ref_full_name : string) : bool :=
  negb (Str.starts_with "refs/heads/" ref_full_name
        || Str.starts_with "refs/tags/" ref_full_name)
  || match Str.back ref_full_name with
     | Some c => Ascii.eqb c "/"
     | None => false
     end
  || Str.has_substring ".." ref_full_name
  || Str.has_substring "//" ref_full_name.

Definition update_ref (r : t) (ref_full_name new_commit_hash : string)
    (expected_old_commit_hash : option string) (allow_non_fast_forward : bool)
  : UpdateRefResult * t :=
  if invalid_ref_name ref_full_name then (INVALID_REF_NAME, r) else
  if negb (String.length new_commit_hash =? 40)%nat
     || negb (Str.all_of Str.isxdigit new_commit_hash)
  then (NEW_COMMIT_NOT_FOUND, r) else
  match Commit.load_by_hash new_commit_hash (objects r) with
  | None => (NEW_COMMIT_NOT_FOUND, r)
  | Some _ =>
    let ref_file_path := ref_full_name in
    if Fs.exists_ (gitdir r) ref_file_path
       && negb (Fs.is_regular_file (gitdir r) ref_file_path)
    then (IO_ERROR, r) else
    let '(ref_existed_on_server, current_ref_value_on_server) :=
      if Fs.exists_ (gitdir r) ref_file_path then
        match read_hash (gitdir r) ref_file_path with
        | Some h => (true, h)
        | None => (false, "")
        end
      else (false, "") in
    let expectation :=
      match expected_old_commit_hash with
      | Some expected =>
          if negb ref_existed_on_server then Some REF_NOT_FOUND_FOR_UPDATE
          else if negb (String.eqb current_ref_value_on_server expected)
          then Some OLD_HASH_MISMATCH
          else None
      | None => None
      end in
    match expectation with
    | Some refusal => (refusal, r)
    | None =>
      let is_branch_update := Str.starts_with "refs/heads/" ref_full_name in
      if is_branch_update && ref_existed_on_server
         && negb allow_non_fast_forward
         && negb (String.eqb current_ref_value_on_server "")
         && negb (is_fast_forward r current_ref_value_on_server new_commit_hash)
      then (NOT_FAST_FORWARD, r) else
      let parent_dir := Fs.parent_path ref_file_path in
      let made :=
        if negb (Fs.is_directory (gitdir r) parent_dir
                 || Fs.exists_ (gitdir r) parent_dir)
        then Fs.create_directories (gitdir r) parent_dir
        else if negb (Fs.is_directory (gitdir r) parent_dir) then None
        else Some (gitdir r) in
      match made with
      | None => (IO_ERROR, r)
      | Some fs1 =>
          match Fs.write fs1 ref_file_path
                  (new_commit_hash +:+ Str.of_char Str.nl) with
          | None => (IO_ERROR, set_gitdir fs1 r)
          | Some fs2 => (SUCCESS, set_gitdir fs2 r)
          end
      end
    end
  end.

(** Step A of [rm_cached] and of [rm], which repeats it: the path is made
    absolute from the current directory and normalized, then taken
    relative to the root of the working tree; it is refused when the result
    is empty or its text starts with two dots.  The absolute path and the
    normalized relative one are returned. *)
Definition resolve_for_index (env : Env) (r : t) (path_original : Path.t)
  : option (Path.t * Path.t) :=
  let absolute_path :=
    Path.lexically_normal
      (if Path.is_absolute path_original then path_original
       else Path.append (current_path env) path_original) in
  let relative_path_for_index := Path.relative absolute_path (work_tree_root_ r) in
  if Path.is_empty relative_path_for_index
     || Str.starts_with ".." (Path.generic_string relative_path_for_index)
  then None
  else Some (absolute_path, Path.lexically_normal relative_path_for_index).

Definition rm_cached (env : Env) (path_to_remove_original : Path.t) (r : t)
  : bool * t :=
  let '(ok, idx1) := Index.ensure_loaded (gitdir r) (index_manager_ r) in
  if negb ok then (false, set_index idx1 r) else
  let r1 := set_index idx1 r in
  match resolve_for_index env r1 path_to_remove_original with
  | None => (false, r1)
  | Some (_, relative_path_for_index) =>
      let '(entry_was_actually_removed, idx2) :=
        Index.remove_entry (gitdir r1) relative_path_for_index idx1 in
      let r2 := set_index idx2 r1 in
      if entry_was_actually_removed then
        let '(written, fs') := Index.write idx2 (gitdir r2) in
        if negb written then (false, r2) else (true, set_gitdir fs' r2)
      else (true, r2)
  end.

(** The file at an absolute path below the root is found in the working
    tree under the relative path.  A directory at the path of an index
    entry is taken to fail the read of the strict check. *)
Definition rm (env : Env) (path_to_remove_original : Path.t) (r : t)
  : bool * t :=
  let '(ok, idx1) := Index.ensure_loaded (gitdir r) (index_manager_ r) in
  if negb ok then (false, set_index idx1 r) else
  let r1 := set_index idx1 r in
  match resolve_for_index env r1 path_to_remove_original with
  | None => (false, r1)
  | Some (_, relative_path_for_index) =>
      match Index.get_entry relative_path_for_index idx1 with
      | None => (false, r1)
      | Some entry_in_index =>
          let key := Path.generic_string relative_path_for_index in
          let existed_in_wd := Wt.exists_ (worktree r1) key in
          let strict_check :=
            if existed_in_wd then
              match Wt.read (worktree r1) key with
              | None => false
              | Some wd_content =>
                  String.eqb (SHA1.sha1 (Blob.serialize (Blob.mk wd_content)))
                             (blob_hash_hex entry_in_index)
              end
            else true in
          if negb strict_check then (false, r1) else
          let '(index_removal_succeeded, r2) :=
            rm_cached env relative_path_for_index r1 in
          if negb index_removal_succeeded then (false, r2) else
          if existed_in_wd then (true, set_worktree (delete key (worktree r2)) r2)
          else (true, r2)
      end
  end.

(** *** [commit] *)

(** [count_components] of the comparison that orders the directories: the
    root directory of an absolute path counts, a dot does not. *)
Definition count_components (p : Path.t) : nat :=
  ((if Path.is_absolute p then 1 else 0)
   + length (List.filter (fun e => negb (String.eqb e ".")) (Path.elements p)))%nat.

(** The comparison given to [std::sort]: the deeper directory first, and of
    two directories of one depth the one with the greater text. *)
Definition deeper_first (a b : Path.t) : bool :=
  let depth_a := count_components a in
  let depth_b := count_components b in
  if negb (depth_a =? depth_b)%nat then (depth_b <? depth_a)%nat
  else match String.compare (Path.generic_string b) (Path.generic_string a) with
       | Lt => true
       | _ => false
       end.

(** The loop that puts a directory and the directories above it into the
    set; every turn takes one element away, so the number of elements
    bounds the turns. *)
Fixpoint collect_dir_paths (fuel : nat) (current_parent : Path.t)
    (all_dir_paths_set : list Path.t) : list Path.t :=
  let inserted :=
    pset_insert (Path.lexically_normal current_parent) all_dir_paths_set in
  match fuel with
  | O => inserted
  | S fuel' =>
      if negb (Path.has_parent_path current_parent)
         || Path.eqb (Path.parent_path current_parent) current_parent
      then inserted
      else collect_dir_paths fuel' (Path.parent_path current_parent) inserted
  end.

(** Whether a directory that was built lies directly in [dir_to_build]. *)
Definition is_direct_child (dir_to_build built_subdir_path : Path.t) : bool :=
  if Path.is_empty dir_to_build then
    (((if Path.is_absolute built_subdir_path then 1 else 0)
      + length (Path.elements built_subdir_path))%nat =? 1)%nat
  else
    Path.has_parent_path built_subdir_path
    && Path.eqb (Path.lexically_normal (Path.parent_path built_subdir_path))
                (Path.lexically_normal dir_to_build).

(** The tree of one directory: the files of the index that lie directly in
    it, then the directories built before that do. *)
Definition tree_of_directory (dir_to_build : Path.t)
    (sorted_index_entries : list IndexEntry)
    (built_tree_hashes : list (Path.t * string)) : Tree.t :=
  let with_files :=
    fold_left
      (fun current_dir_tree entry =>
         if Path.eqb (Path.lexically_normal (Path.parent_path (file_path entry)))
                     (Path.lexically_normal dir_to_build)
         then Tree.add_entry
                (mkTreeEntry (ie_mode entry) (Path.filename (file_path entry))
                   (blob_hash_hex entry)) current_dir_tree
         else current_dir_tree)
      sorted_index_entries Tree.empty in
  fold_left
    (fun current_dir_tree (pair : Path.t * string) =>
       if is_direct_child dir_to_build (fst pair)
       then Tree.add_entry
              (mkTreeEntry "040000" (Path.filename (fst pair)) (snd pair))
              current_dir_tree
       else current_dir_tree)
    built_tree_hashes with_files.

(** The loop that builds and saves the trees, the deepest first. *)
Definition build_trees (sorted_index_entries : list IndexEntry)
    (sorted_dir_paths : list Path.t) (o : objects_dir)
  : list (Path.t * string) * objects_dir :=
  fold_left
    (fun (acc : list (Path.t * string) * objects_dir) dir_to_build =>
       let saved :=
         Tree.save (tree_of_directory dir_to_build sorted_index_entries (fst acc))
           (snd acc) in
       (pmap_insert dir_to_build (fst saved) (fst acc), snd saved))
    sorted_dir_paths ([], o).

Definition _build_trees_and_get_root_hash (sorted_index_entries : list IndexEntry)
    (o : objects_dir) : option string * objects_dir :=
  match sorted_index_entries with
  | [] => let saved := Tree.save Tree.empty o in (Some (fst saved), snd saved)
  | _ =>
      let all_dir_paths_set :=
        fold_left
          (fun s entry =>
             let current_parent := Path.parent_path (file_path entry) in
             collect_dir_paths (length (Path.elements current_parent))
               current_parent s)
          sorted_index_entries [Path.empty] in
      let sorted_dir_paths := std_sort deeper_first all_dir_paths_set in
      let built := build_trees sorted_index_entries sorted_dir_paths o in
      (pmap_find Path.empty (fst built), snd built)
  end.

(** [_populate_index_from_tree_recursive].  The recursion follows the
    hashes of the subtrees through the object store; [fuel] bounds its
    depth, and [None] says that it was used up. *)
Fixpoint _populate_index_from_tree_recursive (fuel : nat) (env : Env) (r : t)
    (tree_hash_hex : string) (current_path_prefix : Path.t)
    (target_index : Index.t) : option Index.t :=
  match fuel with
  | O => None
  | S fuel' =>
      match Tree.load_by_hash tree_hash_hex (objects r) with
      | None => Some target_index
      | Some tree =>
          fold_left
            (fun (acc : option Index.t) entry =>
               match acc with
               | None => None
               | Some idx =>
                   let entry_full_relative_path :=
                     Path.lexically_normal
                       (Path.append current_path_prefix
                          (Path.of_string (name entry))) in
                   if is_directory entry then
                     _populate_index_from_tree_recursive fuel' env r
                       (sha1_hash_hex entry) entry_full_relative_path idx
                   else
                     let meta :=
                       match worktree r
                             !! Path.generic_string entry_full_relative_path with
                       | Some f =>
                           (w_mtime f, N.of_nat (String.length (w_content f)))
                       | None => (now env, 0%N)
                       end in
                     Some (snd (Index.add_or_update_entry (gitdir r)
                                  entry_full_relative_path (sha1_hash_hex entry)
                                  (mode entry) (fst meta) (snd meta) idx))
               end)
            (Tree.entries tree) (Some target_index)
      end
  end.

(** Step 4 of [commit]: the parents that [HEAD] gives, and the branch that
    a symbolic [HEAD] names (the empty text when it names none). *)
Definition parents_from_head (r : t) (head_commit_hash_opt : option string)
  : list string * string :=
  if negb (Fs.exists_ (gitdir r) HEAD_FILE_NAME) then ([], "") else
  match first_line (gitdir r) HEAD_FILE_NAME with
  | None => ([], "")
  | Some head_content_line =>
      match symbolic_target head_content_line with
      | Some current_branch_ref_path_for_update =>
          (match head_commit_hash_opt with Some h => [h] | None => [] end,
           current_branch_ref_path_for_update)
      | None =>
          if (String.length head_content_line =? 40)%nat then
            (match head_commit_hash_opt with
             | Some h => [h]
             | None => [head_content_line]
             end, "")
          else ([], "")
      end
  end.

(** Step 5: the author, who is also the committer. *)
Definition author_info (env : Env) : PersonTimestamp.t :=
  let from_config (field : UserConfig -> string) (default : string) :=
    match user_config env with
    | Some cfg => if String.eqb (field cfg) "" then default else field cfg
    | None => default
    end in
  PersonTimestamp.mk (from_config uc_name "Default User")
    (from_config uc_email "user@example.com") (now env) (tz_offset env).

(** How far [commit] came before the index is filled again: it returned
    without a commit, or it saved the commit [new_commit_hash] with the
    tree [root_tree_hash]; [ref_written] is false when the branch file or
    [HEAD] did not open, where the source returns at once. *)
Inductive commit_stage :=
| Rejected (r : t)
| Saved (new_commit_hash root_tree_hash : string) (ref_written : bool) (r : t).

(** Steps 1 to 8 of [commit], and the removal of [MERGE_HEAD]. *)
Definition commit_record (env : Env) (message : string) (r : t) : commit_stage :=
  let '(ok, idx1) := Index.ensure_loaded (gitdir r) (index_manager_ r) in
  let r1 := set_index idx1 r in
  if negb ok then Rejected r1 else
  let index_entries := std_sort IndexEntry_lt (Index.get_all_entries idx1) in
  let is_completing_merge := Fs.exists_ (gitdir r1) MERGE_HEAD_FILE_NAME in
  let head_commit_hash_opt := _get_head_commit_hash r1 in
  let head_tree_hash_for_comparison :=
    match head_commit_hash_opt with
    | Some h =>
        match Commit.load_by_hash h (objects r1) with
        | Some head_commit_obj => Commit.tree_hash_hex head_commit_obj
        | None => ""
        end
    | None => ""
    end in
  if negb is_completing_merge
     && match index_entries with [] => true | _ => false end
     && negb (bool_decide (is_Some head_commit_hash_opt))
  then Rejected r1 else
  let built := _build_trees_and_get_root_hash index_entries (objects r1) in
  let r2 := set_objects (snd built) r1 in
  match fst built with
  | None => Rejected r2
  | Some root_tree_hash =>
    if negb is_completing_merge
       && bool_decide (is_Some head_commit_hash_opt)
       && String.eqb root_tree_hash head_tree_hash_for_comparison
    then Rejected r2 else
    let '(from_head, current_branch_ref_path_for_update) :=
      parents_from_head r2 head_commit_hash_opt in
    let parent_commit_hashes : option (list string) :=
      if is_completing_merge then
        let ours :=
          match from_head, head_commit_hash_opt with
          | [], Some h => [h]
          | _, _ => from_head
          end in
        match ours with
        | [] => None
        | _ =>
            match read_hash (gitdir r2) MERGE_HEAD_FILE_NAME with
            | Some theirs_commit_hash => Some (ours ++ [theirs_commit_hash])
            | None => None
            end
        end
      else Some from_head in
    match parent_commit_hashes with
    | None => Rejected r2
    | Some parents =>
      let new_commit_obj :=
        Commit.mk root_tree_hash parents (author_info env) (author_info env)
          message in
      let saved := Commit.save new_commit_obj (objects r2) in
      let new_commit_hash := fst saved in
      let r3 := set_objects (snd saved) r2 in
      let ref_file :=
        if String.eqb current_branch_ref_path_for_update ""
        then HEAD_FILE_NAME else current_branch_ref_path_for_update in
      match Fs.write (gitdir r3) ref_file
              (new_commit_hash +:+ Str.of_char Str.nl) with
      | None => Saved new_commit_hash root_tree_hash false r3
      | Some fs4 =>
          let fs5 :=
            if is_completing_merge && Fs.exists_ fs4 MERGE_HEAD_FILE_NAME
            then Fs.remove (Fs.remove fs4 MERGE_HEAD_FILE_NAME) FILE_CONFLICTS
            else fs4 in
          Saved new_commit_hash root_tree_hash true (set_gitdir fs5 r3)
      end
    end
  end.

(** [commit]: after the commit is recorded, step 9 fills the index again
    from the new tree and writes it, which the source does whether the file
    can be written or not.  The result is [None] when [fuel] did not
    suffice for the trees. *)
Definition commit (fuel : nat) (env : Env) (message : string) (r : t)
  : option (option string * t) :=
  match commit_record env message r with
  | Rejected r' => Some (None, r')
  | Saved new_commit_hash _ false r' => Some (Some new_commit_hash, r')
  | Saved new_commit_hash root_tree_hash true r' =>
      match _populate_index_from_tree_recursive fuel env r' root_tree_hash
              Path.empty (Index.clear_in_memory (index_manager_ r')) with
      | None => None
      | Some idx =>
          let written := Index.write idx (gitdir r') in
          Some (Some new_commit_hash, set_gitdir (snd written) (set_index idx r'))
      end
  end.

(** *** [merge] *)

Abbreviation files_map := (list (Path.t * (string * string))).

(** [_load_tree_contents_recursive]: the files below a tree, each with the
    hash of its blob and its mode.  [fuel] bounds the depth, as in
    [_populate_index_from_tree_recursive]. *)
Fixpoint _load_tree_contents_recursive (fuel : nat) (r : t)
    (tree_hash_hex : string) (current_path_prefix : Path.t)
    (files_map_acc : files_map) : option files_map :=
  match fuel with
  | O => None
  | S fuel' =>
      match Tree.load_by_hash tree_hash_hex (objects r) with
      | None => Some files_map_acc
      | Some tree =>
          fold_left
            (fun (acc : option files_map) entry =>
               match acc with
               | None => None
               | Some m =>
                   let entry_full_path :=
                     Path.lexically_normal
                       (Path.append current_path_prefix
                          (Path.of_string (name entry))) in
                   if is_directory entry then
                     _load_tree_contents_recursive fuel' r (sha1_hash_hex entry)
                       entry_full_path m
                   else
                     Some (pmap_insert entry_full_path
                             (sha1_hash_hex entry, mode entry) m)
               end)
            (Tree.entries tree) (Some files_map_acc)
      end
  end.

(** [_find_object_file_by_prefix]: the one object whose name starts with
    the prefix, written as its full name. *)
Definition _find_object_file_by_prefix (r : t) (hash_prefix : string)
  : option string :=
  if (String.length hash_prefix <? 6)%nat then None else
  match List.filter (fun k => Str.starts_with hash_prefix k)
          (map fst (map_to_list (objects r))) with
  | [full] => Some full
  | _ => None
  end.

(** What the steps of [_resolve_commit_ish_to_full_hash] do with the file
    of a reference: it gives a commit, or it is there without giving one,
    or it is not there as a file. *)
Inductive ref_try :=
| RefFound (commit_hash_str : string)
| RefUnusable
| RefMissing.

Definition try_ref_file (r : t) (ref_file_path : string) : ref_try :=
  if Fs.exists_ (gitdir r) ref_file_path
     && Fs.is_regular_file (gitdir r) ref_file_path
  then
    match read_hash (gitdir r) ref_file_path with
    | Some commit_hash_str =>
        match Commit.load_by_hash commit_hash_str (objects r) with
        | Some _ => RefFound commit_hash_str
        | None => RefUnusable
        end
    | None => RefUnusable
    end
  else RefMissing.

(** Step 6: a hash or the start of one. *)
Definition resolve_hash_prefix (r : t) (name_or_hash_prefix : string)
  : option string :=
  if (6 <=? String.length name_or_hash_prefix)%nat
     && (String.length name_or_hash_prefix <=? 40)%nat
     && Str.all_of Str.isxdigit name_or_hash_prefix
  then
    match _find_object_file_by_prefix r name_or_hash_prefix with
    | Some full_hash_str =>
        if (String.length full_hash_str =? 40)%nat then
          match Commit.load_by_hash full_hash_str (objects r) with
          | Some _ => Some full_hash_str
          | None => None
          end
        else None
    | None => None
    end
  else None.

(** Steps 4 to 6: a branch, a tag, a hash. *)
Definition resolve_short_name (r : t) (name_or_hash_prefix : string)
  : option string :=
  let no_slash := negb (Str.contains "/" name_or_hash_prefix) in
  let branch :=
    if no_slash then try_ref_file r ("refs/heads/" +:+ name_or_hash_prefix)
    else RefMissing in
  match branch with
  | RefFound h => Some h
  | _ =>
      let tag :=
        if no_slash then try_ref_file r ("refs/tags/" +:+ name_or_hash_prefix)
        else RefMissing in
      match tag with
      | RefFound h => Some h
      | _ => resolve_hash_prefix r name_or_hash_prefix
      end
  end.

(** Step 3: [<remote>/<branch>], one slash that is neither first nor
    last. *)
Definition resolve_remote_name (r : t) (name_or_hash_prefix : string)
  : option string :=
  let remote_tracking :=
    match Str.find "/" name_or_hash_prefix with
    | Some first_slash_pos =>
        if negb (Str.contains "/"
                   (Str.drop (S first_slash_pos) name_or_hash_prefix))
           && negb (first_slash_pos =? 0)%nat
           && negb (first_slash_pos =? String.length name_or_hash_prefix - 1)%nat
        then Some ("refs/remotes/" +:+ Str.take first_slash_pos name_or_hash_prefix
                   +:+ "/" +:+ Str.drop (S first_slash_pos) name_or_hash_prefix)
        else None
    | None => None
    end in
  match remote_tracking with
  | Some remote_tracking_branch_file_path =>
      match try_ref_file r remote_tracking_branch_file_path with
      | RefFound h => Some h
      | RefUnusable => resolve_short_name r name_or_hash_prefix
      | RefMissing => None
      end
  | None => resolve_short_name r name_or_hash_prefix
  end.

Definition _resolve_commit_ish_to_full_hash (r : t)
    (name_or_hash_prefix : string) : option string :=
  if String.eqb name_or_hash_prefix "" then None
  else if String.eqb name_or_hash_prefix "HEAD" then _get_head_commit_hash r
  else if Str.starts_with "refs/" name_or_hash_prefix then
    match try_ref_file r name_or_hash_prefix with
    | RefFound h => Some h
    | RefUnusable => resolve_remote_name r name_or_hash_prefix
    | RefMissing => None
    end
  else resolve_remote_name r name_or_hash_prefix.

(** The files of the commit that [HEAD] names; none when there is no such
    commit. *)
Definition head_files (fuel : nat) (r : t) : option files_map :=
  match _get_head_commit_hash r with
  | Some h =>
      match Commit.load_by_hash h (objects r) with
      | Some commit =>
          _load_tree_contents_recursive fuel r (Commit.tree_hash_hex commit)
            Path.empty []
      | None => Some []
      end
  | None => Some []
  end.

(** [is_workspace_clean] reads the index file with an index object of its
    own.  The walk through the working tree meets every file and passes
    over those whose path starts with the text of [.biogit]; a tracked
    file must hash to the blob of its entry. *)
Definition is_workspace_clean (fuel : nat) (r : t) : option bool :=
  match head_files fuel r with
  | None => None
  | Some head_files_map =>
    let '(ok, index_reader) := Index.load (gitdir r) Index.new in
    if negb ok && Fs.exists_ (gitdir r) Index.index_file_path_ then Some false
    else
    let staged_files_map :=
      fold_left (fun m entry => pmap_insert (file_path entry) entry m)
        (Index.get_all_entries index_reader) [] in
    if negb (forallb
               (fun staged_pair : Path.t * IndexEntry =>
                  match pmap_find (fst staged_pair) head_files_map with
                  | None => false
                  | Some (head_hash, head_mode) =>
                      String.eqb (blob_hash_hex (snd staged_pair)) head_hash
                      && String.eqb (ie_mode (snd staged_pair)) head_mode
                  end) staged_files_map)
    then Some false
    else if negb (forallb
               (fun head_pair : Path.t * (string * string) =>
                  bool_decide (is_Some (pmap_find (fst head_pair) staged_files_map)))
               head_files_map)
    then Some false
    else if negb (forallb
               (fun kv : string * wfile =>
                  let rel_path := Path.lexically_normal (Path.of_string (fst kv)) in
                  if Str.starts_with ".biogit" (fst kv) then true
                  else if Path.is_empty rel_path
                     || Str.starts_with ".." (Path.generic_string rel_path)
                  then true
                  else match pmap_find rel_path staged_files_map with
                       | Some staged_entry =>
                           String.eqb
                             (SHA1.sha1 (Blob.serialize (Blob.mk (w_content (snd kv)))))
                             (blob_hash_hex staged_entry)
                       | None => true
                       end)
               (map_to_list (worktree r)))
    then Some false
    else if negb (forallb
               (fun staged_pair : Path.t * IndexEntry =>
                  Wt.exists_ (worktree r) (Path.generic_string (fst staged_pair)))
               staged_files_map)
    then Some false
    else Some true
  end.

(** [Utils::string_to_lines] of a blob. *)
Definition _get_blob_lines (r : t) (blob_hash : string) : option (list string) :=
  match Blob.load_by_hash blob_hash (objects r) with
  | Some blob => Some (Str.getlines (Blob.content blob))
  | None => None
  end.

(** The text that [_write_conflict_markers] writes. *)
Definition conflict_text (ours_label : string)
    (ours_lines_opt : option (list string)) (theirs_label : string)
    (theirs_lines_opt : option (list string)) : string :=
  let lines_text (lines_opt : option (list string)) :=
    match lines_opt with
    | Some lines =>
        String.concat "" (map (fun l => l +:+ Str.of_char Str.nl) lines)
    | None => ""
    end in
  "<<<<<<< " +:+ ours_label +:+ Str.of_char Str.nl
    +:+ lines_text ours_lines_opt
    +:+ "=======" +:+ Str.of_char Str.nl
    +:+ lines_text theirs_lines_opt
    +:+ ">>>>>>> " +:+ theirs_label +:+ Str.of_char Str.nl.

(** The working tree after [_write_conflict_markers], and whether the file
    was written. *)
Definition _write_conflict_markers (env : Env) (w : gmap string wfile)
    (relative_path : Path.t) (ours_label : string)
    (ours_lines_opt : option (list string)) (theirs_label : string)
    (theirs_lines_opt : option (list string)) : bool * gmap string wfile :=
  match Wt.write w relative_path
          (conflict_text ours_label ours_lines_opt theirs_label theirs_lines_opt)
          (now env) with
  | Some w' => (true, w')
  | None => (false, w)
  end.

(** [_update_working_directory_from_tree]: the files of the target tree
    are written where they differ from [current_head_files_map] or are not
    there, and the files that only [current_head_files_map] has are
    removed.  The working tree is returned as far as it was changed, also
    when the update is given up. *)
Definition _update_working_directory_from_tree (fuel : nat) (env : Env) (r : t)
    (target_root_tree_hash : string) (current_head_files_map : files_map)
  : option (bool * gmap string wfile) :=
  match _load_tree_contents_recursive fuel r target_root_tree_hash Path.empty []
  with
  | None => None
  | Some target_tree_files_map =>
    let written :=
      fold_left
        (fun (acc : bool * gmap string wfile)
             (target_pair : Path.t * (string * string)) =>
           if negb (fst acc) then acc else
           let rel_path := fst target_pair in
           let target_blob_hash := fst (snd target_pair) in
           let needs_update :=
             match pmap_find rel_path current_head_files_map with
             | Some (head_blob_hash, _) =>
                 negb (String.eqb head_blob_hash target_blob_hash)
             | None => true
             end in
           if needs_update
              || negb (Wt.exists_ (snd acc) (Path.generic_string rel_path))
           then
             match Blob.load_by_hash target_blob_hash (objects r) with
             | None => (false, snd acc)
             | Some blob =>
                 match Wt.write (snd acc) rel_path (Blob.content blob) (now env)
                 with
                 | Some w' => (true, w')
                 | None => (false, snd acc)
                 end
             end
           else acc)
        target_tree_files_map (true, worktree r) in
    if negb (fst written) then Some written else
    Some (true,
          fold_left
            (fun w (head_file_pair : Path.t * (string * string)) =>
               match pmap_find (fst head_file_pair) target_tree_files_map with
               | Some _ => w
               | None => Wt.remove w (fst head_file_pair)
               end)
            current_head_files_map (snd written))
  end.

(** What the loop over the paths of a three-way merge carries. *)
Record merge_state := mkMergeState {
  merged_entries_accumulator : list IndexEntry;
  conflict_paths_list : list Path.t;
  conflicts_occurred : bool;
  merge_worktree : gmap string wfile
}.

(** One turn of the loop (c.5). *)
Definition merge_path (env : Env) (r : t)
    (current_branch_name_for_labels branch_to_merge_name : string)
    (base_files ours_files theirs_files : files_map)
    (st : merge_state) (path : Path.t) : merge_state :=
  let base_it := pmap_find path base_files in
  let ours_it := pmap_find path ours_files in
  let theirs_it := pmap_find path theirs_files in
  let hash_of (it : option (string * string)) :=
    match it with Some (h, _) => h | None => "" end in
  let base_h := hash_of base_it in
  let ours_h := hash_of ours_it in
  let theirs_h := hash_of theirs_it in
  let result_mode :=
    match ours_it, theirs_it, base_it with
    | Some (_, m), _, _ => m
    | None, Some (_, m), _ => m
    | None, None, Some (_, m) => m
    | None, None, None => "100644"
    end in
  let take_merged (merged_blob_hash_for_index : string) :=
    if String.eqb merged_blob_hash_for_index "" then st else
    match Blob.load_by_hash merged_blob_hash_for_index (objects r) with
    | Some merged_blob =>
        mkMergeState
          (merged_entries_accumulator st
             ++ [mkIndexEntry result_mode merged_blob_hash_for_index (now env)
                   (N.of_nat (String.length (Blob.content merged_blob))) path])
          (conflict_paths_list st) (conflicts_occurred st) (merge_worktree st)
    | None =>
        mkMergeState (merged_entries_accumulator st)
          (conflict_paths_list st ++ [path]) true (merge_worktree st)
    end in
  if String.eqb ours_h theirs_h then take_merged ours_h
  else if String.eqb base_h ours_h && negb (String.eqb base_h theirs_h)
  then take_merged theirs_h
  else if String.eqb base_h theirs_h && negb (String.eqb base_h ours_h)
  then take_merged ours_h
  else
    let ours_lines_opt :=
      if String.eqb ours_h "" then Some [] else _get_blob_lines r ours_h in
    let theirs_lines_opt :=
      if String.eqb theirs_h "" then Some [] else _get_blob_lines r theirs_h in
    mkMergeState (merged_entries_accumulator st)
      (conflict_paths_list st ++ [path]) true
      (snd (_write_conflict_markers env (merge_worktree st) path
              current_branch_name_for_labels ours_lines_opt
              branch_to_merge_name theirs_lines_opt)).

(** The paths of the three trees (c.4) and the loop over them (c.5). *)
Definition all_involved_paths (base_files ours_files theirs_files : files_map)
  : list Path.t :=
  fold_left (fun s (p : Path.t * (string * string)) => pset_insert (fst p) s)
    (base_files ++ ours_files ++ theirs_files) [].

Definition three_way_loop (env : Env) (r : t)
    (current_branch_name_for_labels branch_to_merge_name : string)
    (base_files ours_files theirs_files : files_map) : merge_state :=
  fold_left
    (merge_path env r current_branch_name_for_labels branch_to_merge_name
       base_files ours_files theirs_files)
    (all_involved_paths base_files ours_files theirs_files)
    (mkMergeState [] [] false (worktree r)).

(** Step 3: what is done when the loop met a conflict. *)
Definition report_conflicts (r : t) (theirs_commit_hash : string)
    (st : merge_state) : bool * t :=
  let r1 := set_worktree (merge_worktree st) r in
  match Fs.write (gitdir r1) FILE_CONFLICTS
          (String.concat ""
             (map (fun p => Path.generic_string p +:+ Str.of_char Str.nl)
                (conflict_paths_list st))) with
  | None => (false, r1)
  | Some fs1 =>
      match Fs.write fs1 MERGE_HEAD_FILE_NAME
              (theirs_commit_hash +:+ Str.of_char Str.nl) with
      | None => (false, set_gitdir fs1 r1)
      | Some fs2 => (false, set_gitdir fs2 r1)
      end
  end.

(** The branch that [HEAD] names with [ref: refs/heads/], if it does. *)
Definition head_branch (r : t) : option string :=
  if negb (Fs.exists_ (gitdir r) HEAD_FILE_NAME) then None else
  match first_line (gitdir r) HEAD_FILE_NAME with
  | Some head_content_line =>
      if Str.starts_with "ref: refs/heads/" head_content_line
      then Some (Str.substr_from 16 head_content_line)
      else None
  | None => None
  end.

(** Step 2.b: [OURS] is the common ancestor, the branch is moved forward
    to [THEIRS].  A branch without name gives the directory [refs/heads],
    on which the stream does not open. *)
Definition fast_forward_merge (fuel : nat) (env : Env) (r : t)
    (ours_commit_hash theirs_commit_hash : string)
    (current_branch_ref_path_str : option string) : option (bool * t) :=
  match current_branch_ref_path_str with
  | None => Some (false, r)
  | Some branch_ref =>
    match Commit.load_by_hash theirs_commit_hash (objects r) with
    | None => Some (false, r)
    | Some theirs_commit_obj =>
      match Commit.load_by_hash ours_commit_hash (objects r) with
      | None => Some (false, r)
      | Some ours_commit_obj_ff =>
        match _load_tree_contents_recursive fuel r
                (Commit.tree_hash_hex ours_commit_obj_ff) Path.empty [] with
        | None => None
        | Some ours_files_map_ff =>
          match _update_working_directory_from_tree fuel env r
                  (Commit.tree_hash_hex theirs_commit_obj) ours_files_map_ff with
          | None => None
          | Some (false, w) => Some (false, set_worktree w r)
          | Some (true, w) =>
            let r1 := set_worktree w r in
            match _populate_index_from_tree_recursive fuel env r1
                    (Commit.tree_hash_hex theirs_commit_obj) Path.empty
                    (Index.clear_in_memory (index_manager_ r1)) with
            | None => None
            | Some idx =>
              let r2 := set_index idx r1 in
              let '(written, fs') := Index.write idx (gitdir r2) in
              if negb written then Some (false, r2) else
              let r3 := set_gitdir fs' r2 in
              if String.eqb branch_ref "" then Some (false, r3) else
              match Fs.write (gitdir r3) ("refs/heads/" +:+ branch_ref)
                      (theirs_commit_hash +:+ Str.of_char Str.nl) with
              | None => Some (false, r3)
              | Some fs'' => Some (true, set_gitdir fs'' r3)
              end
            end
          end
        end
      end
    end
  end.

(** Step 4: no path was in conflict; the merged entries become the index,
    the working tree follows, and the merge commit is made. *)
Definition complete_merge (fuel : nat) (env : Env) (r : t)
    (branch_to_merge_name ours_commit_hash theirs_commit_hash : string)
    (current_branch_ref_path_str : option string) (ours_files : files_map)
    (st : merge_state) : option (bool * t) :=
  let r0 := set_worktree (merge_worktree st) r in
  let idx :=
    fold_left
      (fun idx merged_entry_data =>
         snd (Index.add_or_update_entry (gitdir r0) (file_path merged_entry_data)
                (blob_hash_hex merged_entry_data) (ie_mode merged_entry_data)
                (mtime merged_entry_data) (file_size merged_entry_data) idx))
      (merged_entries_accumulator st)
      (Index.clear_in_memory (index_manager_ r0)) in
  let r1 := set_index idx r0 in
  let '(written, fs1) := Index.write idx (gitdir r1) in
  if negb written then Some (false, r1) else
  let r2 := set_gitdir fs1 r1 in
  let built :=
    match Index.get_all_entries idx with
    | [] => let saved := Tree.save Tree.empty (objects r2) in
            (Some (fst saved), snd saved)
    | entries => _build_trees_and_get_root_hash entries (objects r2)
    end in
  let r3 := set_objects (snd built) r2 in
  match fst built with
  | None => Some (false, r3)
  | Some merged_final_tree_hash =>
    match _update_working_directory_from_tree fuel env r3
            merged_final_tree_hash ours_files with
    | None => None
    | Some (false, w) => Some (false, set_worktree w r3)
    | Some (true, w) =>
      let r4 := set_worktree w r3 in
      let merge_commit_message :=
        "Merge branch '" +:+ branch_to_merge_name +:+ "'"
          +:+ match current_branch_ref_path_str with
              | Some current_branch_name_for_labels =>
                  " into " +:+ current_branch_name_for_labels
              | None => ""
              end in
      let author_info :=
        PersonTimestamp.mk "Default User" "user@example.com" (now env)
          (tz_offset env) in
      let new_merge_commit :=
        Commit.mk merged_final_tree_hash [ours_commit_hash; theirs_commit_hash]
          author_info author_info merge_commit_message in
      let saved := Commit.save new_merge_commit (objects r4) in
      let r5 := set_objects (snd saved) r4 in
      let ref_file :=
        match current_branch_ref_path_str with
        | Some branch_ref =>
            if String.eqb branch_ref "" then HEAD_FILE_NAME
            else "refs/heads/" +:+ branch_ref
        | None => HEAD_FILE_NAME
        end in
      match Fs.write (gitdir r5) ref_file (fst saved +:+ Str.of_char Str.nl) with
      | None => Some (false, r5)
      | Some fs2 => Some (true, set_gitdir fs2 r5)
      end
    end
  end.

(** Step 2.c: the three-way merge of commits that all load. *)
Definition three_way_merge (fuel : nat) (env : Env) (r : t)
    (branch_to_merge_name ours_commit_hash theirs_commit_hash
       base_commit_hash : string)
    (current_branch_ref_path_str : option string) : option (bool * t) :=
  match Commit.load_by_hash base_commit_hash (objects r),
        Commit.load_by_hash ours_commit_hash (objects r),
        Commit.load_by_hash theirs_commit_hash (objects r) with
  | Some base_commit_obj, Some ours_commit_obj, Some theirs_commit_obj =>
    match _load_tree_contents_recursive fuel r
            (Commit.tree_hash_hex base_commit_obj) Path.empty [],
          _load_tree_contents_recursive fuel r
            (Commit.tree_hash_hex ours_commit_obj) Path.empty [],
          _load_tree_contents_recursive fuel r
            (Commit.tree_hash_hex theirs_commit_obj) Path.empty [] with
    | Some base_files, Some ours_files, Some theirs_files =>
      let current_branch_name_for_labels :=
        match current_branch_ref_path_str with
        | Some branch_ref => branch_ref
        | None => "HEAD"
        end in
      let st :=
        three_way_loop env r current_branch_name_for_labels branch_to_merge_name
          base_files ours_files theirs_files in
      if conflicts_occurred st then Some (report_conflicts r theirs_commit_hash st)
      else complete_merge fuel env r branch_to_merge_name ours_commit_hash
             theirs_commit_hash current_branch_ref_path_str ours_files st
    | _, _, _ => None
    end
  | _, _, _ => Some (false, r)
  end.

(** [merge].  The searches through the history and the trees take
    [fuel]; the result is [None] when it did not suffice. *)
Definition merge (fuel : nat) (env : Env) (branch_to_merge_name : string)
    (r : t) : option (bool * t) :=
  if Fs.exists_ (gitdir r) MERGE_HEAD_FILE_NAME then Some (false, r) else
  match is_workspace_clean fuel r with
  | None => None
  | Some false => Some (false, r)
  | Some true =>
    match _get_head_commit_hash r with
    | None => Some (false, r)
    | Some ours_commit_hash =>
      match _resolve_commit_ish_to_full_hash r branch_to_merge_name with
      | None => Some (false, r)
      | Some theirs_commit_hash =>
        if String.eqb ours_commit_hash theirs_commit_hash then Some (true, r)
        else
        let current_branch_ref_path_str := head_branch r in
        match _find_common_ancestor fuel r ours_commit_hash theirs_commit_hash
        with
        | None => None
        | Some None => Some (false, r)
        | Some (Some base_commit_hash) =>
          if String.eqb base_commit_hash theirs_commit_hash then Some (true, r)
          else if String.eqb base_commit_hash ours_commit_hash then
            fast_forward_merge fuel env r ours_commit_hash theirs_commit_hash
              current_branch_ref_path_str
          else
            three_way_merge fuel env r branch_to_merge_name ours_commit_hash
              theirs_commit_hash base_commit_hash current_branch_ref_path_str
        end
      end
    end
  end.

End Repository.

(** ** Predicates of the statements *)

(** The order of the specification: [a] may stand before [b] when the key of
    [a] (its name, with a slash appended for a subtree) is not greater than
    the key of [b]. *)
Definition tree_order (a b : TreeEntry) : Prop :=
  String.leb (Tree.name_for_sort a) (Tree.name_for_sort b) = true.

Definition tree_sorted (tr : Tree.t) : Prop :=
  StronglySorted tree_order (Tree.entries tr).

(** The trees that the program builds itself start empty and grow by
    [add_entry]. *)
Definition tree_of_entries (es : list TreeEntry) : Tree.t :=
  fold_left (fun tr e => Tree.add_entry e tr) es Tree.empty.

Definition starts_with_digit (s : string) : bool :=
  match s with String c _ => Str.isdigit c | EmptyString => false end.

(** An entry can be read back when its mode has no space, its name no NUL
    and its hash 40 characters. *)
Definition entry_wf (e : TreeEntry) : Prop :=
  Str.contains Str.sp (mode e) = false
  /\ Str.contains Str.nul (name e) = false
  /\ String.length (sha1_hash_hex e) = 40%nat.

Definition no_space (s : string) : bool :=
  Str.all_of (fun c => negb (Str.isspace c)) s.

(** A person can be read back when the name is not empty and has no angle
    bracket, the e-mail has no closing bracket, the time is a whole number
    of seconds that fits a [long long], and the time zone is one word. *)
Definition person_wf (p : PersonTimestamp.t) : Prop :=
  PersonTimestamp.name p <> ""
  /\ Str.contains "<" (PersonTimestamp.name p) = false
  /\ Str.contains ">" (PersonTimestamp.name p) = false
  /\ Str.contains ">" (PersonTimestamp.email p) = false
  /\ PersonTimestamp.timezone_offset p <> ""
  /\ no_space (PersonTimestamp.timezone_offset p) = true
  /\ from_time_t (to_time_t (PersonTimestamp.timestamp p))
     = PersonTimestamp.timestamp p
  /\ Str.LLONG_MIN <= to_time_t (PersonTimestamp.timestamp p) <= Str.LLONG_MAX.

Definition hash_line_wf (h : string) : Prop :=
  String.length h = 40%nat /\ Str.contains Str.nl h = false.

Definition person_one_line (p : PersonTimestamp.t) : Prop :=
  Str.contains Str.nl (PersonTimestamp.name p) = false
  /\ Str.contains Str.nl (PersonTimestamp.email p) = false.

(** A commit can be read back when its hashes have 40 characters and its
    metadata fit their lines, its persons can be read back, and its message
    does not end with a newline. *)
Definition commit_wf (c : Commit.t) : Prop :=
  hash_line_wf (Commit.tree_hash_hex c)
  /\ Forall hash_line_wf (Commit.parent_hashes_hex c)
  /\ person_wf (Commit.author c) /\ person_one_line (Commit.author c)
  /\ person_wf (Commit.committer c) /\ person_one_line (Commit.committer c)
  /\ Str.back (Commit.message c) <> Some Str.nl.

Definition parent_line (p : string) : string := "parent " +:+ p.

(** The second at which a token made at [now] for [ttl] seconds expires. *)
Definition token_expiry (now : time_point) (ttl : Z) : Z :=
  Z.quot (now + ttl * 1000000000) 1000000000.

(** The clock read in seconds. *)
Definition clock_seconds (now : time_point) : Z := Z.quot now 1000000000.

(** *** The first-parent walk *)

Section FirstParentWalk.
Context (load : string -> option Commit.t).

(** The first parent of a commit that can be loaded. *)
Definition first_parent (h : string) : option string :=
  if String.eqb h "" then None
  else match load h with
       | Some c => head (Commit.parent_hashes_hex c)
       | None => None
       end.

(** The commit that [k] steps along first parents reach from [h]. *)
Fixpoint nth_first_parent (k : nat) (h : string) : option string :=
  match k with
  | O => Some h
  | S k' => first_parent h ≫= nth_first_parent k'
  end.

(** The relation of the specification: the first-parent walk from [b]
    reaches [a] within [n] steps. *)
Definition first_parent_reaches (n : nat) (a b : string) : Prop :=
  exists k, (k <= n)%nat /\ nth_first_parent k b = Some a.

(** What the program looks for: a commit visited at step [k] of the walk
    from [b] that has [a] among its parents. *)
Definition parent_hit (a b : string) (k : nat) : Prop :=
  exists h c, nth_first_parent k b = Some h /\ h <> ""
              /\ load h = Some c /\ In a (Commit.parent_hashes_hex c).

(** What the visited set knows: a hit that lies ahead of a visited commit
    lies nearer ahead of the current one. *)
Definition visited_behind (a : string) (vis : gset string) (cur : string) : Prop :=
  forall v, v ∈ vis -> forall k, parent_hit a v k ->
  exists k', (k' < k)%nat /\ parent_hit a cur k'.

End FirstParentWalk.

(** The object store as the walks of a repository see it. *)
Definition commit_loader (r : Repository.t) : string -> option Commit.t :=
  fun h => Commit.load_by_hash h (Repository.objects r).

(** *** Histories without merge commits *)

Section Lineage.
Context (load : string -> option Commit.t).

(** The parent that the searches queue for a commit with one parent. *)
Definition parent_of (h : string) : option string :=
  match load h with
  | Some c => head (Commit.parent_hashes_hex c)
  | None => None
  end.

Fixpoint ancestor_at (k : nat) (h : string) : option string :=
  match k with
  | O => Some h
  | S k' => parent_of h ≫= ancestor_at k'
  end.

(** [x] is [h] or one of its ancestors. *)
Definition reaches (h x : string) : Prop := exists k, ancestor_at k h = Some x.

(** No commit is a merge. *)
Definition linear_history : Prop :=
  forall h c, load h = Some c -> (length (Commit.parent_hashes_hex c) <= 1)%nat.

(** Parents are older than their children: [rank] decreases along every
    parent link, so no commit is its own ancestor. *)
Definition ranked_history (rank : string -> nat) : Prop :=
  forall h c p, load h = Some c -> In p (Commit.parent_hashes_hex c) ->
                (rank p < rank h)%nat.

(** The nearest common ancestor: a common ancestor from which every
    common ancestor is reached; [None] when the two have none. *)
Definition nearest_common (a b : string) (res : option string) : Prop :=
  match res with
  | Some y => reaches a y /\ reaches b y
              /\ forall z, reaches a z -> reaches b z -> reaches y z
  | None => forall z, reaches a z -> reaches b z -> False
  end.

End Lineage.

(** Both properties, checked on every object of a store. *)
Definition store_linear (o : objects_dir) : bool :=
  forallb (fun kv : string * string =>
             match Commit.load_by_hash kv.1 o with
             | Some c => (length (Commit.parent_hashes_hex c) <=? 1)%nat
             | None => true
             end) (map_to_list o).

Definition store_ranked (rank : string -> nat) (o : objects_dir) : bool :=
  forallb (fun kv : string * string =>
             match Commit.load_by_hash kv.1 o with
             | Some c => forallb (fun p => (rank p <? rank kv.1)%nat)
                                 (Commit.parent_hashes_hex c)
             | None => true
             end) (map_to_list o).

(** *** What [commit] may add to the object store *)

(** Every object of [o'] was in [o] or is a tree. *)
Definition only_trees_added (o o' : objects_dir) : Prop :=
  forall k bytes, o' !! k = Some bytes ->
    o !! k = Some bytes \/ exists tr, bytes = Tree.serialize tr.

(** The root tree that [commit] builds from the entries of an index, and
    the object store with the trees that were saved on the way. *)
Definition built_from_index (idx : Index.t) (o : objects_dir)
  : option string * objects_dir :=
  Repository._build_trees_and_get_root_hash
    (std_sort IndexEntry_lt (Index.get_all_entries idx)) o.

(** *** Merging *)

(** The name of the current side in messages and conflict markers: the
    branch of [HEAD], or [HEAD] itself. *)
Definition merge_label (r : Repository.t) : string :=
  match Repository.head_branch r with
  | Some branch_ref => branch_ref
  | None => "HEAD"
  end.

(** The text of [FILE_CONFLICTS] for a list of paths. *)
Definition conflict_list_text (paths : list Path.t) : string :=
  String.concat ""
    (map (fun p => Path.generic_string p +:+ Str.of_char Str.nl) paths).

(** The files of the tree of a commit. *)
Definition files_of_commit (fuel : nat) (r : Repository.t) (c : Commit.t)
  : option Repository.files_map :=
  Repository._load_tree_contents_recursive fuel r (Commit.tree_hash_hex c)
    Path.empty [].

(** *** Hashes and stored objects *)

(** The digits that [%08x] prints. *)
Definition is_lower_hex (c : ascii) : bool := Str.contains c "0123456789abcdef".

(** The size of an object fits the [long long] that [std::stoll] reads. *)
Definition size_fits (data : string) : Prop :=
  Z.of_nat (String.length data) <= Str.LLONG_MAX.

(** *** Index entries that can be written and read *)

(** An element of a path as the program makes them: a name, not a dot. *)
Definition element_wf (e : string) : Prop :=
  e <> "" /\ Str.contains "/" e = false /\ e <> "." /\ e <> "..".

(** A relative path in normal form with at least one element. *)
Definition path_wf (p : Path.t) : Prop :=
  Path.is_absolute p = false
  /\ Path.elements p <> []
  /\ Forall element_wf (Path.elements p).

(** An entry whose line in the index file reads back: mode and hash are
    words, the hash has 40 characters, the time fits, and the path is a
    relative path in normal form that stays on its line. *)
Definition index_entry_wf (e : IndexEntry) : Prop :=
  ie_mode e <> "" /\ no_space (ie_mode e) = true
  /\ String.length (blob_hash_hex e) = 40%nat
  /\ no_space (blob_hash_hex e) = true
  /\ Str.LLONG_MIN <= Z.quot (mtime e) 1000000000 <= Str.LLONG_MAX
  /\ (file_size e < 2 ^ 64)%N
  /\ path_wf (file_path e)
  /\ Str.contains Str.nl (Path.generic_string (file_path e)) = false.

(** The entries of an index have different paths. *)
Definition index_paths_distinct (idx : Index.t) : Prop :=
  NoDup (map file_path (Index.entries_ idx)).

(** *** Ancestors through all parents *)

Section Ancestry.
Context (load : string -> option Commit.t).

(** [p] is one of the parents that the commit [h] names. *)
Definition parent_link (h p : string) : Prop :=
  exists c, load h = Some c /\ In p (Commit.parent_hashes_hex c).

(** [x] is [h] or is reached from it through parents. *)
Definition ancestor_or_self : string -> string -> Prop := rtc parent_link.

End Ancestry.

(** Every hash that a commit of the store names as a parent. *)
Definition parent_universe (o : objects_dir) : gset string :=
  list_to_set
    (concat
       (map (fun kv : string * string =>
               match Commit.load_by_hash kv.1 o with
               | Some c => Commit.parent_hashes_hex c
               | None => []
               end) (map_to_list o))).

(** Turns that suffice for the searches through the history of a store. *)
Definition history_fuel (o : objects_dir) : nat :=
  2 * size (parent_universe o) + 4.

(** ** Sample data *)

Module Sample.

(** The blob of a file holding ["hello\n"]. *)
Definition hello_blob : Blob.t := Blob.mk ("hello" +:+ Str.of_char Str.nl).
Definition hello_hash : string := "ce013625030ba8dba906f756967f9e9ca394464a".

Definition entry_a : TreeEntry := mkTreeEntry "100644" "a" hello_hash.
Definition entry_b : TreeEntry := mkTreeEntry "100644" "b" hello_hash.
(** A subtree named [lib] and a file named [lib.c]: the key of the subtree
    is [lib/], which comes after [lib.c]. *)
Definition entry_lib : TreeEntry := mkTreeEntry "040000" "lib" hello_hash.
Definition entry_lib_c : TreeEntry := mkTreeEntry "100644" "lib.c" hello_hash.

(** The body of a tree object whose entries are stored as [b], [a]. *)
Definition unsorted_tree_body : string :=
  TreeEntry_serialize entry_b +:+ TreeEntry_serialize entry_a.

End Sample.

Module SampleCommit.

Definition alice (t : time_point) : PersonTimestamp.t :=
  PersonTimestamp.mk "Default User" "user@example.com" t "+0800".

(** A commit as it is read from the store: whole seconds. *)
Definition stored : Commit.t :=
  Commit.mk Sample.hello_hash [] (alice 1700000000000000000)
    (alice 1700000000000000000) "c1".

(** A commit as [Repository::commit] builds it: the time is the clock's, to
    the nanosecond. *)
Definition fresh : Commit.t :=
  Commit.mk Sample.hello_hash [] (alice 1700000000123456789)
    (alice 1700000000123456789) "c1".

(** A commit whose message ends with a newline. *)
Definition with_newline : Commit.t :=
  Commit.mk Sample.hello_hash [] (alice 1700000000000000000)
    (alice 1700000000000000000) ("c1" +:+ Str.of_char Str.nl).

Definition sorted_tree : Tree.t :=
  Tree.mk [Sample.entry_a; Sample.entry_lib_c; Sample.entry_lib].

End SampleCommit.

Module SampleIndex.

Definition line_a : string :=
  "100644 ce013625030ba8dba906f756967f9e9ca394464a 1700000000 5 6 a.txt".

Definition entry_a : IndexEntry :=
  mkIndexEntry "100644" Sample.hello_hash 1700000000000000005 6
    (Path.mk false ["a.txt"]).

(** An index file with a blank line, a line of spaces and one entry. *)
Definition good_file : string :=
  Str.of_char Str.nl +:+ "   " +:+ Str.of_char Str.nl +:+ line_a
    +:+ Str.of_char Str.nl.

(** An index file whose second entry has lost its path. *)
Definition bad_line : string :=
  "100644 ce013625030ba8dba906f756967f9e9ca394464a 1700000000 5 6".

Definition bad_file : string :=
  line_a +:+ Str.of_char Str.nl +:+ bad_line +:+ Str.of_char Str.nl.

Definition with_index (content : string) : files :=
  {[ "HEAD" := File "ref: refs/heads/main"; "index" := File content ]}.

Definition without_index : files := {[ "HEAD" := File "ref: refs/heads/main" ]}.

End SampleIndex.

Module SampleToken.

Definition manager : TokenManager.t :=
  TokenManager.initialize "server-secret" TokenManager.new.

(** The clock when the token is made, when it is used in time, and when it
    is used too late. *)
Definition t_login : time_point := 1700000000250000000.
Definition t_soon : time_point := 1700000100000000000.
Definition t_late : time_point := 1700003601000000000.

End SampleToken.

(** A small history: two root commits [x] and [y], a commit [x2] on top of
    [x], and the two merges [a] (of [x] and [y]) and [b] (of [y] and [x]). *)
Module SampleHistory.

Definition person : PersonTimestamp.t :=
  SampleCommit.alice 1700000000000000000.

Definition commit_of (parents : list string) (msg : string) : Commit.t :=
  Commit.mk Sample.hello_hash parents person person msg.

Definition hash_of (c : Commit.t) : string := SHA1.sha1 (Commit.serialize c).

Definition x : Commit.t := commit_of [] "x".
Definition y : Commit.t := commit_of [] "y".
Definition hx : string := Eval vm_compute in hash_of x.
Definition hy : string := Eval vm_compute in hash_of y.
Definition x2 : Commit.t := commit_of [hx] "x2".
Definition hx2 : string := Eval vm_compute in hash_of x2.
Definition a : Commit.t := commit_of [hx; hy] "a".
Definition b : Commit.t := commit_of [hy; hx] "b".
Definition ha : string := Eval vm_compute in hash_of a.
Definition hb : string := Eval vm_compute in hash_of b.

Definition store : objects_dir :=
  snd (Commit.save b (snd (Commit.save a (snd (Commit.save x2
    (snd (Commit.save y (snd (Commit.save x ∅))))))))).

(** A hash of 40 hexadecimal digits that names no object. *)
Definition missing : string := "0123456789abcdef0123456789abcdef01234567".

Definition root : Path.t := Path.mk true ["home"; "u"; "proj"].

(** A server-side repository whose branch [main] is at [x]. *)
Definition repo : Repository.t :=
  Repository.mk root
    {[ "HEAD" := File ("ref: refs/heads/main" +:+ Str.of_char Str.nl);
       "refs" := Dir; "refs/heads" := Dir; "refs/tags" := Dir;
       "refs/heads/main" := File (hx +:+ Str.of_char Str.nl);
       "refs/heads/empty" := File "" ]}
    store ∅ Index.new.

End SampleHistory.

(** A history without merge: [x], and two children [x2] and [x3] of it. *)
Module SampleLinear.

Definition x3 : Commit.t := SampleHistory.commit_of [SampleHistory.hx] "x3".
Definition hx3 : string := Eval vm_compute in SampleHistory.hash_of x3.

Definition store : objects_dir :=
  snd (Commit.save x3 (snd (Commit.save SampleHistory.x2
    (snd (Commit.save SampleHistory.x ∅))))).

Definition repo : Repository.t :=
  Repository.mk SampleHistory.root
    {[ "HEAD" := File ("ref: refs/heads/main" +:+ Str.of_char Str.nl);
       "refs" := Dir; "refs/heads" := Dir;
       "refs/heads/main" := File (SampleHistory.hx2 +:+ Str.of_char Str.nl) ]}
    store ∅ Index.new.

Definition rank (h : string) : nat :=
  if String.eqb h SampleHistory.hx then 0%nat else 1%nat.

End SampleLinear.

(** A repository at [/home/u/proj] whose index holds [sub/f.txt]; the file
    itself is gone from the working tree. *)
Module SampleRm.

Definition root : Path.t := Path.of_string "/home/u/proj".

Definition tracked : Path.t := Path.of_string "sub/f.txt".

Definition entry : IndexEntry :=
  mkIndexEntry "100644" Sample.hello_hash 1700000000000000005 6 tracked.

Definition index_file : string := format_for_file entry +:+ Str.of_char Str.nl.

Definition repo : Repository.t :=
  Repository.mk root
    {[ "HEAD" := File ("ref: refs/heads/main" +:+ Str.of_char Str.nl);
       "index" := File index_file ]}
    ∅ ∅ Index.new.

(** The process runs in the root, or in [sub]. *)
Definition at_root : Env := mkEnv root 1700000001000000000 "+0000" None.
Definition in_sub : Env :=
  mkEnv (Path.of_string "/home/u/proj/sub") 1700000001000000000 "+0000" None.

End SampleRm.

(** A repository with one tracked file under its first commit, and the
    same repository while a merge waits for its commit. *)
Module SampleWork.

Definition env : Env :=
  mkEnv SampleHistory.root 1700000100000000000 "+0800"
    (Some (mkUserConfig "Alice" "alice@example.com")).

Definition start : Repository.t :=
  Repository.mk SampleHistory.root
    {[ "HEAD" := File ("ref: refs/heads/main" +:+ Str.of_char Str.nl);
       "refs" := Dir; "refs/heads" := Dir;
       "index" := File SampleIndex.good_file ]}
    ∅
    {[ "a.txt" := mkWfile ("hello" +:+ Str.of_char Str.nl) 1700000000000000005 ]}
    Index.new.

Definition committed : Repository.t :=
  Eval vm_compute in
    match Repository.commit 4 env "first" start with
    | Some (_, r) => r
    | None => start
    end.

Definition with_merge_head (content : string) : Repository.t :=
  Repository.set_gitdir
    (<[ "MERGE_HEAD" := File content ]> (Repository.gitdir committed)) committed.

(** [MERGE_HEAD] as [merge] leaves it, and a [MERGE_HEAD] without a hash. *)
Definition merging : Repository.t :=
  with_merge_head (SampleHistory.hy +:+ Str.of_char Str.nl).
Definition broken_merge : Repository.t := with_merge_head "".

End SampleWork.

(** Two branches that changed the same file in different ways: [main] (the
    current branch) and [feature] both start from [base]. *)
Module SampleMerge.

Definition env : Env := mkEnv SampleHistory.root 1700000200000000000 "+0800" None.

Definition text (s : string) : string := s +:+ Str.of_char Str.nl.

Definition blob_base : Blob.t := Blob.mk (text "one").
Definition blob_ours : Blob.t := Blob.mk (text "ours").
Definition blob_theirs : Blob.t := Blob.mk (text "theirs").

Definition tree_with (b : Blob.t) : Tree.t :=
  Tree.add_entry (mkTreeEntry "100644" "f.txt" (fst (Blob.save b ∅))) Tree.empty.

Definition commit_with (b : Blob.t) (parents : list string) (message : string)
  : Commit.t :=
  Commit.mk (fst (Tree.save (tree_with b) ∅)) parents SampleHistory.person
    SampleHistory.person message.

Definition base : Commit.t := commit_with blob_base [] "base".
Definition h_base : string := Eval vm_compute in fst (Commit.save base ∅).
Definition ours : Commit.t := commit_with blob_ours [h_base] "ours".
Definition h_ours : string := Eval vm_compute in fst (Commit.save ours ∅).
Definition theirs : Commit.t := commit_with blob_theirs [h_base] "theirs".
Definition h_theirs : string := Eval vm_compute in fst (Commit.save theirs ∅).

Definition store : objects_dir :=
  Eval vm_compute in
    fold_left (fun o c => snd (Commit.save c o)) [base; ours; theirs]
      (fold_left (fun o b => snd (Tree.save (tree_with b) (snd (Blob.save b o))))
         [blob_base; blob_ours; blob_theirs] ∅).

Definition index_file : string :=
  text (format_for_file
          (mkIndexEntry "100644" (fst (Blob.save blob_ours ∅))
             1700000000000000005 5 (Path.of_string "f.txt"))).

Definition repo : Repository.t :=
  Repository.mk SampleHistory.root
    {[ "HEAD" := File (text "ref: refs/heads/main");
       "refs" := Dir; "refs/heads" := Dir;
       "refs/heads/main" := File (text h_ours);
       "refs/heads/feature" := File (text h_theirs);
       "index" := File index_file ]}
    store
    {[ "f.txt" := mkWfile (text "ours") 1700000000000000005 ]}
    Index.new.

End SampleMerge.
(** * Properties *)

(** ** SHA-1: the standard test vectors *)

Example sha1_empty :
  SHA1.sha1 "" = "da39a3ee5e6b4b0d3255bfef95601890afd80709".
Proof. vm_compute. reflexivity. Qed.

Example sha1_abc :
  SHA1.sha1 "abc" = "a9993e364706816aba3e25717850c26c9cd0d89d".
Proof. vm_compute. reflexivity. Qed.

Example blob_hello_hash :
  SHA1.sha1 (Blob.serialize (Blob.mk ("hello" +:+ Str.of_char Str.nl)))
  = "ce013625030ba8dba906f756967f9e9ca394464a".
Proof. vm_compute. reflexivity. Qed.

(** ** [std::sort] returns a sorted permutation *)

Section StdSortFacts.
Context {A : Type} (comp : A -> A -> bool).

Hypothesis comp_asym : forall x y, comp x y = true -> comp y x = false.

Lemma sort_insert_perm x l : sort_insert comp x l ≡ₚ x :: l.
Proof.
  induction l as [|y l IH]; simpl; [done|].
  destruct (comp x y); [done|].
  rewrite IH. apply Permutation_swap.
Qed.

Lemma std_sort_acc_perm l acc :
  fold_left (fun a x => sort_insert comp x a) l acc ≡ₚ acc ++ l.
Proof.
  revert acc. induction l as [|x l IH]; intros acc; simpl.
  - by rewrite app_nil_r.
  - rewrite IH, sort_insert_perm.
    by rewrite (Permutation_middle acc l x).
Qed.

Lemma std_sort_perm l : std_sort comp l ≡ₚ l.
Proof. unfold std_sort. by rewrite std_sort_acc_perm. Qed.

Lemma sort_insert_hd x l :
  forall y, HdRel (not_after comp) y l -> comp x y = false ->
  HdRel (not_after comp) y (sort_insert comp x l).
Proof.
  intros y Hy Hxy. destruct l as [|z l]; simpl.
  - by constructor.
  - destruct (comp x z); constructor; [done|].
    by inversion Hy.
Qed.

Lemma sort_insert_sorted x l :
  Sorted (not_after comp) l -> Sorted (not_after comp) (sort_insert comp x l).
Proof.
  induction 1 as [|y l Hl IH Hhd]; simpl.
  - by repeat constructor.
  - destruct (comp x y) eqn:Hxy.
    + constructor; [by constructor|].
      constructor. by apply comp_asym.
    + constructor; [done|]. by apply sort_insert_hd.
Qed.

Lemma std_sort_acc_sorted l acc :
  Sorted (not_after comp) acc ->
  Sorted (not_after comp) (fold_left (fun a x => sort_insert comp x a) l acc).
Proof.
  revert acc. induction l as [|x l IH]; intros acc Hacc; simpl; [done|].
  by apply IH, sort_insert_sorted.
Qed.

Lemma std_sort_sorted l : Sorted (not_after comp) (std_sort comp l).
Proof. apply std_sort_acc_sorted. constructor. Qed.
End StdSortFacts.

(** ** Trees: the directory-aware order (C8) *)

Lemma ltb_asym s1 s2 : String.ltb s1 s2 = true -> String.ltb s2 s1 = false.
Proof.
  unfold String.ltb. rewrite (String.compare_antisym s1 s2).
  by destruct (String.compare s2 s1).
Qed.

Lemma ltb_false_leb s1 s2 : String.ltb s2 s1 = false <-> String.leb s1 s2 = true.
Proof.
  unfold String.ltb, String.leb. rewrite (String.compare_antisym s1 s2).
  destruct (String.compare s2 s1); simpl; split; congruence.
Qed.

Lemma Sorted_iff {A} (R1 R2 : A -> A -> Prop) l :
  (forall a b, R1 a b -> R2 a b) -> Sorted R1 l -> Sorted R2 l.
Proof.
  intros HR. induction 1 as [|x l Hl IH Hhd]; constructor; [done|].
  destruct Hhd; constructor; auto.
Qed.


Lemma tree_order_trans : Transitive tree_order.
Proof.
  intros a b c Hab Hbc. unfold tree_order in *.
  apply Is_true_true. apply Is_true_true in Hab, Hbc.
  exact (transitivity (R := String.le) Hab Hbc).
Qed.

Lemma sort_entries_sorted tr : tree_sorted (Tree.sort_entries tr).
Proof.
  unfold tree_sorted, Tree.sort_entries; simpl.
  apply (@Sorted_StronglySorted _ tree_order tree_order_trans).
  eapply Sorted_iff; [|apply std_sort_sorted].
  - intros a b. unfold not_after. apply ltb_false_leb.
  - intros x y. apply ltb_asym.
Qed.

Lemma sort_entries_perm tr :
  Tree.entries (Tree.sort_entries tr) ≡ₚ Tree.entries tr.
Proof. apply std_sort_perm. Qed.


Lemma add_entry_keeps_sorted e tr :
  tree_sorted tr -> tree_sorted (Tree.add_entry e tr).
Proof.
  intros Htr. unfold Tree.add_entry.
  destruct (negb _); [done|apply sort_entries_sorted].
Qed.

Lemma tree_of_entries_sorted_from es tr :
  tree_sorted tr ->
  tree_sorted (fold_left (fun tr e => Tree.add_entry e tr) es tr).
Proof.
  revert tr. induction es as [|e es IH]; intros tr Htr; simpl; [done|].
  by apply IH, add_entry_keeps_sorted.
Qed.

(** C8 (as amended).  A tree built from the empty tree by [add_entry] is
    sorted by the key "name, with a slash appended for a subtree"; an
    [add_entry] that inserts (the hash has 40 characters) sorts the whole
    list, whatever it was before, and loses or invents no entry; and
    [serialize] writes the entries in the order of the list. *)
Theorem tree_entries_sorted_by_add_entry :
  forall (es : list TreeEntry) (tr : Tree.t) (e : TreeEntry),
    String.length (sha1_hash_hex e) = 40%nat ->
    tree_sorted (tree_of_entries es)
    /\ tree_sorted (Tree.add_entry e tr)
    /\ Tree.entries (Tree.add_entry e tr) ≡ₚ Tree.entries tr ++ [e]
    /\ Tree.serialize (Tree.add_entry e tr)
       = object_header "tree"
           (String.length (Tree.content_data (Tree.add_entry e tr)))
         +:+ String.concat ""
               (map TreeEntry_serialize (Tree.entries (Tree.add_entry e tr))).
Proof.
  intros es tr e Hlen. split; [|split; [|split]].
  - apply tree_of_entries_sorted_from. constructor.
  - unfold Tree.add_entry. rewrite Hlen. apply sort_entries_sorted.
  - unfold Tree.add_entry. rewrite Hlen. simpl negb. cbv iota.
    apply sort_entries_perm.
  - reflexivity.
Qed.

Lemma tree_entries_sorted_by_add_entry_witness :
  String.length (sha1_hash_hex Sample.entry_lib) = 40%nat
  /\ Tree.entries
       (Tree.add_entry Sample.entry_lib (Tree.mk [Sample.entry_lib_c; Sample.entry_a]))
     = [Sample.entry_a; Sample.entry_lib_c; Sample.entry_lib]
  /\ tree_sorted
       (Tree.add_entry Sample.entry_lib (Tree.mk [Sample.entry_lib_c; Sample.entry_a])).
Proof.
  split; [reflexivity|]. split; [vm_compute; reflexivity|].
  exact (proj1 (proj2 (tree_entries_sorted_by_add_entry
                         [Sample.entry_b; Sample.entry_a]
                         (Tree.mk [Sample.entry_lib_c; Sample.entry_a])
                         Sample.entry_lib eq_refl))).
Defined.

(** C8, counterexample: [deserialize] keeps the order of the stored bytes,
    so a tree read from a body that lists [b] before [a] is a [Tree] whose
    entries are not sorted. *)
Lemma tree_deserialize_keeps_unsorted_order :
  Tree.deserialize Sample.unsorted_tree_body
    = Some (Tree.mk [Sample.entry_b; Sample.entry_a])
  /\ ~ tree_sorted (Tree.mk [Sample.entry_b; Sample.entry_a]).
Proof.
  split; [vm_compute; reflexivity|].
  intros H. unfold tree_sorted in H. simpl in H.
  apply StronglySorted_inv in H as [_ H].
  apply Forall_cons in H as [H _]. vm_compute in H. discriminate.
Qed.

(** ** Facts on strings *)

Lemma app_cons c (s1 s2 : string) : String c s1 +:+ s2 = String c (s1 +:+ s2).
Proof. reflexivity. Qed.

Lemma app_nil_l_s (s : string) : "" +:+ s = s.
Proof. reflexivity. Qed.

Ltac str_simpl := rewrite ?app_cons, ?app_nil_l_s; simpl.

Lemma app_assoc_s (s1 s2 s3 : string) : (s1 +:+ s2) +:+ s3 = s1 +:+ (s2 +:+ s3).
Proof. induction s1 as [|c s1 IH]; str_simpl; [done|]. by f_equal. Qed.

Lemma app_nil_r_s (s : string) : s +:+ "" = s.
Proof. induction s as [|c s IH]; str_simpl; [done|]. by f_equal. Qed.

Lemma length_app_s (s1 s2 : string) :
  String.length (s1 +:+ s2) = (String.length s1 + String.length s2)%nat.
Proof. induction s1 as [|c s1 IH]; str_simpl; [done|]. by f_equal. Qed.

Lemma contains_app c (s1 s2 : string) :
  Str.contains c (s1 +:+ s2) = Str.contains c s1 || Str.contains c s2.
Proof.
  induction s1 as [|a s1 IH]; str_simpl; [done|].
  rewrite IH. by rewrite orb_assoc.
Qed.

Lemma all_of_app p (s1 s2 : string) :
  Str.all_of p (s1 +:+ s2) = Str.all_of p s1 && Str.all_of p s2.
Proof.
  induction s1 as [|a s1 IH]; str_simpl; [done|].
  rewrite IH. by rewrite andb_assoc.
Qed.

Lemma find_app c (a b : string) :
  Str.contains c a = false ->
  Str.find c (a +:+ String c b) = Some (String.length a).
Proof.
  induction a as [|x a IH]; str_simpl.
  - intros _. by rewrite Ascii.eqb_refl.
  - intros H. apply orb_false_iff in H as [Hx Ha].
    rewrite Hx, (IH Ha). done.
Qed.

Lemma find_none c (s : string) :
  Str.contains c s = false -> Str.find c s = None.
Proof.
  induction s as [|x s IH]; simpl; [done|].
  intros H. apply orb_false_iff in H as [Hx Hs].
  by rewrite Hx, (IH Hs).
Qed.

Lemma take_0 (s : string) : Str.take 0 s = "".
Proof. by destruct s. Qed.

Lemma drop_0 (s : string) : Str.drop 0 s = s.
Proof. by destruct s. Qed.

Lemma take_app (a b : string) : Str.take (String.length a) (a +:+ b) = a.
Proof.
  induction a as [|x a IH]; str_simpl; [by destruct b|]. by rewrite IH.
Qed.

Lemma drop_app (a b : string) : Str.drop (String.length a) (a +:+ b) = b.
Proof. induction a as [|x a IH]; str_simpl; [by destruct b|]. done. Qed.

Lemma take_app_n n (a b : string) :
  n = String.length a -> Str.take n (a +:+ b) = a.
Proof. intros ->. apply take_app. Qed.

Lemma drop_app_n n (a b : string) :
  n = String.length a -> Str.drop n (a +:+ b) = b.
Proof. intros ->. apply drop_app. Qed.

Lemma drop_S_app c (a b : string) :
  Str.drop (S (String.length a)) (a +:+ String c b) = b.
Proof. induction a as [|x a IH]; str_simpl; [by destruct b|]. done. Qed.

Lemma back_app_char (a : string) c : Str.back (a +:+ String c "") = Some c.
Proof.
  induction a as [|x a IH]; str_simpl; [done|].
  destruct (a +:+ String c "") eqn:E; [by destruct a|]. done.
Qed.

Lemma pop_back_app_char (a : string) c : Str.pop_back (a +:+ String c "") = a.
Proof.
  induction a as [|x a IH]; str_simpl; [done|].
  destruct (a +:+ String c "") eqn:E; [by destruct a|]. by rewrite IH.
Qed.

Lemma back_cons c (s : string) : s <> "" -> Str.back (String c s) = Str.back s.
Proof. by destruct s. Qed.

(** *** Lines *)

Lemma getlines_nonempty (s : string) : s <> "" -> Str.getlines s <> [].
Proof.
  destruct s as [|c s]; [done|]. intros _. simpl.
  destruct (Ascii.eqb c Str.nl); [done|]. by destruct (Str.getlines s).
Qed.

Lemma getlines_app (a b : string) :
  Str.contains Str.nl a = false ->
  Str.getlines (a +:+ String Str.nl b) = a :: Str.getlines b.
Proof.
  induction a as [|x a IH]; str_simpl.
  - intros _. done.
  - intros H. apply orb_false_iff in H as [Hx Ha].
    rewrite Hx, (IH Ha). done.
Qed.

Lemma concat_cons_char c l ls :
  String.concat (Str.of_char Str.nl) (String c l :: ls)
  = String c (String.concat (Str.of_char Str.nl) (l :: ls)).
Proof. destruct ls; done. Qed.

Lemma getlines_concat (m : string) :
  Str.back m <> Some Str.nl ->
  String.concat (Str.of_char Str.nl) (Str.getlines m) = m.
Proof.
  induction m as [|c m IH]; [done|].
  intros Hback. simpl Str.getlines.
  destruct (Ascii.eqb_spec c Str.nl) as [->|Hc].
  - destruct m as [|c' m']; [done|].
    rewrite back_cons in Hback by done.
    specialize (IH Hback).
    pose proof (getlines_nonempty (String c' m') ltac:(done)) as Hne.
    destruct (Str.getlines (String c' m')) as [|l ls]; [done|].
    change (String.concat (Str.of_char Str.nl) ("" :: l :: ls))
      with (String Str.nl (String.concat (Str.of_char Str.nl) (l :: ls))).
    by rewrite IH.
  - destruct m as [|c' m']; [done|].
    rewrite back_cons in Hback by done.
    specialize (IH Hback).
    pose proof (getlines_nonempty (String c' m') ltac:(done)) as Hne.
    destruct (Str.getlines (String c' m')) as [|l ls]; [done|].
    rewrite concat_cons_char. by rewrite IH.
Qed.

(** *** Numbers *)

Lemma string_of_uint_digits d :
  Str.all_of Str.isdigit (NilEmpty.string_of_uint d) = true.
Proof. induction d; simpl; try done; by rewrite IHd. Qed.

Lemma of_N_digits n : Str.all_of Str.isdigit (Str.of_N n) = true.
Proof. apply string_of_uint_digits. Qed.

Lemma of_N_nonempty n : Str.of_N n <> "".
Proof.
  unfold Str.of_N. destruct n as [|p]; [done|].
  simpl. pose proof (DecimalPos.Unsigned.to_uint_nonnil p) as H.
  by destruct (Pos.to_uint p).
Qed.

Lemma digits_value_of_N n : Str.digits_value (Str.of_N n) = Some n.
Proof.
  unfold Str.digits_value. pose proof (of_N_nonempty n) as Hne.
  destruct (Str.of_N n) eqn:E; [done|]. rewrite <- E.
  unfold Str.of_N. rewrite NilEmpty.usu. simpl.
  by rewrite DecimalN.Unsigned.of_to.
Qed.


Lemma span_all p (a b : string) :
  Str.all_of p a = true ->
  match b with String c _ => p c | EmptyString => false end = false ->
  Str.span p (a +:+ b) = (a, b).
Proof.
  intros Ha Hb. induction a as [|x a IH]; str_simpl.
  - destruct b as [|c b]; [done|]. simpl in *. by rewrite Hb.
  - simpl in Ha. apply andb_true_iff in Ha as [Hx Ha].
    rewrite Hx, (IH Ha). done.
Qed.

Lemma scan_integer_of_Z z (r : string) :
  starts_with_digit r = false ->
  Str.scan_integer (Str.of_Z z +:+ r) = Some (z, r).
Proof.
  intros Hr. unfold Str.scan_integer, Str.of_Z.
  destruct (Z.ltb_spec z 0) as [Hneg|Hpos].
  - rewrite app_cons. simpl.
    rewrite (span_all _ _ _ (of_N_digits _) Hr).
    rewrite digits_value_of_N. f_equal. f_equal. lia.
  - pose proof (of_N_digits (Z.to_N z)) as Hd.
    pose proof (of_N_nonempty (Z.to_N z)) as Hne.
    destruct (Str.of_N (Z.to_N z)) as [|c s] eqn:E; [done|].
    rewrite app_cons. simpl in Hd. apply andb_true_iff in Hd as [Hc Hs].
    assert (Ascii.eqb c "-" = false) as ->.
    { apply Ascii.eqb_neq. intros ->. done. }
    assert (Ascii.eqb c "+" = false) as ->.
    { apply Ascii.eqb_neq. intros ->. done. }
    rewrite <- app_cons.
    rewrite (span_all Str.isdigit (String c s) r).
    + rewrite <- E, digits_value_of_N. f_equal. f_equal. lia.
    + simpl. by rewrite Hc, Hs.
    + done.
Qed.

(** ** Round trips of the three object kinds (C4) *)

Lemma blob_roundtrip (b : Blob.t) :
  Blob.deserialize (Blob.content b) = Some b.
Proof. by destruct b. Qed.


Lemma deserialize_loop_step fuel (raw : string) acc :
  raw <> "" ->
  Tree.deserialize_loop (S fuel) raw acc
  = match Str.find Str.sp raw with
    | None => None
    | Some i =>
        match Str.find Str.nul (Str.drop (S i) raw) with
        | None => None
        | Some j =>
            if (String.length (Str.drop (S j) (Str.drop (S i) raw)) <? 40)%nat
            then None
            else Tree.deserialize_loop fuel
                   (Str.drop 40 (Str.drop (S j) (Str.drop (S i) raw)))
                   (acc ++ [mkTreeEntry (Str.take i raw)
                              (Str.take j (Str.drop (S i) raw))
                              (Str.take 40 (Str.drop (S j) (Str.drop (S i) raw)))])
        end
    end.
Proof. by destruct raw. Qed.

Lemma entry_serialize_parse e (rest : string) fuel acc :
  entry_wf e ->
  Tree.deserialize_loop (S fuel) (TreeEntry_serialize e +:+ rest) acc
  = Tree.deserialize_loop fuel rest (acc ++ [e]).
Proof.
  intros (Hm & Hn & Hh). destruct e as [m n h].
  unfold TreeEntry_serialize; cbn [mode name sha1_hash_hex] in *.
  rewrite !app_assoc_s.
  change (" " +:+ n +:+ Str.of_char Str.nul +:+ h +:+ rest)
    with (String Str.sp (n +:+ String Str.nul (h +:+ rest))).
  rewrite deserialize_loop_step by (by destruct m).
  rewrite (find_app _ _ _ Hm), take_app, drop_S_app.
  rewrite (find_app _ _ _ Hn), take_app, drop_S_app.
  rewrite length_app_s, Hh.
  replace (40 + String.length rest <? 40)%nat with false
    by (symmetry; apply Nat.ltb_ge; lia).
  rewrite (take_app_n 40 h rest), (drop_app_n 40 h rest) by done.
  done.
Qed.

Lemma entries_serialize_parse es : forall fuel acc,
  Forall entry_wf es ->
  (length es <= fuel)%nat ->
  Tree.deserialize_loop fuel
    (String.concat "" (map TreeEntry_serialize es)) acc = Some (acc ++ es).
Proof.
  induction es as [|e es IH]; intros fuel acc Hwf Hfuel.
  - simpl. destruct fuel; by rewrite app_nil_r.
  - apply Forall_cons in Hwf as [He Hes].
    destruct fuel as [|fuel]; [simpl in Hfuel; lia|].
    assert (String.concat "" (map TreeEntry_serialize (e :: es))
            = TreeEntry_serialize e
              +:+ String.concat "" (map TreeEntry_serialize es)) as ->.
    { simpl. destruct (map TreeEntry_serialize es) eqn:E; [|done].
      simpl. by rewrite app_nil_r_s. }
    rewrite entry_serialize_parse by done.
    rewrite IH by (done || simpl in Hfuel; lia).
    by rewrite <- app_assoc.
Qed.

Lemma entry_serialize_length e :
  (1 <= String.length (TreeEntry_serialize e))%nat.
Proof.
  unfold TreeEntry_serialize. rewrite !length_app_s. simpl. lia.
Qed.

Lemma entries_serialize_length es :
  (length es <= String.length (String.concat "" (map TreeEntry_serialize es)))%nat.
Proof.
  induction es as [|e es IH]; [simpl; lia|].
  assert (String.concat "" (map TreeEntry_serialize (e :: es))
          = TreeEntry_serialize e
            +:+ String.concat "" (map TreeEntry_serialize es)) as ->.
  { simpl. destruct (map TreeEntry_serialize es) eqn:E; [|done].
    simpl. by rewrite app_nil_r_s. }
  rewrite length_app_s. pose proof (entry_serialize_length e). simpl. lia.
Qed.

Lemma tree_roundtrip (tr : Tree.t) :
  Forall entry_wf (Tree.entries tr) ->
  Tree.deserialize (Tree.content_data tr) = Some tr.
Proof.
  intros Hwf. destruct tr as [es]. unfold Tree.deserialize, Tree.content_data.
  simpl in *. rewrite entries_serialize_parse; [done|done|].
  apply entries_serialize_length.
Qed.

(** *** Persons *)


Lemma skipws_id (s : string) :
  match s with String c _ => Str.isspace c | EmptyString => false end = false ->
  Str.skipws s = s.
Proof. destruct s as [|c s]; [done|]. simpl. by intros ->. Qed.

Lemma of_Z_head z (r : string) :
  match Str.of_Z z +:+ r with
  | String c _ => Str.isspace c
  | EmptyString => false
  end = false.
Proof.
  unfold Str.of_Z. destruct (z <? 0); [done|].
  pose proof (of_N_digits (Z.to_N z)) as Hd.
  pose proof (of_N_nonempty (Z.to_N z)) as Hne.
  destruct (Str.of_N (Z.to_N z)) as [|c s]; [done|].
  rewrite app_cons. simpl in Hd. apply andb_true_iff in Hd as [Hc _].
  unfold Str.isdigit, Str.isspace in *.
  destruct (N_of_ascii c) as [|p]; [done|].
  apply andb_true_iff in Hc as [H1 H2].
  apply N.leb_le in H1, H2.
  apply orb_false_iff. split.
  - apply N.eqb_neq. lia.
  - apply andb_false_iff. right. apply N.leb_gt. lia.
Qed.

Lemma extract_ll_of_Z z (r : string) :
  Str.LLONG_MIN <= z <= Str.LLONG_MAX ->
  starts_with_digit r = false ->
  Str.extract_ll (String Str.sp (Str.of_Z z +:+ r)) = Some (z, r).
Proof.
  intros Hz Hr. unfold Str.extract_ll.
  change (Str.skipws (String Str.sp (Str.of_Z z +:+ r)))
    with (Str.skipws (Str.of_Z z +:+ r)).
  rewrite skipws_id by apply of_Z_head.
  rewrite scan_integer_of_Z by done.
  destruct (Z.leb_spec Str.LLONG_MIN z); [|lia].
  destruct (Z.leb_spec z Str.LLONG_MAX); [|lia]. done.
Qed.

Lemma extract_word_one (w : string) :
  w <> "" -> no_space w = true ->
  Str.extract_word (String Str.sp w) = Some (w, "").
Proof.
  intros Hne Hw. unfold Str.extract_word.
  change (Str.skipws (String Str.sp w)) with (Str.skipws w).
  rewrite skipws_id.
  - pose proof (span_all (fun c => negb (Str.isspace c)) w "" Hw eq_refl) as H.
    rewrite app_nil_r_s in H. rewrite H. by destruct w.
  - destruct w as [|c w]; [done|]. unfold no_space in Hw. simpl in Hw.
    apply andb_true_iff in Hw as [Hc _]. by apply negb_true_iff.
Qed.

Lemma format_for_commit_shape p :
  PersonTimestamp.format_for_commit p
  = (PersonTimestamp.name p +:+ " ")
    +:+ String "<" (PersonTimestamp.email p
    +:+ String ">" (String Str.sp (Str.of_Z (to_time_t (PersonTimestamp.timestamp p))
    +:+ String Str.sp (PersonTimestamp.timezone_offset p)))).
Proof.
  unfold PersonTimestamp.format_for_commit. by rewrite !app_assoc_s.
Qed.

Lemma person_roundtrip p :
  person_wf p ->
  PersonTimestamp.parse_from_line_content (PersonTimestamp.format_for_commit p)
  = Some p.
Proof.
  intros (Hne & Hlt & Hgt & Hegt & Htzne & Htz & Hts & Hrange).
  rewrite format_for_commit_shape. destruct p as [n e ts tz].
  cbn [PersonTimestamp.name PersonTimestamp.email PersonTimestamp.timestamp
       PersonTimestamp.timezone_offset] in *.
  unfold PersonTimestamp.parse_from_line_content.
  set (tail := String Str.sp (Str.of_Z (to_time_t ts) +:+ String Str.sp tz)).
  rewrite (find_app "<" (n +:+ " ") (e +:+ String ">" tail)).
  2: { rewrite contains_app, Hlt. done. }
  assert ((n +:+ " ") +:+ String "<" (e +:+ String ">" tail)
          = ((n +:+ " ") +:+ String "<" e) +:+ String ">" tail) as Hshape.
  { by rewrite !app_assoc_s. }
  rewrite Hshape at 1.
  rewrite (find_app ">" ((n +:+ " ") +:+ String "<" e) tail).
  2: { rewrite !contains_app, Hgt. simpl. by rewrite Hegt. }
  rewrite !length_app_s. cbn [String.length].
  replace (String.length n + 1 + S (String.length e) <? String.length n + 1)%nat
    with false by (symmetry; apply Nat.ltb_ge; lia).
  unfold Str.substr, Str.substr_from. rewrite drop_0.
  rewrite (take_app_n (String.length n + 1) (n +:+ " ")
             (String "<" (e +:+ String ">" tail)))
    by (rewrite length_app_s; simpl; lia).
  rewrite back_app_char, pop_back_app_char. simpl Ascii.eqb. cbv iota.
  destruct (String.eqb_spec n ""); [done|].
  replace (String.length n + 1 + 1)%nat
    with (S (String.length (n +:+ " "))) by (rewrite length_app_s; simpl; lia).
  rewrite drop_S_app.
  rewrite (take_app_n _ e (String ">" tail)) by lia.
  rewrite Hshape.
  replace (String.length n + 1 + S (String.length e) + 1)%nat
    with (S (String.length ((n +:+ " ") +:+ String "<" e)))
    by (rewrite !length_app_s; simpl; lia).
  rewrite drop_S_app. unfold tail.
  rewrite extract_ll_of_Z by done.
  rewrite extract_word_one by done.
  by rewrite Hts.
Qed.

(** *** Commits *)


Lemma concat_empty_cons (x : string) xs :
  String.concat "" (x :: xs) = x +:+ String.concat "" xs.
Proof. destruct xs; simpl; [by rewrite app_nil_r_s|done]. Qed.

Lemma getlines_line (a rest : string) :
  Str.contains Str.nl a = false ->
  Str.getlines (a +:+ Str.of_char Str.nl +:+ rest) = a :: Str.getlines rest.
Proof. intros Ha. by apply getlines_app. Qed.

Lemma of_N_no_nl n : Str.contains Str.nl (Str.of_N n) = false.
Proof.
  unfold Str.of_N. induction (N.to_uint n); simpl; try done.
Qed.

Lemma of_Z_no_nl z : Str.contains Str.nl (Str.of_Z z) = false.
Proof.
  unfold Str.of_Z. destruct (z <? 0); simpl; apply of_N_no_nl.
Qed.

Lemma no_space_no_nl (s : string) :
  no_space s = true -> Str.contains Str.nl s = false.
Proof.
  induction s as [|c s IH]; simpl; [done|].
  intros H. apply andb_true_iff in H as [Hc Hs].
  rewrite (IH Hs), orb_false_r.
  apply Ascii.eqb_neq. intros ->. done.
Qed.

Lemma format_for_commit_no_nl p :
  person_wf p -> person_one_line p ->
  Str.contains Str.nl (PersonTimestamp.format_for_commit p) = false.
Proof.
  intros (_ & _ & _ & _ & _ & Htz & _) [Hn He].
  unfold PersonTimestamp.format_for_commit.
  rewrite !contains_app, Hn, He, of_Z_no_nl, (no_space_no_nl _ Htz). done.
Qed.


Lemma getlines_parents ps (rest : string) :
  Forall hash_line_wf ps ->
  Str.getlines
    (String.concat ""
       (map (fun parent_hex => "parent " +:+ parent_hex +:+ Str.of_char Str.nl) ps)
     +:+ rest)
  = map parent_line ps ++ Str.getlines rest.
Proof.
  induction 1 as [|p ps [_ Hp] _ IH]; [done|].
  cbn [map]. rewrite concat_empty_cons, !app_assoc_s.
  rewrite <- (app_assoc_s "parent " p).
  rewrite getlines_line by (rewrite contains_app, Hp; done).
  by rewrite IH.
Qed.

Lemma getlines_content c :
  commit_wf c ->
  Str.getlines (Commit.content_str c)
  = ("tree " +:+ Commit.tree_hash_hex c)
    :: map parent_line (Commit.parent_hashes_hex c)
    ++ ("author " +:+ PersonTimestamp.format_for_commit (Commit.author c))
    :: ("committer " +:+ PersonTimestamp.format_for_commit (Commit.committer c))
    :: "" :: Str.getlines (Commit.message c).
Proof.
  intros ([_ Ht] & Hps & Ha & Ha1 & Hc & Hc1 & _).
  unfold Commit.content_str. rewrite ?app_assoc_s.
  rewrite <- (app_assoc_s "tree ").
  rewrite getlines_line by (rewrite contains_app, Ht; done).
  f_equal. rewrite getlines_parents by done. f_equal.
  rewrite <- (app_assoc_s "author ").
  rewrite getlines_line
    by (rewrite contains_app, format_for_commit_no_nl; done).
  f_equal.
  rewrite <- (app_assoc_s "committer ").
  rewrite getlines_line
    by (rewrite contains_app, format_for_commit_no_nl; done).
  done.
Qed.

Lemma parse_tree_line (h : string) ps a cm m :
  String.length h = 40%nat ->
  Commit.parse_metadata_line ("tree " +:+ h) (Commit.mk "" ps a cm m)
  = Some (Commit.mk h ps a cm m).
Proof.
  intros Hh. unfold Commit.parse_metadata_line.
  change ("tree " +:+ h) with ("tree" +:+ String Str.sp h).
  rewrite find_app by done.
  unfold Str.substr, Str.substr_from. rewrite drop_0, take_app.
  change (String.length "tree" + 1)%nat with (S (String.length "tree")).
  rewrite drop_S_app. cbn [Commit.tree_hash_hex]. simpl String.eqb.
  cbv iota. rewrite Hh. done.
Qed.

Lemma parse_parent_line (p : string) c :
  String.length p = 40%nat ->
  Commit.parse_metadata_line (parent_line p) c
  = Some (Commit.mk (Commit.tree_hash_hex c) (Commit.parent_hashes_hex c ++ [p])
            (Commit.author c) (Commit.committer c) (Commit.message c)).
Proof.
  intros Hh. unfold Commit.parse_metadata_line, parent_line.
  change ("parent " +:+ p) with ("parent" +:+ String Str.sp p).
  rewrite find_app by done.
  unfold Str.substr, Str.substr_from. rewrite drop_0, take_app.
  change (String.length "parent" + 1)%nat with (S (String.length "parent")).
  rewrite drop_S_app. simpl String.eqb. cbv iota. rewrite Hh. done.
Qed.

Lemma parse_author_line p c :
  person_wf p ->
  Commit.parse_metadata_line
    ("author " +:+ PersonTimestamp.format_for_commit p) c
  = Some (Commit.mk (Commit.tree_hash_hex c) (Commit.parent_hashes_hex c) p
            (Commit.committer c) (Commit.message c)).
Proof.
  intros Hp. unfold Commit.parse_metadata_line.
  change ("author " +:+ PersonTimestamp.format_for_commit p)
    with ("author" +:+ String Str.sp (PersonTimestamp.format_for_commit p)).
  rewrite find_app by done.
  unfold Str.substr, Str.substr_from. rewrite drop_0, take_app.
  change (String.length "author" + 1)%nat with (S (String.length "author")).
  rewrite drop_S_app. simpl String.eqb. cbv iota.
  by rewrite person_roundtrip.
Qed.

Lemma parse_committer_line p c :
  person_wf p ->
  Commit.parse_metadata_line
    ("committer " +:+ PersonTimestamp.format_for_commit p) c
  = Some (Commit.mk (Commit.tree_hash_hex c) (Commit.parent_hashes_hex c)
            (Commit.author c) p (Commit.message c)).
Proof.
  intros Hp. unfold Commit.parse_metadata_line.
  change ("committer " +:+ PersonTimestamp.format_for_commit p)
    with ("committer" +:+ String Str.sp (PersonTimestamp.format_for_commit p)).
  rewrite find_app by done.
  unfold Str.substr, Str.substr_from. rewrite drop_0, take_app.
  change (String.length "committer" + 1)%nat
    with (S (String.length "committer")).
  rewrite drop_S_app. simpl String.eqb. cbv iota.
  by rewrite person_roundtrip.
Qed.

Lemma deserialize_parent_lines ps : forall h qs a cm m rest,
  Forall hash_line_wf ps ->
  Commit.deserialize_lines (map parent_line ps ++ rest)
    (Commit.mk h qs a cm m) true []
  = Commit.deserialize_lines rest (Commit.mk h (qs ++ ps) a cm m) true [].
Proof.
  induction ps as [|p ps IH]; intros h qs a cm m rest Hps.
  - by rewrite app_nil_r.
  - apply Forall_cons in Hps as [[Hp _] Hps].
    cbn [map app Commit.deserialize_lines].
    assert (String.eqb (parent_line p) "" = false) as -> by done.
    rewrite parse_parent_line by done.
    cbn [Commit.tree_hash_hex Commit.parent_hashes_hex Commit.author
         Commit.committer Commit.message].
    rewrite IH by done. by rewrite <- app_assoc.
Qed.

Lemma deserialize_message_lines ls : forall c acc,
  Commit.deserialize_lines ls c false acc = Some (c, acc ++ ls).
Proof.
  induction ls as [|l ls IH]; intros c acc; simpl.
  - by rewrite app_nil_r.
  - rewrite IH. by rewrite <- app_assoc.
Qed.

Lemma commit_roundtrip c :
  commit_wf c -> Commit.deserialize (Commit.content_str c) = Some c.
Proof.
  intros Hwf. unfold Commit.deserialize. rewrite getlines_content by done.
  destruct Hwf as ([Ht _] & Hps & Ha & _ & Hc & _ & Hm).
  destruct c as [h ps a cm m].
  cbn [Commit.tree_hash_hex Commit.parent_hashes_hex Commit.author
       Commit.committer Commit.message] in *.
  unfold Commit.default.
  cbn [Commit.deserialize_lines].
  assert (String.eqb ("tree " +:+ h) "" = false) as -> by done.
  rewrite parse_tree_line by done.
  rewrite deserialize_parent_lines by done.
  cbn [app Commit.deserialize_lines].
  assert (String.eqb ("author " +:+ PersonTimestamp.format_for_commit a) ""
          = false) as -> by done.
  rewrite parse_author_line by done.
  assert (String.eqb ("committer " +:+ PersonTimestamp.format_for_commit cm) ""
          = false) as -> by done.
  rewrite parse_committer_line by done.
  cbn [Commit.tree_hash_hex Commit.parent_hashes_hex Commit.author
       Commit.committer Commit.message].
  simpl String.eqb at 1. cbv iota.
  rewrite deserialize_message_lines.
  cbn [Commit.tree_hash_hex Commit.parent_hashes_hex Commit.author
       Commit.committer Commit.message app].
  rewrite getlines_concat by done.
  destruct (String.eqb_spec h "") as [->|_]; [done|].
  destruct Ha as (Han & _), Hc as (Hcn & _).
  destruct (String.eqb_spec (PersonTimestamp.name a) ""); [done|].
  destruct (String.eqb_spec (PersonTimestamp.name cm) ""); [done|].
  done.
Qed.

(** C4 (as amended).  For every blob, for every tree whose entries have a
    mode without space, a name without NUL and a hash of 40 characters, and
    for every commit whose hashes have 40 characters, whose persons fit
    their line (a non-empty name without angle bracket, an e-mail without
    closing bracket, a time in whole seconds, a time zone of one word) and
    whose message does not end with a newline: the serialized form is the
    header followed by a body, and deserializing that body gives the object
    back. *)
Theorem serialize_deserialize_roundtrip :
  forall (b : Blob.t) (tr : Tree.t) (c : Commit.t),
    Forall entry_wf (Tree.entries tr) ->
    commit_wf c ->
    (Blob.serialize b
       = object_header "blob" (String.length (Blob.content b)) +:+ Blob.content b
     /\ Blob.deserialize (Blob.content b) = Some b)
    /\ (Tree.serialize tr
          = object_header "tree" (String.length (Tree.content_data tr))
            +:+ Tree.content_data tr
        /\ Tree.deserialize (Tree.content_data tr) = Some tr)
    /\ (Commit.serialize c
          = object_header "commit" (String.length (Commit.content_str c))
            +:+ Commit.content_str c
        /\ Commit.deserialize (Commit.content_str c) = Some c).
Proof.
  intros b tr c Htr Hc. repeat split.
  - apply blob_roundtrip.
  - by apply tree_roundtrip.
  - by apply commit_roundtrip.
Qed.

Lemma sample_person_wf : person_wf (SampleCommit.alice 1700000000000000000).
Proof. repeat split; try done; vm_compute; congruence. Qed.

Lemma sample_commit_wf : commit_wf SampleCommit.stored.
Proof.
  unfold commit_wf. split; [by split|]. split; [constructor|].
  split; [apply sample_person_wf|]. split; [by split|].
  split; [apply sample_person_wf|]. split; [by split|]. done.
Qed.

Lemma sample_tree_wf : Forall entry_wf (Tree.entries SampleCommit.sorted_tree).
Proof. repeat constructor. Qed.

Lemma serialize_deserialize_roundtrip_witness :
  Forall entry_wf (Tree.entries SampleCommit.sorted_tree)
  /\ commit_wf SampleCommit.stored
  /\ Blob.deserialize (Blob.content Sample.hello_blob) = Some Sample.hello_blob
  /\ Tree.deserialize (Tree.content_data SampleCommit.sorted_tree)
     = Some SampleCommit.sorted_tree
  /\ Commit.deserialize (Commit.content_str SampleCommit.stored)
     = Some SampleCommit.stored.
Proof.
  pose proof (serialize_deserialize_roundtrip Sample.hello_blob
                SampleCommit.sorted_tree SampleCommit.stored
                sample_tree_wf sample_commit_wf) as H.
  split; [exact sample_tree_wf|]. split; [exact sample_commit_wf|].
  split; [exact (proj2 (proj1 H))|].
  split; [exact (proj2 (proj1 (proj2 H)))|exact (proj2 (proj2 (proj2 H)))].
Defined.

(** C4, counterexample: the commit that [Repository::commit] builds carries
    the time of the clock; its serialized form keeps the seconds only, so
    what is read back is another commit. *)
Lemma commit_roundtrip_truncates_time :
  Commit.deserialize (Commit.content_str SampleCommit.fresh)
    = Some SampleCommit.stored
  /\ SampleCommit.stored <> SampleCommit.fresh.
Proof. split; [vm_compute; reflexivity|discriminate]. Qed.

(** The message is split into lines and joined again: a newline that ends
    the message is not read back. *)
Lemma commit_roundtrip_drops_final_newline :
  Commit.deserialize (Commit.content_str SampleCommit.with_newline)
    = Some SampleCommit.stored
  /\ Commit.message SampleCommit.with_newline = "c1" +:+ Str.of_char Str.nl
  /\ Commit.message SampleCommit.stored = "c1".
Proof. repeat split; vm_compute; reflexivity. Qed.

(** ** The index: loading (C7) *)

Lemma load_lines_unparsable lines : forall acc line,
  line ∈ lines -> Str.blank line = false -> parse_from_line line = None ->
  Index.load_lines lines acc = None.
Proof.
  induction lines as [|l lines IH]; intros acc line Hin Hb Hp.
  - by apply elem_of_nil in Hin.
  - simpl. apply elem_of_cons in Hin as [<-|Hin].
    + by rewrite Hb, Hp.
    + destruct (Str.blank l); [by eapply IH|].
      destruct (parse_from_line l); [by eapply IH|done].
Qed.

Lemma load_lines_skips_blank lines : forall acc,
  Index.load_lines lines acc
  = Index.load_lines (List.filter (fun l => negb (Str.blank l)) lines) acc.
Proof.
  induction lines as [|l lines IH]; intros acc; [done|].
  simpl. destruct (Str.blank l) eqn:Hb; simpl; [apply IH|].
  rewrite Hb. destruct (parse_from_line l); [apply IH|done].
Qed.

Lemma load_lines_parsable lines : forall acc,
  Forall (fun l => Str.blank l = true \/ is_Some (parse_from_line l)) lines ->
  is_Some (Index.load_lines lines acc).
Proof.
  induction lines as [|l lines IH]; intros acc Hall; [by eexists|].
  apply Forall_cons in Hall as [Hl Hall]. simpl.
  destruct (Str.blank l) eqn:Hb; [by apply IH|].
  destruct Hl as [Hl|[e He]]; [congruence|].
  rewrite He. by apply IH.
Qed.

(** C7.  [Index::load]: a missing index file is a successful load of no
    entry; a line that is not blank and does not parse makes the load fail
    and leaves no entry in memory, whatever was read before it; blank lines
    and lines of white space are passed over, and a file all of whose other
    lines parse is loaded. *)
Theorem index_load_contract :
  forall (fs : files) (idx : Index.t),
    (Fs.exists_ fs Index.index_file_path_ = false ->
       Index.load fs idx = (true, Index.mk [] true))
    /\ (forall content line,
          Fs.read fs Index.index_file_path_ = Some content ->
          line ∈ Str.getlines content ->
          Str.blank line = false ->
          parse_from_line line = None ->
          Index.load fs idx = (false, Index.mk [] false))
    /\ (forall content,
          Fs.read fs Index.index_file_path_ = Some content ->
          Index.load_lines (Str.getlines content) []
          = Index.load_lines
              (List.filter (fun l => negb (Str.blank l)) (Str.getlines content)) []
          /\ (Forall (fun l => Str.blank l = true \/ is_Some (parse_from_line l))
                (Str.getlines content) ->
              fst (Index.load fs idx) = true)).
Proof.
  intros fs idx. split; [|split].
  - intros Hex. unfold Index.load. by rewrite Hex.
  - intros content line Hread Hin Hb Hp. unfold Index.load.
    assert (Fs.exists_ fs Index.index_file_path_ = true) as ->.
    { unfold Fs.exists_, Fs.read in *.
      by destruct (fs !! Index.index_file_path_). }
    rewrite Hread. simpl.
    by rewrite (load_lines_unparsable _ _ _ Hin Hb Hp).
  - intros content Hread. split; [apply load_lines_skips_blank|].
    intros Hall. unfold Index.load.
    assert (Fs.exists_ fs Index.index_file_path_ = true) as ->.
    { unfold Fs.exists_, Fs.read in *.
      by destruct (fs !! Index.index_file_path_). }
    rewrite Hread. simpl.
    destruct (load_lines_parsable _ [] Hall) as [es ->]. done.
Qed.

Lemma index_load_contract_witness :
  Index.load SampleIndex.without_index Index.new = (true, Index.mk [] true)
  /\ Index.load (SampleIndex.with_index SampleIndex.bad_file) Index.new
     = (false, Index.mk [] false)
  /\ Index.load (SampleIndex.with_index SampleIndex.good_file) Index.new
     = (true, Index.mk [SampleIndex.entry_a] true).
Proof.
  split; [|split].
  - apply (proj1 (index_load_contract SampleIndex.without_index Index.new)).
    vm_compute. reflexivity.
  - apply (proj1 (proj2 (index_load_contract
                           (SampleIndex.with_index SampleIndex.bad_file)
                           Index.new))
             SampleIndex.bad_file SampleIndex.bad_line).
    + vm_compute. reflexivity.
    + apply list_elem_of_In. vm_compute. right. left. reflexivity.
    + vm_compute. reflexivity.
    + vm_compute. reflexivity.
  - vm_compute. reflexivity.
Defined.

(** ** Tokens (C9) *)

Lemma getline_delim_found d (a b : string) :
  Str.contains d a = false ->
  Str.getline_delim d (a +:+ String d b) = Some (a, b).
Proof.
  induction a as [|x a IH]; str_simpl.
  - intros _. by rewrite Ascii.eqb_refl.
  - intros H. apply orb_false_iff in H as [Hx Ha].
    by rewrite Hx, (IH Ha).
Qed.

Lemma getline_delim_all d (a : string) :
  a <> "" -> Str.contains d a = false ->
  Str.getline_delim d a = Some (a, "").
Proof.
  induction a as [|x a IH]; [done|]. intros _ H. simpl in *.
  apply orb_false_iff in H as [Hx Ha]. rewrite Hx.
  destruct a as [|y a]; [done|].
  by rewrite IH.
Qed.

Lemma hex_digit_cases n :
  In (SHA1.hex_digit n)
    ["0"; "1"; "2"; "3"; "4"; "5"; "6"; "7"; "8"; "9";
     "a"; "b"; "c"; "d"; "e"; "f"]%char.
Proof.
  destruct n as [|p|p]; [simpl; tauto| |simpl; tauto].
  do 4 (destruct p as [p|p|]; try (simpl; tauto)).
Qed.

Lemma hex_digit_not c n :
  Str.isxdigit c = false -> Ascii.eqb (SHA1.hex_digit n) c = false.
Proof.
  intros Hc. apply Ascii.eqb_neq. intros <-.
  pose proof (hex_digit_cases n) as H. simpl in H.
  repeat (destruct H as [H|H]; [rewrite <- H in Hc; discriminate|]). done.
Qed.

Lemma hex8_contains c w (tail : string) :
  Str.isxdigit c = false ->
  Str.contains c (SHA1.hex8 w tail) = Str.contains c tail.
Proof.
  intros Hc. unfold SHA1.hex8. cbn [Str.contains].
  by rewrite !hex_digit_not.
Qed.

Lemma sha1_contains c data :
  Str.isxdigit c = false -> Str.contains c (SHA1.sha1 data) = false.
Proof.
  intros Hc. unfold SHA1.sha1.
  destruct (SHA1.process_data _) as [[[[h0 h1] h2] h3] h4].
  by rewrite !hex8_contains.
Qed.

Lemma sha1_length data : String.length (SHA1.sha1 data) = 40%nat.
Proof.
  unfold SHA1.sha1.
  by destruct (SHA1.process_data _) as [[[[h0 h1] h2] h3] h4].
Qed.

Lemma sha1_nonempty data : SHA1.sha1 data <> "".
Proof.
  intros H. pose proof (sha1_length data) as Hl. by rewrite H in Hl.
Qed.

Lemma of_N_contains c n :
  Str.isdigit c = false -> Str.contains c (Str.of_N n) = false.
Proof.
  intros Hc. pose proof (of_N_digits n) as Hd.
  induction (Str.of_N n) as [|x s IH]; [done|].
  simpl in *. apply andb_true_iff in Hd as [Hx Hs].
  rewrite (IH Hs), orb_false_r. apply Ascii.eqb_neq. intros ->. congruence.
Qed.

Lemma of_Z_no_colon z : Str.contains ":" (Str.of_Z z) = false.
Proof.
  unfold Str.of_Z. destruct (z <? 0); simpl; by apply of_N_contains.
Qed.

Lemma stoll_of_Z z :
  Str.LLONG_MIN <= z <= Str.LLONG_MAX -> Str.stoll (Str.of_Z z) = Some z.
Proof.
  intros Hz. unfold Str.stoll, Str.extract_ll.
  pose proof (of_Z_head z "") as Hh. rewrite app_nil_r_s in Hh.
  rewrite skipws_id by done.
  pose proof (scan_integer_of_Z z "" eq_refl) as Hs.
  rewrite app_nil_r_s in Hs. rewrite Hs.
  destruct (Z.leb_spec Str.LLONG_MIN z); [|lia].
  destruct (Z.leb_spec z Str.LLONG_MAX); [|lia]. done.
Qed.

Lemma generateToken_form tm now user ttl :
  TokenManager.m_initialized tm = true ->
  user <> "" -> Str.contains ":" user = false ->
  TokenManager.generateToken tm now user ttl
  = (user +:+ String ":" (Str.of_Z (token_expiry now ttl)
     +:+ String ":" (SHA1.sha1 (user +:+ ":" +:+ Str.of_Z (token_expiry now ttl)
                                  +:+ TokenManager.m_serverSecret tm)))).
Proof.
  intros Hinit Hne Hcolon. unfold TokenManager.generateToken.
  rewrite Hinit, Hcolon. destruct (String.eqb_spec user ""); [done|].
  cbn [negb orb]. unfold TokenManager.createSignature, token_expiry.
  by rewrite !app_assoc_s.
Qed.

(** C9.  For a manager that was initialized and a name that is not empty
    and has no colon, the token made for 3600 seconds is
    [<name>:<expiry>:<SHA1(name:expiry || secret)>] with the expiry in
    seconds; validated at a time whose second is not after the expiry it
    gives the name back, and validated later it fails. *)
Theorem token_roundtrip :
  forall (tm : TokenManager.t) (user out : string) (t0 t1 : time_point),
    TokenManager.m_initialized tm = true ->
    user <> "" ->
    Str.contains ":" user = false ->
    Str.LLONG_MIN <= token_expiry t0 3600 <= Str.LLONG_MAX ->
    let token := TokenManager.generateToken tm t0 user 3600 in
    let expiry := Str.of_Z (token_expiry t0 3600) in
    token = user +:+ ":" +:+ expiry +:+ ":"
              +:+ SHA1.sha1 (user +:+ ":" +:+ expiry
                               +:+ TokenManager.m_serverSecret tm)
    /\ (clock_seconds t1 <= token_expiry t0 3600 ->
        TokenManager.validateToken tm t1 token out = (true, user))
    /\ (token_expiry t0 3600 < clock_seconds t1 ->
        fst (TokenManager.validateToken tm t1 token out) = false).
Proof.
  intros tm user out t0 t1 Hinit Hne Hcolon Hrange token expiry.
  subst token expiry.
  rewrite generateToken_form by done.
  split; [done|].
  assert (forall now,
    TokenManager.validateToken tm now
      (user +:+ String ":" (Str.of_Z (token_expiry t0 3600)
       +:+ String ":" (SHA1.sha1 (user +:+ ":" +:+ Str.of_Z (token_expiry t0 3600)
                                    +:+ TokenManager.m_serverSecret tm)))) out
    = if token_expiry t0 3600 <? clock_seconds now then (false, "")
      else (true, user)) as Hval.
  { intros now. unfold TokenManager.validateToken. rewrite Hinit. cbn [negb].
    rewrite getline_delim_found by done.
    rewrite getline_delim_found by apply of_Z_no_colon.
    rewrite getline_delim_all
      by (apply sha1_nonempty || by apply sha1_contains).
    unfold TokenManager.verifySignature, TokenManager.createSignature.
    rewrite !app_assoc_s, String.eqb_refl. cbn [negb].
    by rewrite stoll_of_Z. }
  rewrite Hval. split; intros Ht.
  - destruct (Z.ltb_spec (token_expiry t0 3600) (clock_seconds t1)); [lia|done].
  - destruct (Z.ltb_spec (token_expiry t0 3600) (clock_seconds t1)); [done|lia].
Qed.

Lemma token_roundtrip_witness :
  TokenManager.validateToken SampleToken.manager SampleToken.t_soon
    (TokenManager.generateToken SampleToken.manager SampleToken.t_login
       "alice" 3600) "" = (true, "alice")
  /\ fst (TokenManager.validateToken SampleToken.manager SampleToken.t_late
            (TokenManager.generateToken SampleToken.manager SampleToken.t_login
               "alice" 3600) "") = false.
Proof.
  pose proof (token_roundtrip SampleToken.manager "alice" ""
                SampleToken.t_login) as H.
  split.
  - refine (proj1 (proj2 (H SampleToken.t_soon eq_refl _ eq_refl _)) _);
      vm_compute; (discriminate || (split; discriminate)).
  - refine (proj2 (proj2 (H SampleToken.t_late eq_refl _ eq_refl _)) _);
      vm_compute; (discriminate || reflexivity || (split; discriminate)).
Defined.

(** ** [update_ref]: the expected old value (C1) *)

Example sample_store_loads :
  Commit.load_by_hash SampleHistory.hx2 SampleHistory.store = Some SampleHistory.x2
  /\ Commit.load_by_hash SampleHistory.ha SampleHistory.store = Some SampleHistory.a
  /\ Commit.load_by_hash SampleHistory.missing SampleHistory.store = None.
Proof. repeat split; vm_compute; reflexivity. Qed.

Lemma read_hash_exists fs p h :
  Repository.read_hash fs p = Some h ->
  Fs.exists_ fs p = true /\ Fs.is_regular_file fs p = true.
Proof.
  unfold Repository.read_hash, Fs.read, Fs.exists_, Fs.is_regular_file.
  by destruct (fs !! p) as [[]|].
Qed.

(** C1 (as amended).  In a call of [update_ref] with a valid name, a new
    hash that names a commit of the store and an expected old value: when
    the reference file is absent, or is a file that does not start with a
    word of 40 characters, the result is [REF_NOT_FOUND_FOR_UPDATE]; when
    the file holds a value of 40 characters other than the expected one the
    result is [OLD_HASH_MISMATCH]; in all three cases the repository is left
    as it was. *)
Theorem update_ref_expected_old :
  forall (r : Repository.t) (ref new expected : string) (allow : bool)
         (c : Commit.t),
    Repository.invalid_ref_name ref = false ->
    String.length new = 40%nat ->
    Str.all_of Str.isxdigit new = true ->
    Commit.load_by_hash new (Repository.objects r) = Some c ->
    (Fs.exists_ (Repository.gitdir r) ref = false ->
       Repository.update_ref r ref new (Some expected) allow
       = (REF_NOT_FOUND_FOR_UPDATE, r))
    /\ (Fs.is_regular_file (Repository.gitdir r) ref = true ->
        Repository.read_hash (Repository.gitdir r) ref = None ->
        Repository.update_ref r ref new (Some expected) allow
        = (REF_NOT_FOUND_FOR_UPDATE, r))
    /\ (forall current,
          Repository.read_hash (Repository.gitdir r) ref = Some current ->
          current <> expected ->
          Repository.update_ref r ref new (Some expected) allow
          = (OLD_HASH_MISMATCH, r)).
Proof.
  intros r ref new expected allow c Hname Hlen Hhex Hload.
  unfold Repository.update_ref. rewrite Hname, Hlen, Hhex, Hload.
  cbn [Nat.eqb negb orb].
  split; [|split].
  - intros Hex. rewrite Hex. done.
  - intros Hreg Hread.
    assert (Fs.exists_ (Repository.gitdir r) ref = true) as ->.
    { unfold Fs.exists_, Fs.is_regular_file in *.
      by destruct (Repository.gitdir r !! ref). }
    rewrite Hreg, Hread. done.
  - intros current Hread Hne.
    destruct (read_hash_exists _ _ _ Hread) as [-> ->].
    rewrite Hread. cbn [negb andb].
    destruct (String.eqb_spec current expected); [done|]. done.
Qed.

Lemma update_ref_expected_old_witness :
  Repository.update_ref SampleHistory.repo "refs/heads/topic" SampleHistory.hx2
    (Some SampleHistory.hx) false
  = (REF_NOT_FOUND_FOR_UPDATE, SampleHistory.repo)
  /\ Repository.update_ref SampleHistory.repo "refs/heads/empty" SampleHistory.hx2
       (Some SampleHistory.hx) false
     = (REF_NOT_FOUND_FOR_UPDATE, SampleHistory.repo)
  /\ Repository.update_ref SampleHistory.repo "refs/heads/main" SampleHistory.hx2
       (Some SampleHistory.hy) false
     = (OLD_HASH_MISMATCH, SampleHistory.repo).
Proof.
  split; [|split].
  - refine (proj1 (update_ref_expected_old SampleHistory.repo "refs/heads/topic"
                     SampleHistory.hx2 SampleHistory.hx false SampleHistory.x2
                     eq_refl eq_refl eq_refl _) _);
      vm_compute; reflexivity.
  - refine (proj1 (proj2 (update_ref_expected_old SampleHistory.repo
                            "refs/heads/empty" SampleHistory.hx2 SampleHistory.hx
                            false SampleHistory.x2 eq_refl eq_refl eq_refl _)) _ _);
      vm_compute; reflexivity.
  - refine (proj2 (proj2 (update_ref_expected_old SampleHistory.repo
                            "refs/heads/main" SampleHistory.hx2 SampleHistory.hy
                            false SampleHistory.x2 eq_refl eq_refl eq_refl _))
              SampleHistory.hx _ _);
      vm_compute; (reflexivity || discriminate).
Defined.

(** C1, counterexample: the reference file is absent and an expected old
    value is given, but the new hash names no object of the store: the
    result is [NEW_COMMIT_NOT_FOUND].  An invalid name is refused before
    that, with [INVALID_REF_NAME]. *)
Lemma update_ref_checks_new_hash_first :
  Fs.exists_ (Repository.gitdir SampleHistory.repo) "refs/heads/topic" = false
  /\ Repository.update_ref SampleHistory.repo "refs/heads/topic"
       SampleHistory.missing (Some SampleHistory.hx) false
     = (NEW_COMMIT_NOT_FOUND, SampleHistory.repo)
  /\ Repository.update_ref SampleHistory.repo "refs/heads/topic/"
       SampleHistory.hx2 (Some SampleHistory.hx) false
     = (INVALID_REF_NAME, SampleHistory.repo).
Proof. repeat split; vm_compute; reflexivity. Qed.

Example update_ref_fast_forward_scenario :
  exists r',
    Repository.update_ref SampleHistory.repo "refs/heads/main" SampleHistory.hx2
      (Some SampleHistory.hx) false = (SUCCESS, r')
    /\ Repository.read_hash (Repository.gitdir r') "refs/heads/main"
       = Some SampleHistory.hx2
    /\ fst (Repository.update_ref r' "refs/heads/main" SampleHistory.hx2
              (Some SampleHistory.hx) false) = OLD_HASH_MISMATCH.
Proof. eexists. split; [vm_compute; reflexivity|]. split; vm_compute; reflexivity. Qed.

(** ** [is_fast_forward] (C2) *)

Section FastForward.
Context (load : string -> option Commit.t).

Lemma existsb_eqb_In (a : string) l :
  existsb (fun p => String.eqb p a) l = true <-> In a l.
Proof.
  rewrite existsb_exists. split.
  - intros (x & Hx & Heq). apply String.eqb_eq in Heq. by subst.
  - intros H. exists a. split; [done|apply String.eqb_refl].
Qed.

Lemma parent_hit_nonempty a b k : parent_hit load a b k -> b <> "".
Proof.
  intros (h & c & Hn & Hh & _). destruct k as [|k]; simpl in Hn.
  - by injection Hn as ->.
  - unfold first_parent in Hn. intros ->. done.
Qed.

Lemma parent_hit_S a b k :
  parent_hit load a b (S k) <->
  exists p, first_parent load b = Some p /\ parent_hit load a p k.
Proof.
  unfold parent_hit. simpl. split.
  - intros (h & c & Hn & Hrest).
    destruct (first_parent load b) as [p|] eqn:Hp; [|done].
    exists p. split; [done|]. by exists h, c.
  - intros (p & Hp & h & c & Hn & Hrest). exists h, c. by rewrite Hp.
Qed.

Lemma ff_loop_sound fuel a : forall cur vis,
  is_fast_forward_loop load fuel a cur vis = true ->
  cur = a \/ exists k, (k < fuel)%nat /\ parent_hit load a cur k.
Proof.
  induction fuel as [|fuel IH]; intros cur vis H; simpl in H; [done|].
  destruct (String.eqb_spec cur "") as [|Hne]; [done|].
  destruct (String.eqb_spec cur a) as [|Hna]; [by left|].
  destruct (bool_decide (cur ∈ vis)); [done|].
  destruct (load cur) as [c|] eqn:Hc; [|done].
  destruct (Commit.parent_hashes_hex c) as [|p ps] eqn:Hps; [done|].
  destruct (existsb _ (p :: ps)) eqn:Hex.
  - right. exists 0%nat. split; [lia|]. exists cur, c.
    rewrite Hps. by apply existsb_eqb_In in Hex.
  - apply IH in H as [->|(k & Hk & Hhit)].
    + simpl in Hex. by rewrite String.eqb_refl in Hex.
    + right. exists (S k). split; [lia|]. apply parent_hit_S.
      exists p. split; [|done]. unfold first_parent.
      destruct (String.eqb_spec cur ""); [done|]. by rewrite Hc, Hps.
Qed.

Lemma no_hit_on_revisit a vis cur :
  visited_behind load a vis cur -> cur ∈ vis -> forall k, ~ parent_hit load a cur k.
Proof.
  intros Hinv Hin k. induction (lt_wf k) as [k _ IH]. intros Hhit.
  destruct (Hinv cur Hin k Hhit) as (k' & Hlt & Hhit').
  by apply (IH k').
Qed.

Lemma ff_loop_complete fuel a : forall cur vis k,
  visited_behind load a vis cur -> cur <> a -> (k < fuel)%nat ->
  parent_hit load a cur k ->
  is_fast_forward_loop load fuel a cur vis = true.
Proof.
  induction fuel as [|fuel IH]; intros cur vis k Hinv Hna Hk Hhit; [lia|].
  simpl. pose proof (parent_hit_nonempty _ _ _ Hhit) as Hne.
  destruct (String.eqb_spec cur "") as [|_]; [done|].
  destruct (String.eqb_spec cur a) as [|_]; [done|].
  case_bool_decide as Hvis.
  { by destruct (no_hit_on_revisit _ _ _ Hinv Hvis k). }
  destruct k as [|k].
  - destruct Hhit as (h & c & [= <-] & _ & Hc & Hin). rewrite Hc.
    destruct (Commit.parent_hashes_hex c) as [|p ps] eqn:Hps; [done|].
    apply existsb_eqb_In in Hin. by rewrite Hin.
  - pose proof Hhit as Hhit0.
    apply parent_hit_S in Hhit as (p & Hp & Hhit).
    unfold first_parent in Hp.
    destruct (String.eqb_spec cur ""); [done|].
    destruct (load cur) as [c|] eqn:Hc; [|done].
    destruct (Commit.parent_hashes_hex c) as [|p' ps] eqn:Hps; [done|].
    injection Hp as ->.
    destruct (existsb _ (p :: ps)) eqn:Hex; [done|].
    assert (~ In a (p :: ps)) as Hnot.
    { intros Hin. apply existsb_eqb_In in Hin. congruence. }
    apply (IH p _ k); [|intros ->; apply Hnot; by left|lia|done].
    intros v Hv j Hj.
    assert (exists j', (j' < S j)%nat /\ parent_hit load a cur j')
      as (j' & Hj' & Hcur).
    { apply elem_of_union in Hv as [Hv|Hv].
      - apply elem_of_singleton in Hv as ->. exists j. split; [lia|done].
      - destruct (Hinv v Hv j Hj) as (j' & ? & ?). exists j'. split; [lia|done]. }
    destruct j' as [|j'].
    + destruct Hcur as (h & c' & [= <-] & _ & Hc' & Hin).
      rewrite Hc in Hc'. injection Hc' as <-. rewrite Hps in Hin. done.
    + apply parent_hit_S in Hcur as (q & Hq & Hcur).
      unfold first_parent in Hq.
      destruct (String.eqb_spec cur ""); [done|].
      rewrite Hc, Hps in Hq. injection Hq as <-.
      exists j'. split; [lia|done].
Qed.

Lemma is_fast_forward_spec a b :
  is_fast_forward load a b = true <->
  a = "" \/ a = b \/ exists k, (k < 1000)%nat /\ parent_hit load a b k.
Proof.
  unfold is_fast_forward.
  destruct (String.eqb_spec a "") as [|Hne]; [by split; auto|].
  destruct (String.eqb_spec a b) as [|Hab]; [by split; auto|].
  split.
  - intros H. apply ff_loop_sound in H as [->|H]; [done|]. by right; right.
  - intros [|[|(k & Hk & Hhit)]]; [done..|].
    apply (ff_loop_complete _ _ _ _ k); [|done|done|done].
    intros v Hv. by apply elem_of_empty in Hv.
Qed.

End FastForward.

Lemma first_parent_reaches_hit load a b k :
  nth_first_parent load (S k) b = Some a -> parent_hit load a b k.
Proof.
  revert b. induction k as [|k IH]; intros b H.
  - simpl in H. unfold first_parent in H.
    destruct (String.eqb_spec b "") as [|Hne]; [done|].
    destruct (load b) as [c|] eqn:Hc; [|done].
    destruct (Commit.parent_hashes_hex c) as [|p ps] eqn:Hps; [done|].
    simpl in H. injection H as ->.
    exists b, c. rewrite Hps. repeat split; try done. by left.
  - change (nth_first_parent load (S (S k)) b)
      with (first_parent load b ≫= nth_first_parent load (S k)) in H.
    destruct (first_parent load b) as [p|] eqn:Hp; [|done].
    apply parent_hit_S. exists p. split; [done|]. by apply IH.
Qed.

(** C2 (as amended).  [is_fast_forward(A, B)] is true exactly when [A] is
    empty, or [A] is [B], or the first-parent walk from [B] visits, at one
    of its first 1000 commits, a commit that has [A] among its parents, the
    first or another one.  In particular it is true when the first-parent
    walk from [B] reaches [A] within 1000 steps. *)
Theorem is_fast_forward_characterised :
  forall (r : Repository.t) (a b : string),
    (Repository.is_fast_forward r a b = true <->
       a = "" \/ a = b
       \/ exists k, (k < 1000)%nat /\ parent_hit (commit_loader r) a b k)
    /\ (first_parent_reaches (commit_loader r) 1000 a b ->
        Repository.is_fast_forward r a b = true).
Proof.
  intros r a b. split; [apply is_fast_forward_spec|].
  intros (k & Hk & Hreach). apply is_fast_forward_spec.
  destruct k as [|k].
  - injection Hreach as ->. by right; left.
  - right; right. exists k. split; [lia|].
    by apply first_parent_reaches_hit.
Qed.

(** C2, counterexample: the merge commit [a] has the parents [x] and [y];
    [is_fast_forward(y, a)] is true, and the first-parent walk from [a]
    goes to [x] and ends there without reaching [y]. *)
Lemma is_fast_forward_sees_second_parent :
  Repository.is_fast_forward SampleHistory.repo SampleHistory.hy SampleHistory.ha
    = true
  /\ ~ first_parent_reaches (commit_loader SampleHistory.repo) 1000
         SampleHistory.hy SampleHistory.ha.
Proof.
  split; [vm_compute; reflexivity|].
  assert (first_parent (commit_loader SampleHistory.repo) SampleHistory.ha
          = Some SampleHistory.hx) as Ha by (vm_compute; reflexivity).
  assert (first_parent (commit_loader SampleHistory.repo) SampleHistory.hx
          = None) as Hx by (vm_compute; reflexivity).
  intros (k & _ & Hk).
  destruct k as [|[|k]]; simpl in Hk.
  - discriminate.
  - rewrite Ha in Hk. simpl in Hk. discriminate.
  - rewrite Ha in Hk. simpl in Hk. rewrite Hx in Hk. discriminate.
Qed.

(** ** [_find_common_ancestor] (C5) *)

Section CommonAncestor.
Context (load : string -> option Commit.t) (rank : string -> nat).
Hypothesis Hlinear : linear_history load.
Hypothesis Hrank : ranked_history load rank.

Lemma parent_of_rank h p : parent_of load h = Some p -> (rank p < rank h)%nat.
Proof.
  unfold parent_of. destruct (load h) as [c|] eqn:Hc; [|done].
  destruct (Commit.parent_hashes_hex c) as [|q qs] eqn:Hps; [done|].
  intros [= ->]. apply (Hrank h c p Hc). rewrite Hps. by left.
Qed.

Lemma ancestor_at_rank k : forall h x,
  ancestor_at load k h = Some x -> (rank x + k <= rank h)%nat.
Proof.
  induction k as [|k IH]; intros h x H; simpl in H.
  - injection H as ->. lia.
  - destruct (parent_of load h) as [p|] eqn:Hp; [|done]. simpl in H.
    apply IH in H. apply parent_of_rank in Hp. lia.
Qed.

Lemma ancestor_at_add j : forall k h y,
  ancestor_at load j h = Some y ->
  ancestor_at load (j + k) h = ancestor_at load k y.
Proof.
  induction j as [|j IH]; intros k h y H; simpl in *.
  - by injection H as ->.
  - destruct (parent_of load h) as [p|]; [|done]. simpl in *. by apply IH.
Qed.

Lemma reaches_refl h : reaches load h h.
Proof. by exists 0%nat. Qed.

Lemma reaches_step h p x :
  parent_of load h = Some p -> reaches load p x -> reaches load h x.
Proof. intros Hp [k Hk]. exists (S k). simpl. by rewrite Hp. Qed.

Lemma reaches_inv h x :
  reaches load h x ->
  x = h \/ exists p, parent_of load h = Some p /\ reaches load p x.
Proof.
  intros [[|k] Hk]; simpl in Hk.
  - left. by injection Hk.
  - right. destruct (parent_of load h) as [p|]; [|done].
    exists p. split; [done|]. by exists k.
Qed.

Lemma reaches_trans h y x :
  reaches load h y -> reaches load y x -> reaches load h x.
Proof.
  intros [j Hj] [k Hk]. exists (j + k)%nat.
  by rewrite (ancestor_at_add _ _ _ _ Hj).
Qed.

Lemma reaches_antisym h x : reaches load h x -> reaches load x h -> h = x.
Proof.
  intros [j Hj] [k Hk].
  pose proof (ancestor_at_rank _ _ _ Hj). pose proof (ancestor_at_rank _ _ _ Hk).
  assert (j = 0)%nat as -> by lia. simpl in Hj. by injection Hj.
Qed.

(** Two ancestors of one commit lie on one line. *)
Lemma reaches_linear h x y :
  reaches load h x -> reaches load h y -> reaches load x y \/ reaches load y x.
Proof.
  intros [j Hj] [k Hk]. destruct (Nat.le_gt_cases j k) as [Hle|Hgt].
  - left. exists (k - j)%nat.
    rewrite <- (ancestor_at_add _ _ _ _ Hj). by replace (j + (k - j))%nat with k by lia.
  - right. exists (j - k)%nat.
    rewrite <- (ancestor_at_add _ _ _ _ Hk). by replace (k + (j - k))%nat with j by lia.
Qed.

(** A commit without merge queues its parent, if it has one that was not
    visited. *)
Lemma enqueue_parents_linear h c vis :
  load h = Some c ->
  enqueue_parents (Commit.parent_hashes_hex c) vis []
  = match parent_of load h with
    | Some p => if bool_decide (p ∈ vis) then (vis, []) else ({[p]} ∪ vis, [p])
    | None => (vis, [])
    end.
Proof.
  intros Hc. unfold parent_of. rewrite Hc.
  pose proof (Hlinear h c Hc) as Hlen.
  destruct (Commit.parent_hashes_hex c) as [|p [|q qs]]; simpl in *; [done| |lia].
  by case_bool_decide.
Qed.

Lemma parent_of_unloadable h : load h = None -> parent_of load h = None.
Proof. unfold parent_of. by intros ->. Qed.

Lemma collect_ancestors_linear fuel : forall cur vis anc,
  (rank cur < fuel)%nat ->
  (forall v, v ∈ vis -> (rank cur <= rank v)%nat) ->
  exists s, collect_ancestors load fuel [cur] vis anc = Some s
            /\ forall x, x ∈ s <-> x ∈ anc \/ reaches load cur x.
Proof.
  induction fuel as [|fuel IH]; intros cur vis anc Hfuel Hvis; [lia|].
  simpl. destruct (load cur) as [c|] eqn:Hc.
  - rewrite (enqueue_parents_linear cur c vis Hc).
    destruct (parent_of load cur) as [p|] eqn:Hp.
    + pose proof (parent_of_rank _ _ Hp) as Hlt.
      case_bool_decide as Hin; [apply Hvis in Hin; lia|].
      destruct (IH p ({[p]} ∪ vis) ({[cur]} ∪ anc)) as (s & Hs & Hmem); [lia| |].
      { intros v [->%elem_of_singleton|Hv]%elem_of_union; [lia|].
        apply Hvis in Hv. lia. }
      exists s. split; [done|]. intros x. rewrite Hmem. split.
      * intros [[->%elem_of_singleton|Hx]%elem_of_union|Hx].
        -- right. apply reaches_refl.
        -- by left.
        -- right. by eapply reaches_step.
      * intros [Hx|Hx]; [left; apply elem_of_union; by right|].
        apply reaches_inv in Hx as [->|(p' & Hp' & Hx)];
          [left; apply elem_of_union; left; by apply elem_of_singleton|].
        right. congruence.
    + exists ({[cur]} ∪ anc). split; [by destruct fuel|].
      intros x. split.
      * intros [->%elem_of_singleton|Hx]%elem_of_union;
          [right; apply reaches_refl|by left].
      * intros [Hx|Hx]; [set_solver|].
        apply reaches_inv in Hx as [->|(p' & Hp' & _)]; [set_solver|congruence].
  - exists ({[cur]} ∪ anc). split; [by destruct fuel|].
    pose proof (parent_of_unloadable _ Hc) as Hp.
    intros x. split.
    + intros [->%elem_of_singleton|Hx]%elem_of_union;
        [right; apply reaches_refl|by left].
    + intros [Hx|Hx]; [set_solver|].
      apply reaches_inv in Hx as [->|(p' & Hp' & _)]; [set_solver|congruence].
Qed.

(** The result of the second search on a line: the nearest ancestor of
    [cur] that is in [s], if there is one. *)
Lemma first_common_linear fuel : forall cur vis (s : gset string),
  (rank cur < fuel)%nat ->
  (forall v, v ∈ vis -> (rank cur <= rank v)%nat) ->
  exists res, first_common load fuel [cur] vis s = Some res
    /\ match res with
       | Some y => reaches load cur y /\ y ∈ s
                   /\ forall z, reaches load cur z -> z ∈ s -> reaches load y z
       | None => forall z, reaches load cur z -> z ∉ s
       end.
Proof.
  induction fuel as [|fuel IH]; intros cur vis s Hfuel Hvis; [lia|].
  simpl. case_bool_decide as Hcur.
  { exists (Some cur). split; [done|]. split; [apply reaches_refl|].
    split; [done|]. auto. }
  assert (forall res,
    match res with
    | Some y => exists p, parent_of load cur = Some p /\ reaches load p y /\ y ∈ s
                /\ forall z, reaches load p z -> z ∈ s -> reaches load y z
    | None => forall p, parent_of load cur = Some p ->
                        forall z, reaches load p z -> z ∉ s
    end ->
    match res with
    | Some y => reaches load cur y /\ y ∈ s
                /\ forall z, reaches load cur z -> z ∈ s -> reaches load y z
    | None => forall z, reaches load cur z -> z ∉ s
    end) as Hlift.
  { intros [y|].
    - intros (p & Hp & Hy & Hys & Hnear). split; [by eapply reaches_step|].
      split; [done|]. intros z Hz Hzs.
      apply reaches_inv in Hz as [->|(p' & Hp' & Hz)]; [done|].
      apply Hnear; [congruence|done].
    - intros Hnone z Hz.
      apply reaches_inv in Hz as [->|(p' & Hp' & Hz)]; [done|].
      by eapply Hnone. }
  destruct (load cur) as [c|] eqn:Hc.
  - rewrite (enqueue_parents_linear cur c vis Hc).
    destruct (parent_of load cur) as [p|] eqn:Hp.
    + pose proof (parent_of_rank _ _ Hp) as Hlt.
      case_bool_decide as Hin; [apply Hvis in Hin; lia|].
      destruct (IH p ({[p]} ∪ vis) s) as (res & Hres & Hspec); [lia| |].
      { intros v [->%elem_of_singleton|Hv]%elem_of_union; [lia|].
        apply Hvis in Hv. lia. }
      exists res. split; [done|]. apply Hlift.
      destruct res as [y|].
      * exists p. by destruct Hspec as (? & ? & ?).
      * intros p' [= <-]. done.
    + exists None. split; [by destruct fuel|]. by apply (Hlift None).
  - exists None. split; [by destruct fuel|]. apply (Hlift None).
    intros p Hp. by rewrite (parent_of_unloadable _ Hc) in Hp.
Qed.

Lemma find_common_ancestor_linear fuel a b :
  a <> "" -> b <> "" ->
  (rank a < fuel)%nat -> (rank b < fuel)%nat ->
  exists res, _find_common_ancestor load fuel a b = Some res
              /\ nearest_common load a b res.
Proof.
  intros Ha Hb Hfa Hfb. unfold _find_common_ancestor.
  destruct (String.eqb_spec a "") as [|_]; [done|].
  destruct (String.eqb_spec b "") as [|_]; [done|]. cbn [orb].
  destruct (String.eqb_spec a b) as [<-|Hab].
  { exists (Some a). split; [done|]. repeat split; try apply reaches_refl. auto. }
  destruct (collect_ancestors_linear fuel a {[a]} ∅ Hfa) as (s & -> & Hs).
  { by intros v ->%elem_of_singleton. }
  destruct (first_common_linear fuel b {[b]} s Hfb) as (res & -> & Hres).
  { by intros v ->%elem_of_singleton. }
  exists res. split; [done|]. destruct res as [y|]; simpl.
  - destruct Hres as (Hby & Hys & Hnear).
    apply Hs in Hys as [Hys|Hay]; [set_solver|].
    repeat split; try done. intros z Haz Hbz. apply Hnear; [done|].
    apply Hs. by right.
  - intros z Haz Hbz. apply (Hres z Hbz). apply Hs. by right.
Qed.

Lemma nearest_common_sym a b res :
  nearest_common load a b res -> nearest_common load b a res.
Proof.
  destruct res as [y|]; simpl.
  - intros (? & ? & Hn). repeat split; try done. auto.
  - intros Hn z ? ?. by eapply Hn.
Qed.

Lemma nearest_common_unique a b r1 r2 :
  nearest_common load a b r1 -> nearest_common load a b r2 -> r1 = r2.
Proof.
  destruct r1 as [y1|], r2 as [y2|]; simpl.
  - intros (Ha1 & Hb1 & Hn1) (Ha2 & Hb2 & Hn2). f_equal.
    apply reaches_antisym; [by apply Hn1|by apply Hn2].
  - intros (Ha1 & Hb1 & _) Hn. by destruct (Hn y1).
  - intros Hn (Ha2 & Hb2 & _). by destruct (Hn y2).
  - done.
Qed.

Lemma find_common_ancestor_linear_sym fuel a b :
  (rank a < fuel)%nat -> (rank b < fuel)%nat ->
  _find_common_ancestor load fuel a b = _find_common_ancestor load fuel b a
  /\ is_Some (_find_common_ancestor load fuel a b).
Proof.
  intros Hfa Hfb.
  destruct (String.eqb_spec a "") as [->|Ha].
  { unfold _find_common_ancestor. simpl. rewrite orb_true_r. by split. }
  destruct (String.eqb_spec b "") as [->|Hb].
  { unfold _find_common_ancestor. simpl. rewrite orb_true_r. by split. }
  destruct (find_common_ancestor_linear fuel a b) as (r1 & H1 & Hn1); try done.
  destruct (find_common_ancestor_linear fuel b a) as (r2 & H2 & Hn2); try done.
  rewrite H1, H2. split; [|done]. f_equal.
  apply (nearest_common_unique a b); [done|by apply nearest_common_sym].
Qed.

End CommonAncestor.

Lemma loader_in_store r h c :
  commit_loader r h = Some c ->
  exists bytes, In (h, bytes) (map_to_list (Repository.objects r)).
Proof.
  unfold commit_loader, Commit.load_by_hash, load_raw.
  destruct (negb _); [done|].
  destruct (Repository.objects r !! h) as [bytes|] eqn:Hb; [|done].
  intros _. exists bytes. apply list_elem_of_In. by apply elem_of_map_to_list.
Qed.

Lemma store_linear_sound r :
  store_linear (Repository.objects r) = true -> linear_history (commit_loader r).
Proof.
  intros Hall h c Hc. destruct (loader_in_store r h c Hc) as (bytes & Hin).
  unfold store_linear in Hall. rewrite forallb_forall in Hall.
  specialize (Hall _ Hin). simpl in Hall. unfold commit_loader in Hc.
  rewrite Hc in Hall. by apply Nat.leb_le.
Qed.

Lemma store_ranked_sound rank r :
  store_ranked rank (Repository.objects r) = true ->
  ranked_history (commit_loader r) rank.
Proof.
  intros Hall h c p Hc Hp. destruct (loader_in_store r h c Hc) as (bytes & Hin).
  unfold store_ranked in Hall. rewrite forallb_forall in Hall.
  specialize (Hall _ Hin). simpl in Hall. unfold commit_loader in Hc.
  rewrite Hc in Hall. rewrite forallb_forall in Hall.
  by apply Nat.ltb_lt, Hall.
Qed.



(** The common ancestor of the two children in the sample is their parent. *)
Example find_common_ancestor_of_siblings :
  Repository._find_common_ancestor 2 SampleLinear.repo
    SampleHistory.hx2 SampleLinear.hx3 = Some (Some SampleHistory.hx).
Proof. vm_compute. reflexivity. Qed.


(** ** [rm] of a file that is gone from the working tree (C10) *)

Lemma set_index_same r : Repository.set_index (Repository.index_manager_ r) r = r.
Proof. by destruct r. Qed.

Lemma ensure_loaded_loaded fs idx :
  Index.loaded_ idx = true -> Index.ensure_loaded fs idx = (true, idx).
Proof. unfold Index.ensure_loaded. by intros ->. Qed.

Lemma lower_bound_In l p e : Index.lower_bound l p = Some e -> In e l.
Proof.
  induction l as [|x l IH]; simpl; [done|].
  destruct (Path.ltb (file_path x) p).
  - intros H. right. by apply IH.
  - intros [= ->]. by left.
Qed.

Lemma filter_drops_one {A} (f : A -> bool) l x :
  In x l -> f x = false -> (length (List.filter f l) < length l)%nat.
Proof.
  induction l as [|y l IH]; simpl; [done|].
  pose proof (List.filter_length_le f l) as Hle.
  intros [->|Hin] Hx.
  - rewrite Hx. lia.
  - specialize (IH Hin Hx). destruct (f y); simpl; lia.
Qed.

Lemma filter_none_left (rel : Path.t) l :
  existsb (fun e => Path.eqb (file_path e) rel)
    (List.filter (fun e => negb (Path.eqb (file_path e) rel)) l) = false.
Proof.
  induction l as [|y l IH]; simpl; [done|].
  destruct (Path.eqb (file_path y) rel) eqn:Hy; simpl; [done|].
  by rewrite Hy.
Qed.

(** [rm] does what C10 says when [rm_cached], which resolves the relative
    path once more from the current directory, comes back to the same
    path; this is so when the process runs in the root of the working
    tree. *)
Lemma rm_absent_file_stable_resolution env path r abs rel abs2 e :
  Index.loaded_ (Repository.index_manager_ r) = true ->
  Repository.resolve_for_index env r path = Some (abs, rel) ->
  Path.lexically_normal rel = rel ->
  Index.get_entry rel (Repository.index_manager_ r) = Some e ->
  Wt.exists_ (Repository.worktree r) (Path.generic_string rel) = false ->
  Repository.resolve_for_index env r rel = Some (abs2, rel) ->
  fst (Index.write
         (snd (Index.remove_entry (Repository.gitdir r) rel
                 (Repository.index_manager_ r)))
         (Repository.gitdir r)) = true ->
  exists r', Repository.rm env path r = (true, r')
    /\ existsb (fun e' => Path.eqb (file_path e') rel)
         (Index.get_all_entries (Repository.index_manager_ r')) = false
    /\ Repository.worktree r' = Repository.worktree r.
Proof.
  intros Hloaded Hres Hnorm Hentry Habsent Hres2 Hwrite.
  unfold Repository.rm. rewrite (ensure_loaded_loaded _ _ Hloaded).
  cbn [negb]. rewrite set_index_same, Hres, Hentry, Habsent. cbn [negb].
  unfold Repository.rm_cached. rewrite (ensure_loaded_loaded _ _ Hloaded).
  cbn [negb]. rewrite set_index_same, Hres2.
  revert Hwrite. unfold Index.remove_entry.
  rewrite (ensure_loaded_loaded _ _ Hloaded). cbn [negb snd].
  set (kept := List.filter _ _).
  assert ((length kept <? length (Index.entries_ (Repository.index_manager_ r)))%nat
          = true) as ->.
  { apply Nat.ltb_lt. unfold Index.get_entry in Hentry. rewrite Hnorm in Hentry.
    destruct (Index.lower_bound _ rel) as [e'|] eqn:Hlb; [|done].
    destruct (Path.eqb (file_path e') rel) eqn:Heq; [|done].
    apply (filter_drops_one _ _ e'); [by eapply lower_bound_In|by rewrite Heq]. }
  destruct (Index.write _ _) as [written fs'] eqn:Hw. cbn [fst]. intros ->.
  cbn [negb]. eexists. split; [reflexivity|]. split; [|done].
  apply filter_none_left.
Qed.

(** C10 fails when the process runs in a subdirectory: [rm f.txt] in [sub]
    finds the entry [sub/f.txt] and no file, reports success, and leaves
    the entry in the index and in the index file. *)
Theorem rm_in_subdirectory_keeps_index_entry :
  let loaded := snd (Index.load (Repository.gitdir SampleRm.repo)
                       (Repository.index_manager_ SampleRm.repo)) in
  let result := Repository.rm SampleRm.in_sub (Path.of_string "f.txt")
                  SampleRm.repo in
  Index.get_entry SampleRm.tracked loaded = Some SampleRm.entry
  /\ Wt.exists_ (Repository.worktree SampleRm.repo) "sub/f.txt" = false
  /\ fst result = true
  /\ Index.get_entry SampleRm.tracked (Repository.index_manager_ (snd result))
     = Some SampleRm.entry
  /\ Repository.gitdir (snd result) = Repository.gitdir SampleRm.repo.
Proof. repeat split; vm_compute; reflexivity. Qed.

(** The same call from the root of the working tree removes the entry. *)
Example rm_at_root_removes_index_entry :
  let result := Repository.rm SampleRm.at_root (Path.of_string "sub/f.txt")
                  SampleRm.repo in
  fst result = true
  /\ Index.get_entry SampleRm.tracked (Repository.index_manager_ (snd result))
     = None
  /\ Repository.gitdir (snd result) !! "index" = Some (File "")
  /\ Repository.worktree (snd result) = Repository.worktree SampleRm.repo.
Proof. repeat split; vm_compute; reflexivity. Qed.

(** ** [commit] and the unchanged tree (C6) *)

(** *** The root tree is always built *)

Lemma elements_ltb_total a : forall b,
  Path.elements_ltb a b = false -> Path.elements_ltb b a = false -> a = b.
Proof.
  induction a as [|x a IH]; intros [|y b]; simpl; try done.
  rewrite (String.compare_antisym x y).
  destruct (String.compare y x) eqn:Hc; simpl; try done.
  apply String.compare_eq_iff in Hc as ->. intros H1 H2. f_equal. by apply IH.
Qed.

Lemma path_ltb_total p q :
  Path.ltb p q = false -> Path.ltb q p = false -> p = q.
Proof.
  destruct p as [pa pe], q as [qa qe]. unfold Path.ltb. simpl.
  destruct pa, qa; try done; intros H1 H2; f_equal; by apply elements_ltb_total.
Qed.

Lemma path_eqb_refl p : Path.eqb p p = true.
Proof.
  unfold Path.eqb. rewrite Bool.eqb_reflx. simpl. by apply bool_decide_eq_true.
Qed.

Lemma path_eqb_eq p q : Path.eqb p q = true -> p = q.
Proof.
  destruct p as [pa pe], q as [qa qe]. unfold Path.eqb. simpl.
  intros [H1 H2]%andb_true_iff. apply Bool.eqb_prop in H1.
  apply bool_decide_eq_true in H2. by subst.
Qed.

Lemma pmap_insert_In {V} (k : Path.t) (v : V) m x :
  In x (map fst m) -> In x (map fst (pmap_insert k v m)).
Proof.
  induction m as [|[k' v'] m IH]; simpl; [done|].
  destruct (Path.ltb k k') eqn:H1; simpl; [tauto|].
  destruct (Path.ltb k' k) eqn:H2; simpl; [tauto|].
  rewrite (path_ltb_total _ _ H1 H2). tauto.
Qed.

Lemma pset_insert_In k s x : In x s -> In x (pset_insert k s).
Proof.
  intros Hin. unfold pset_insert. apply pmap_insert_In.
  rewrite map_map. simpl. by rewrite map_id.
Qed.

Lemma collect_dir_paths_In fuel : forall p s x,
  In x s -> In x (Repository.collect_dir_paths fuel p s).
Proof.
  induction fuel as [|fuel IH]; intros p s x Hin; simpl.
  - by apply pset_insert_In.
  - destruct (_ || _); [by apply pset_insert_In|]. by apply IH, pset_insert_In.
Qed.

Lemma pmap_find_insert_same {V} (k : Path.t) (v : V) m :
  is_Some (pmap_find k (pmap_insert k v m)).
Proof.
  induction m as [|[k' v'] m IH]; simpl.
  - by rewrite path_eqb_refl.
  - destruct (Path.ltb k k'); simpl; [by rewrite path_eqb_refl|].
    destruct (Path.ltb k' k); simpl; [|by rewrite path_eqb_refl].
    by destruct (Path.eqb k' k).
Qed.

Lemma pmap_find_insert_other {V} (k k' : Path.t) (v : V) m :
  is_Some (pmap_find k m) -> is_Some (pmap_find k (pmap_insert k' v m)).
Proof.
  induction m as [|[k2 v2] m IH]; simpl; [by intros []|].
  destruct (Path.ltb k' k2) eqn:H1; simpl.
  { by destruct (Path.eqb k' k). }
  destruct (Path.ltb k2 k') eqn:H2; simpl.
  { destruct (Path.eqb k2 k); [done|apply IH]. }
  rewrite (path_ltb_total _ _ H1 H2). by destruct (Path.eqb k2 k).
Qed.

Lemma build_trees_finds entries k dirs : forall acc,
  In k dirs \/ is_Some (pmap_find k (fst acc)) ->
  is_Some (pmap_find k (fst (fold_left
    (fun (acc : list (Path.t * string) * objects_dir) dir_to_build =>
       let saved :=
         Tree.save (Repository.tree_of_directory dir_to_build entries (fst acc))
           (snd acc) in
       (pmap_insert dir_to_build (fst saved) (fst acc), snd saved))
    dirs acc))).
Proof.
  induction dirs as [|d dirs IH]; intros acc H; simpl.
  - by destruct H.
  - apply IH. destruct H as [[->|Hin]|Hfound].
    + right. simpl. apply pmap_find_insert_same.
    + by left.
    + right. simpl. by apply pmap_find_insert_other.
Qed.

Lemma build_trees_root entries o :
  is_Some (fst (Repository._build_trees_and_get_root_hash entries o)).
Proof.
  unfold Repository._build_trees_and_get_root_hash.
  destruct entries as [|e es]; [done|]. cbn [fst].
  unfold Repository.build_trees. apply build_trees_finds. left.
  eapply Permutation_in; [symmetry; apply std_sort_perm|].
  generalize (e :: es). intros l.
  assert (forall s, In Path.empty s ->
    In Path.empty (fold_left
      (fun s entry =>
         let current_parent := Path.parent_path (file_path entry) in
         Repository.collect_dir_paths (length (Path.elements current_parent))
           current_parent s) l s)) as H.
  { induction l as [|x l IH]; intros s Hs; simpl; [done|].
    by apply IH, collect_dir_paths_In. }
  apply H. by left.
Qed.

(** *** Building the trees adds no commit *)

Lemma save_raw_lookup data o k b :
  snd (save_raw data o) !! k = Some b -> o !! k = Some b \/ b = data.
Proof.
  unfold save_raw. destruct (o !! SHA1.sha1 data) eqn:Hd; simpl; [by left|].
  intros [[_ <-]|[_ H]]%lookup_insert_Some; [by right|by left].
Qed.

Lemma save_raw_stored data o :
  is_Some (snd (save_raw data o) !! fst (save_raw data o)).
Proof.
  unfold save_raw. destruct (o !! SHA1.sha1 data) eqn:Hd; simpl.
  - by rewrite Hd.
  - by rewrite lookup_insert_eq.
Qed.

Lemma only_trees_added_refl o : only_trees_added o o.
Proof. intros k b H. by left. Qed.

Lemma only_trees_added_save o o' tr :
  only_trees_added o o' -> only_trees_added o (snd (Tree.save tr o')).
Proof.
  intros H k b [Hb| ->]%save_raw_lookup; [by apply H|]. right. by exists tr.
Qed.

Lemma build_trees_only_trees entries o dirs : forall acc,
  only_trees_added o (snd acc) ->
  only_trees_added o (snd (fold_left
    (fun (acc : list (Path.t * string) * objects_dir) dir_to_build =>
       let saved :=
         Tree.save (Repository.tree_of_directory dir_to_build entries (fst acc))
           (snd acc) in
       (pmap_insert dir_to_build (fst saved) (fst acc), snd saved))
    dirs acc)).
Proof.
  induction dirs as [|d dirs IH]; intros acc H; simpl; [done|].
  apply IH. simpl. by apply only_trees_added_save.
Qed.

Lemma build_only_trees entries o :
  only_trees_added o (snd (Repository._build_trees_and_get_root_hash entries o)).
Proof.
  unfold Repository._build_trees_and_get_root_hash.
  destruct entries as [|e es]; cbn [snd].
  - apply only_trees_added_save, only_trees_added_refl.
  - apply build_trees_only_trees, only_trees_added_refl.
Qed.

(** The bytes of a tree do not load as a commit. *)
Lemma tree_bytes_type tr :
  match read_and_parse_object_file (Tree.serialize tr) with
  | Some (type_str_read, _, _) => type_str_read = "tree"
  | None => True
  end.
Proof.
  unfold Tree.serialize, object_header, Tree.type_str, read_and_parse_object_file.
  rewrite !app_assoc_s. rewrite !app_cons. simpl.
  destruct (Str.find _ _) as [j|]; [|done].
  destruct (String.eqb _ _); [done|].
  destruct (Str.stoll _) as [n|]; [|done].
  destruct (n <? 0); [done|]. by destruct (Nat.ltb _ _).
Qed.

Lemma commit_load_only_trees o o' k c :
  only_trees_added o o' ->
  Commit.load_by_hash k o' = Some c -> Commit.load_by_hash k o = Some c.
Proof.
  intros Hadd. unfold Commit.load_by_hash, load_raw.
  destruct (negb _); [done|].
  destruct (o' !! k) as [bytes|] eqn:Hb; [|done].
  destruct (Hadd k bytes Hb) as [-> |[tr ->]]; [done|].
  pose proof (tree_bytes_type tr) as Ht.
  destruct (read_and_parse_object_file _) as [[[ty n] raw]|]; [|done].
  subst ty. done.
Qed.


(** *** The two ways out of [commit] *)

Section CommitCases.
Context (env : Env) (message : string) (r : Repository.t).
Context (head_hash : string) (head_commit : Commit.t) (idx : Index.t).
Hypothesis Hhead : Repository._get_head_commit_hash r = Some head_hash.
Hypothesis Hload :
  Commit.load_by_hash head_hash (Repository.objects r) = Some head_commit.
Hypothesis Hindex :
  Index.ensure_loaded (Repository.gitdir r) (Repository.index_manager_ r)
  = (true, idx).
Hypothesis Hmerge :
  Fs.exists_ (Repository.gitdir r) Repository.MERGE_HEAD_FILE_NAME = true ->
  is_Some (Repository.read_hash (Repository.gitdir r)
             Repository.MERGE_HEAD_FILE_NAME).

Lemma commit_record_unchanged :
  fst (built_from_index idx (Repository.objects r))
  = Some (Commit.tree_hash_hex head_commit) ->
  Fs.exists_ (Repository.gitdir r) Repository.MERGE_HEAD_FILE_NAME = false ->
  Repository.commit_record env message r
  = Repository.Rejected
      (Repository.set_objects
         (snd (built_from_index idx (Repository.objects r)))
         (Repository.set_index idx r)).
Proof.
  intros Hroot Hno. unfold Repository.commit_record. rewrite Hindex.
  cbn [negb].
  change (Repository._get_head_commit_hash (Repository.set_index idx r))
    with (Repository._get_head_commit_hash r).
  change (Repository.gitdir (Repository.set_index idx r))
    with (Repository.gitdir r).
  change (Repository.objects (Repository.set_index idx r))
    with (Repository.objects r).
  rewrite Hhead, Hload, Hno. cbn [negb].
  rewrite bool_decide_eq_true_2 by eauto. cbn [negb andb].
  rewrite andb_false_r.
  fold (built_from_index idx (Repository.objects r)).
  rewrite Hroot. by rewrite String.eqb_refl.
Qed.

Lemma commit_record_changed :
  ~ (fst (built_from_index idx (Repository.objects r))
     = Some (Commit.tree_hash_hex head_commit)
     /\ Fs.exists_ (Repository.gitdir r) Repository.MERGE_HEAD_FILE_NAME = false) ->
  exists new_hash root ok r',
    Repository.commit_record env message r
    = Repository.Saved new_hash root ok r'
    /\ fst (built_from_index idx (Repository.objects r)) = Some root
    /\ is_Some (Repository.objects r' !! new_hash).
Proof.
  intros Hchanged. unfold Repository.commit_record. rewrite Hindex.
  cbn [negb].
  change (Repository._get_head_commit_hash (Repository.set_index idx r))
    with (Repository._get_head_commit_hash r).
  change (Repository.gitdir (Repository.set_index idx r))
    with (Repository.gitdir r).
  change (Repository.objects (Repository.set_index idx r))
    with (Repository.objects r).
  rewrite Hhead, Hload.
  rewrite bool_decide_eq_true_2 by eauto. cbn [negb].
  rewrite andb_false_r.
  fold (built_from_index idx (Repository.objects r)).
  destruct (build_trees_root
              (std_sort IndexEntry_lt (Index.get_all_entries idx))
              (Repository.objects r)) as [root Hroot].
  fold (built_from_index idx (Repository.objects r)) in Hroot.
  rewrite Hroot in *.
  set (r2 := Repository.set_objects _ _).
  change (Repository.gitdir r2) with (Repository.gitdir r).
  destruct (Repository.parents_from_head r2 (Some head_hash))
    as [from_head branch].
  destruct (Fs.exists_ (Repository.gitdir r) Repository.MERGE_HEAD_FILE_NAME)
    eqn:Hm; cbn [negb andb].
  - destruct (Hmerge eq_refl) as [theirs ->].
    set (ours := match from_head with [] => [head_hash] | _ => from_head end).
    assert (ours <> []) as Hours by (subst ours; by destruct from_head).
    destruct ours as [|o1 ours'] eqn:Ho; [done|].
    set (saved := Commit.save _ _).
    destruct (Fs.write _ _ _) as [fs4|]; do 4 eexists;
      (split; [reflexivity|split; [reflexivity|apply save_raw_stored]]).
  - destruct (String.eqb_spec root (Commit.tree_hash_hex head_commit)) as [->|_].
    { destruct Hchanged. by split. }
    set (saved := Commit.save _ _).
    destruct (Fs.write _ _ _) as [fs4|]; do 4 eexists;
      (split; [reflexivity|split; [reflexivity|apply save_raw_stored]]).
Qed.

End CommitCases.



(** A commit that completes a merge is made although its tree is the tree
    of [HEAD]; it has both parents. *)
Example commit_completes_merge_with_same_tree :
  exists r',
    Repository.commit 4 SampleWork.env "merge" SampleWork.merging
    = Some (Some "5c5da8e24d6bd55df965853eb97fde429def0037", r')
    /\ (Commit.parent_hashes_hex
          <$> Commit.load_by_hash "5c5da8e24d6bd55df965853eb97fde429def0037"
                (Repository.objects r'))
       = Some ["7cb1cab2e93b36ad08be0f43790ef1bb03d3bff6"; SampleHistory.hy]
    /\ Fs.exists_ (Repository.gitdir r') Repository.MERGE_HEAD_FILE_NAME = false.
Proof. eexists. split; [vm_compute; reflexivity|]. split; vm_compute; reflexivity. Qed.


(** ** [merge] with conflicts (C3) *)

Lemma fs_write_top fs p content :
  Fs.is_directory fs p = false -> Fs.parent_path p = "" ->
  Fs.write fs p content = Some (<[p := File content]> fs).
Proof. unfold Fs.write. intros -> ->. done. Qed.

Lemma fs_is_directory_insert fs p q content :
  p <> q -> Fs.is_directory (<[q := File content]> fs) p = Fs.is_directory fs p.
Proof.
  intros Hne. unfold Fs.is_directory. destruct p; [done|].
  by rewrite lookup_insert_ne.
Qed.

Lemma fs_not_exists_not_directory fs p :
  p <> "" -> Fs.exists_ fs p = false -> Fs.is_directory fs p = false.
Proof.
  unfold Fs.exists_, Fs.is_directory. destruct p; [done|].
  by destruct (fs !! _).
Qed.

(** The flag of the loop is raised exactly when a path was listed. *)
Lemma merge_path_flag env r l1 l2 fb fo ft st p :
  (Repository.conflicts_occurred st = true <->
   Repository.conflict_paths_list st <> []) ->
  Repository.conflicts_occurred
    (Repository.merge_path env r l1 l2 fb fo ft st p) = true
  <-> Repository.conflict_paths_list
        (Repository.merge_path env r l1 l2 fb fo ft st p) <> [].
Proof.
  intros Hst. unfold Repository.merge_path. cbv zeta.
  repeat (match goal with
          | |- context [String.eqb ?a ?b] => destruct (String.eqb a b)
          end; cbn [andb negb]);
    repeat match goal with
           | |- context [Blob.load_by_hash ?a ?b] =>
               destruct (Blob.load_by_hash a b)
           end;
    cbn [Repository.conflicts_occurred Repository.conflict_paths_list];
    try done;
    (split; [intros _; by destruct (Repository.conflict_paths_list st)|done]).
Qed.

Lemma three_way_loop_flag env r l1 l2 fb fo ft :
  Repository.conflicts_occurred (Repository.three_way_loop env r l1 l2 fb fo ft)
    = true
  <-> Repository.conflict_paths_list
        (Repository.three_way_loop env r l1 l2 fb fo ft) <> [].
Proof.
  unfold Repository.three_way_loop.
  generalize (Repository.all_involved_paths fb fo ft). intros paths.
  assert (Repository.conflicts_occurred
            (Repository.mkMergeState [] [] false (Repository.worktree r)) = true
          <-> Repository.conflict_paths_list
                (Repository.mkMergeState [] [] false (Repository.worktree r))
              <> []) as Hinit by done.
  revert Hinit. generalize (Repository.mkMergeState [] [] false (Repository.worktree r)).
  induction paths as [|p paths IH]; intros st Hst; simpl; [done|].
  apply IH. by apply merge_path_flag.
Qed.



(** The file in conflict holds both versions between the markers. *)
Example merge_writes_conflict_markers :
  (fun res : option (bool * Repository.t) =>
     res ≫= fun '(_, r') => Wt.read (Repository.worktree r') "f.txt")
    (Repository.merge 5 SampleMerge.env "feature" SampleMerge.repo)
  = Some (SampleMerge.text "<<<<<<< main" +:+ SampleMerge.text "ours"
          +:+ SampleMerge.text "=======" +:+ SampleMerge.text "theirs"
          +:+ SampleMerge.text ">>>>>>> feature").
Proof. vm_compute. reflexivity. Qed.

(** ** The object store: what [save] writes, [load_by_hash] reads *)

Lemma hex_digit_lower n : is_lower_hex (SHA1.hex_digit n) = true.
Proof.
  pose proof (hex_digit_cases n) as H. simpl in H.
  repeat (destruct H as [<-|H]; [done|]). done.
Qed.

Lemma lower_hex_xdigit c : is_lower_hex c = true -> Str.isxdigit c = true.
Proof.
  unfold is_lower_hex. cbn [Str.contains].
  repeat match goal with
         | |- context [Ascii.eqb ?a c] =>
             destruct (Ascii.eqb_spec a c) as [<-|_]; [intros _; reflexivity|]
         end.
  cbn [orb]. done.
Qed.

Lemma hex8_all_of p w (tail : string) :
  (forall n, p (SHA1.hex_digit n) = true) ->
  Str.all_of p (SHA1.hex8 w tail) = Str.all_of p tail.
Proof. intros Hp. unfold SHA1.hex8. cbn [Str.all_of]. by rewrite !Hp. Qed.

(** X1.  A hash is 40 characters long and written with the digits
    [0-9a-f], so it passes the checks of the length and of [isxdigit] that
    the callers make. *)
Theorem sha1_is_forty_lower_hex_digits (data : string) :
  String.length (SHA1.sha1 data) = 40%nat
  /\ Str.all_of is_lower_hex (SHA1.sha1 data) = true
  /\ Str.all_of Str.isxdigit (SHA1.sha1 data) = true.
Proof.
  split; [apply sha1_length|]. unfold SHA1.sha1.
  destruct (SHA1.process_data _) as [[[[h0 h1] h2] h3] h4].
  split.
  - rewrite !hex8_all_of by apply hex_digit_lower. done.
  - rewrite !hex8_all_of; [done|..];
      intros n; apply lower_hex_xdigit, hex_digit_lower.
Qed.

Lemma of_nat_of_Z n : Str.of_nat n = Str.of_Z (Z.of_nat n).
Proof.
  unfold Str.of_nat, Str.of_Z.
  destruct (Z.ltb_spec (Z.of_nat n) 0) as [H|_]; [lia|].
  f_equal. lia.
Qed.

Lemma take_all (s : string) : Str.take (String.length s) s = s.
Proof. induction s as [|c s IH]; simpl; [done|]. by rewrite IH. Qed.

(** The header that [save] writes is read back by
    [read_and_parse_object_file]. *)
Lemma read_stored_object (ty data : string) :
  ty <> "" -> Str.contains Str.sp ty = false -> size_fits data ->
  read_and_parse_object_file
    (object_header ty (String.length data) +:+ data)
  = Some (ty, String.length data, data).
Proof.
  intros Hty Hsp Hfit. unfold read_and_parse_object_file, object_header.
  rewrite !app_assoc_s. change (" " +:+ ?x) with (String Str.sp x).
  rewrite find_app by done. rewrite take_app, drop_S_app.
  destruct (String.eqb_spec ty "") as [|_]; [done|].
  change (Str.of_char Str.nul +:+ data) with (String Str.nul data).
  rewrite find_app by (by apply of_N_contains).
  rewrite take_app, drop_S_app.
  destruct (String.eqb_spec (Str.of_nat (String.length data)) "") as [H|_].
  { by apply of_N_nonempty in H. }
  rewrite of_nat_of_Z, stoll_of_Z by (unfold size_fits, Str.LLONG_MIN in *; lia).
  destruct (Z.ltb_spec (Z.of_nat (String.length data)) 0) as [|_]; [lia|].
  rewrite Nat2Z.id, Nat.ltb_irrefl. by rewrite take_all.
Qed.

Lemma save_raw_hash data (o : objects_dir) :
  fst (save_raw data o) = SHA1.sha1 data.
Proof. unfold save_raw. by destruct (o !! _). Qed.

Lemma load_raw_saved (ty data : string) (o : objects_dir) :
  ty <> "" -> Str.contains Str.sp ty = false -> size_fits data ->
  o !! SHA1.sha1 (object_header ty (String.length data) +:+ data) = None ->
  load_raw ty (fst (save_raw (object_header ty (String.length data) +:+ data) o))
    (snd (save_raw (object_header ty (String.length data) +:+ data) o))
  = Some data.
Proof.
  intros Hty Hsp Hfit Hnew. unfold save_raw. rewrite Hnew. cbn [fst snd].
  unfold load_raw. rewrite sha1_length. cbn [Nat.eqb negb].
  rewrite lookup_insert_eq, read_stored_object by done.
  rewrite String.eqb_refl. cbn [negb]. by rewrite String.eqb_refl.
Qed.

(** X2.  A blob saved into a store that has no object of its hash is
    loaded back, with the same content, under the hash that [save]
    returned. *)
Theorem blob_save_then_load (b : Blob.t) (o : objects_dir) :
  size_fits (Blob.content b) ->
  o !! fst (Blob.save b o) = None ->
  Blob.load_by_hash (fst (Blob.save b o)) (snd (Blob.save b o)) = Some b.
Proof.
  intros Hfit Hnew. unfold Blob.load_by_hash, Blob.save, Blob.serialize in *.
  rewrite load_raw_saved; try done.
  - simpl. apply blob_roundtrip.
  - by rewrite save_raw_hash in Hnew.
Qed.

Lemma blob_save_then_load_witness :
  Blob.load_by_hash (fst (Blob.save Sample.hello_blob ∅))
    (snd (Blob.save Sample.hello_blob ∅)) = Some Sample.hello_blob.
Proof.
  apply (blob_save_then_load Sample.hello_blob ∅).
  - vm_compute. discriminate.
  - reflexivity.
Defined.

(** X3.  A tree whose entries can be written (a mode without space, a
    name without NUL, a hash of 40 characters) is loaded back after
    [save]. *)
Theorem tree_save_then_load (tr : Tree.t) (o : objects_dir) :
  Forall entry_wf (Tree.entries tr) ->
  size_fits (Tree.content_data tr) ->
  o !! fst (Tree.save tr o) = None ->
  Tree.load_by_hash (fst (Tree.save tr o)) (snd (Tree.save tr o)) = Some tr.
Proof.
  intros Hwf Hfit Hnew. unfold Tree.load_by_hash, Tree.save, Tree.serialize in *.
  rewrite load_raw_saved; try done.
  - simpl. by apply tree_roundtrip.
  - by rewrite save_raw_hash in Hnew.
Qed.

Lemma tree_save_then_load_witness :
  Tree.load_by_hash (fst (Tree.save SampleCommit.sorted_tree ∅))
    (snd (Tree.save SampleCommit.sorted_tree ∅))
  = Some SampleCommit.sorted_tree.
Proof.
  apply (tree_save_then_load SampleCommit.sorted_tree ∅).
  - apply sample_tree_wf.
  - vm_compute. discriminate.
  - reflexivity.
Defined.

(** X4.  A commit that can be written (see [commit_wf]: hashes of 40
    characters, persons that fit their line, times in whole seconds, a
    message that does not end with a newline) is loaded back after
    [save]. *)
Theorem commit_save_then_load (c : Commit.t) (o : objects_dir) :
  commit_wf c ->
  size_fits (Commit.content_str c) ->
  o !! fst (Commit.save c o) = None ->
  Commit.load_by_hash (fst (Commit.save c o)) (snd (Commit.save c o)) = Some c.
Proof.
  intros Hwf Hfit Hnew.
  unfold Commit.load_by_hash, Commit.save, Commit.serialize in *.
  rewrite load_raw_saved; try done.
  - simpl. by apply commit_roundtrip.
  - by rewrite save_raw_hash in Hnew.
Qed.

Lemma commit_save_then_load_witness :
  Commit.load_by_hash (fst (Commit.save SampleCommit.stored ∅))
    (snd (Commit.save SampleCommit.stored ∅))
  = Some SampleCommit.stored.
Proof.
  apply (commit_save_then_load SampleCommit.stored ∅).
  - apply sample_commit_wf.
  - vm_compute. discriminate.
  - reflexivity.
Defined.

(** The type that is read from the bytes of a saved object. *)
Lemma stored_object_type (ty data : string) n :
  Str.contains Str.sp ty = false ->
  match read_and_parse_object_file (object_header ty n +:+ data) with
  | Some (type_str_read, _, _) => type_str_read = ty
  | None => True
  end.
Proof.
  intros Hsp. unfold read_and_parse_object_file, object_header.
  rewrite !app_assoc_s. change (" " +:+ ?x) with (String Str.sp x).
  rewrite find_app by done. rewrite take_app, drop_S_app.
  destruct (String.eqb ty ""); [done|].
  destruct (Str.find _ _) as [j|]; [|done].
  destruct (String.eqb _ _); [done|].
  destruct (Str.stoll _) as [z|]; [|done].
  destruct (z <? 0); [done|]. by destruct (Nat.ltb _ _).
Qed.

Lemma load_raw_other_type (ty ty' data : string) (o : objects_dir) :
  Str.contains Str.sp ty = false -> ty <> ty' ->
  o !! SHA1.sha1 (object_header ty (String.length data) +:+ data) = None ->
  load_raw ty' (fst (save_raw (object_header ty (String.length data) +:+ data) o))
    (snd (save_raw (object_header ty (String.length data) +:+ data) o))
  = None.
Proof.
  intros Hsp Hne Hnew. unfold save_raw. rewrite Hnew. cbn [fst snd].
  unfold load_raw. rewrite sha1_length. cbn [Nat.eqb negb].
  rewrite lookup_insert_eq.
  pose proof (stored_object_type ty data (String.length data) Hsp) as Ht.
  destruct (read_and_parse_object_file _) as [[[t n] raw]|]; [|done].
  subst t. by apply String.eqb_neq in Hne as ->.
Qed.

(** X5.  An object is loaded only as what it was saved as: the hash of a
    saved blob gives no tree and no commit, the hash of a saved tree no
    blob and no commit, the hash of a saved commit no blob and no tree. *)
Theorem saved_object_keeps_its_type
  (b : Blob.t) (tr : Tree.t) (c : Commit.t) (o : objects_dir) :
  o !! fst (Blob.save b o) = None ->
  o !! fst (Tree.save tr o) = None ->
  o !! fst (Commit.save c o) = None ->
  (Tree.load_by_hash (fst (Blob.save b o)) (snd (Blob.save b o)) = None
   /\ Commit.load_by_hash (fst (Blob.save b o)) (snd (Blob.save b o)) = None)
  /\ (Blob.load_by_hash (fst (Tree.save tr o)) (snd (Tree.save tr o)) = None
      /\ Commit.load_by_hash (fst (Tree.save tr o)) (snd (Tree.save tr o)) = None)
  /\ (Blob.load_by_hash (fst (Commit.save c o)) (snd (Commit.save c o)) = None
      /\ Tree.load_by_hash (fst (Commit.save c o)) (snd (Commit.save c o)) = None).
Proof.
  unfold Blob.load_by_hash, Tree.load_by_hash, Commit.load_by_hash,
    Blob.save, Tree.save, Commit.save, Blob.serialize, Tree.serialize,
    Commit.serialize.
  intros Hb Ht Hc. rewrite save_raw_hash in Hb, Ht, Hc.
  repeat split; by rewrite load_raw_other_type.
Qed.

Lemma saved_object_keeps_its_type_witness :
  Commit.load_by_hash (fst (Tree.save SampleCommit.sorted_tree ∅))
    (snd (Tree.save SampleCommit.sorted_tree ∅)) = None.
Proof.
  apply (saved_object_keeps_its_type Sample.hello_blob SampleCommit.sorted_tree
           SampleCommit.stored ∅); reflexivity.
Defined.

(** ** The index: entries, the file, and the order by path *)

(** *** Paths that read back *)

Lemma split_elements_name (e : string) : forall cur (rest : string),
  Str.contains "/" e = false -> cur +:+ e <> "" ->
  Path.split_elements cur (e +:+ String "/" rest)
  = (cur +:+ e) :: Path.split_elements "" rest.
Proof.
  induction e as [|c e IH]; intros cur rest Hc Hne.
  - rewrite app_nil_l_s. cbn [Path.split_elements]. rewrite Ascii.eqb_refl.
    rewrite app_nil_r_s in *. by destruct cur.
  - cbn [Str.contains] in Hc. apply orb_false_iff in Hc as [Hc1 Hc2].
    rewrite app_cons. cbn [Path.split_elements].
    rewrite Hc1.
    rewrite IH; [|done|].
    + f_equal. by rewrite app_assoc_s.
    + by rewrite app_assoc_s.
Qed.

Lemma split_elements_last (e : string) : forall cur,
  Str.contains "/" e = false -> cur +:+ e <> "" ->
  Path.split_elements cur e = [cur +:+ e].
Proof.
  induction e as [|c e IH]; intros cur Hc Hne.
  - rewrite app_nil_r_s in *. cbn [Path.split_elements]. by destruct cur.
  - cbn [Str.contains] in Hc. apply orb_false_iff in Hc as [Hc1 Hc2].
    cbn [Path.split_elements]. rewrite Hc1.
    rewrite IH; [|done|].
    + f_equal. by rewrite app_assoc_s.
    + by rewrite app_assoc_s.
Qed.

Lemma split_elements_concat els :
  Forall element_wf els ->
  Path.split_elements "" (String.concat "/" els) = els.
Proof.
  induction 1 as [|e els (Hne & Hsl & _) Hall IH]; [done|].
  destruct els as [|e2 els].
  - cbn [String.concat]. by rewrite split_elements_last.
  - change (String.concat "/" (e :: e2 :: els))
      with (e +:+ String "/" (String.concat "/" (e2 :: els))).
    rewrite split_elements_name by done. by rewrite IH.
Qed.

Lemma normal_elements_names abs els : forall rstack,
  Forall element_wf els ->
  Path.normal_elements abs rstack els = rev rstack ++ els.
Proof.
  induction els as [|e els IH]; intros rstack Hall; simpl.
  - by rewrite app_nil_r.
  - apply Forall_cons in Hall as [(_ & _ & Hdot & Hdd) Hall].
    apply String.eqb_neq in Hdot, Hdd. rewrite Hdot, Hdd.
    rewrite IH by done. simpl. by rewrite <- app_assoc.
Qed.

Lemma path_wf_normal p : path_wf p -> Path.lexically_normal p = p.
Proof.
  destruct p as [abs els]. intros (Habs & Hne & Hall). simpl in *. subst abs.
  unfold Path.lexically_normal, Path.is_empty. simpl.
  destruct els as [|e els]; [done|]. cbn [andb negb].
  rewrite normal_elements_names by done. done.
Qed.

Lemma path_wf_string p : path_wf p -> Path.generic_string p <> "".
Proof.
  destruct p as [abs els]. intros (Habs & Hne & Hall). simpl in *. subst abs.
  unfold Path.generic_string. simpl. rewrite app_nil_l_s.
  destruct els as [|e els]; [done|].
  apply Forall_cons in Hall as [(He & _) _].
  destruct els; cbn [String.concat]; [done|].
  destruct e; [done|]. by rewrite app_cons.
Qed.

(** A relative path in normal form is read back from its text. *)
Lemma path_wf_reads_back p :
  path_wf p -> Path.lexically_normal (Path.of_string (Path.generic_string p)) = p.
Proof.
  intros Hwf. pose proof Hwf as (Habs & Hne & Hall).
  destruct p as [abs els]. simpl in *. subst abs.
  unfold Path.of_string, Path.generic_string. simpl. rewrite app_nil_l_s.
  rewrite split_elements_concat by done.
  assert (Str.starts_with "/" (String.concat "/" els) = false) as ->.
  { destruct els as [|e els]; [done|].
    apply Forall_cons in Hall as [(He & Hsl & _) _].
    destruct e as [|c e]; [done|].
    cbn [Str.contains] in Hsl. apply orb_false_iff in Hsl as [Hc _].
    assert (forall r : string, Str.starts_with "/" (String c r) = false) as Hp.
    { intros r. unfold Str.starts_with. cbn [String.prefix].
      destruct (ascii_dec "/" c) as [<-|_]; [|done].
      by rewrite Ascii.eqb_refl in Hc. }
    destruct els; cbn [String.concat]; rewrite ?app_cons; apply Hp. }
  by apply path_wf_normal.
Qed.

(** *** The line of an entry *)

Lemma no_space_head (w : string) :
  no_space w = true ->
  match w with String c _ => Str.isspace c | EmptyString => false end = false.
Proof.
  destruct w as [|c w]; [done|]. unfold no_space. simpl.
  intros [Hc _]%andb_true_iff. by apply negb_true_iff.
Qed.

Lemma extract_word_head (w r : string) :
  w <> "" -> no_space w = true ->
  Str.extract_word (w +:+ String Str.sp r) = Some (w, String Str.sp r).
Proof.
  intros Hne Hw. unfold Str.extract_word.
  rewrite skipws_id.
  - rewrite (span_all (fun c => negb (Str.isspace c)) w (String Str.sp r) Hw eq_refl).
    by destruct w.
  - destruct w as [|c w]; [done|]. rewrite app_cons.
    by apply (no_space_head (String c w)).
Qed.

Lemma extract_word_next (w r : string) :
  w <> "" -> no_space w = true ->
  Str.extract_word (String Str.sp (w +:+ String Str.sp r))
  = Some (w, String Str.sp r).
Proof.
  intros Hne Hw. rewrite <- (extract_word_head w r Hne Hw).
  unfold Str.extract_word. done.
Qed.

Lemma extract_u64_of_N n (r : string) :
  (n < 2 ^ 64)%N -> starts_with_digit r = false ->
  extract_u64 (String Str.sp (Str.of_N n +:+ r)) = Some (n, r).
Proof.
  intros Hn Hr. unfold extract_u64.
  change (Str.skipws (String Str.sp (Str.of_N n +:+ r)))
    with (Str.skipws (Str.of_N n +:+ r)).
  assert (Str.of_N n = Str.of_Z (Z.of_N n)) as Hz.
  { unfold Str.of_Z. destruct (Z.ltb_spec (Z.of_N n) 0) as [|_]; [lia|].
    by rewrite N2Z.id. }
  rewrite Hz. rewrite skipws_id by apply of_Z_head.
  rewrite scan_integer_of_Z by done.
  assert ((- 2 ^ 64 <? Z.of_N n) = true) as -> by (apply Z.ltb_lt; lia).
  assert ((Z.of_N n <? 2 ^ 64) = true) as -> by (apply Z.ltb_lt; lia).
  cbn [andb]. rewrite Z.mod_small by lia. by rewrite N2Z.id.
Qed.

Lemma entry_line_reads_back e :
  index_entry_wf e -> parse_from_line (format_for_file e) = Some e.
Proof.
  intros (Hm & Hms & Hh & Hhs & Hsec & Hsize & Hpath & Hnl).
  unfold format_for_file, parse_from_line.
  rewrite ?app_assoc_s, ?app_cons, ?app_nil_l_s.
  rewrite extract_word_head by done. cbn [mbind option_bind].
  assert (blob_hash_hex e <> "") as Hhne by (intros H; by rewrite H in Hh).
  rewrite extract_word_next by done. cbn [mbind option_bind].
  rewrite extract_ll_of_Z by done. cbn [mbind option_bind].
  rewrite extract_ll_of_Z; [|pose proof (Z.rem_bound_abs (mtime e) 1000000000);
                             unfold Str.LLONG_MIN, Str.LLONG_MAX; lia|done].
  cbn [mbind option_bind].
  rewrite extract_u64_of_N by done. cbn [mbind option_bind].
  rewrite Ascii.eqb_refl.
  destruct (String.eqb_spec (Path.generic_string (file_path e)) "") as [H|_].
  { by apply path_wf_string in H. }
  rewrite Hh. cbn [Nat.eqb negb].
  rewrite path_wf_reads_back by done.
  destruct e as [m h t sz p]. simpl.
  by rewrite Z.mul_comm, <- Z.quot_rem'.
Qed.

Lemma format_for_file_no_nl e :
  index_entry_wf e -> Str.contains Str.nl (format_for_file e) = false.
Proof.
  intros (Hm & Hms & Hh & Hhs & Hsec & Hsize & Hpath & Hnl).
  unfold format_for_file. rewrite !contains_app.
  rewrite (no_space_no_nl (ie_mode e)), (no_space_no_nl (blob_hash_hex e)),
    !of_Z_no_nl, of_N_no_nl, Hnl by done.
  reflexivity.
Qed.

Lemma format_for_file_not_blank e :
  index_entry_wf e -> Str.blank (format_for_file e) = false.
Proof.
  intros (Hm & Hms & _). unfold format_for_file, Str.blank.
  rewrite ?app_assoc_s. rewrite all_of_app.
  destruct (ie_mode e) as [|c m]; [done|].
  apply no_space_head in Hms. simpl. by rewrite Hms.
Qed.

Lemma getlines_entries es :
  Forall index_entry_wf es ->
  Str.getlines
    (String.concat ""
       (map (fun e => format_for_file e +:+ Str.of_char Str.nl) es))
  = map format_for_file es.
Proof.
  induction 1 as [|e es He Hall IH]; [done|].
  cbn [map]. rewrite concat_empty_cons.
  rewrite app_assoc_s, getlines_line by (by apply format_for_file_no_nl).
  by rewrite IH.
Qed.

Lemma load_lines_entries es : forall acc,
  Forall index_entry_wf es ->
  Index.load_lines (map format_for_file es) acc = Some (acc ++ es).
Proof.
  induction es as [|e es IH]; intros acc Hall; simpl.
  - by rewrite app_nil_r.
  - apply Forall_cons in Hall as [He Hall].
    rewrite format_for_file_not_blank, entry_line_reads_back by done.
    rewrite IH by done. by rewrite <- app_assoc.
Qed.

(** X6.  An index whose entries can be written (see [index_entry_wf]) and
    whose file was written is loaded back from that file: the load
    succeeds and gives the same entries, in the order of their paths. *)
Theorem index_write_then_load (idx idx0 : Index.t) (fs fs' : files) :
  Forall index_entry_wf (Index.entries_ idx) ->
  Index.write idx fs = (true, fs') ->
  Index.load fs' idx0
  = (true, Index.mk (std_sort IndexEntry_lt (Index.entries_ idx)) true).
Proof.
  intros Hwf. unfold Index.write.
  destruct (Fs.write fs _ _) as [fs1|] eqn:Hw; [|done]. intros [= <-].
  unfold Fs.write in Hw.
  destruct (Fs.is_directory fs _); [done|].
  destruct (negb _); [done|]. injection Hw as <-.
  unfold Index.load, Fs.exists_, Fs.read. rewrite lookup_insert_eq.
  cbn [negb]. rewrite getlines_entries, load_lines_entries by done.
  done.
Qed.

Lemma index_write_then_load_witness :
  Index.load
    (snd (Index.write (Index.mk [SampleIndex.entry_a] true)
            SampleIndex.without_index)) Index.new
  = (true, Index.mk [SampleIndex.entry_a] true).
Proof.
  apply (index_write_then_load (Index.mk [SampleIndex.entry_a] true) Index.new
           SampleIndex.without_index).
  - constructor; [|constructor].
    repeat split; try (vm_compute; congruence).
    repeat constructor; vm_compute; congruence.
  - reflexivity.
Defined.

(** *** The order of paths *)

Lemma compare_lt_trans (x y z : string) :
  String.compare x y = Lt -> String.compare y z = Lt -> String.compare x z = Lt.
Proof.
  intros Hxy Hyz.
  assert (String.le x y) as Lxy by (unfold String.le, String.leb; by rewrite Hxy).
  assert (String.le y z) as Lyz by (unfold String.le, String.leb; by rewrite Hyz).
  pose proof (transitivity Lxy Lyz) as Lxz.
  unfold String.le, String.leb in Lxz.
  destruct (String.compare x z) eqn:Hxz; [|done|done].
  apply String.compare_eq_iff in Hxz as ->.
  rewrite String.compare_antisym, Hxy in Hyz. done.
Qed.

Lemma compare_same (x : string) : String.compare x x = Eq.
Proof.
  pose proof (String.compare_antisym x x) as H.
  by destruct (String.compare x x).
Qed.

Lemma elements_ltb_irrefl a : Path.elements_ltb a a = false.
Proof.
  induction a as [|x a IH]; simpl; [done|]. by rewrite compare_same.
Qed.

Lemma elements_ltb_trans a : forall b c,
  Path.elements_ltb a b = true -> Path.elements_ltb b c = true ->
  Path.elements_ltb a c = true.
Proof.
  induction a as [|x a IH]; intros [|y b] [|z c]; simpl; try done.
  destruct (String.compare x y) eqn:Hxy; [|intros _|done].
  - apply String.compare_eq_iff in Hxy as ->.
    destruct (String.compare y z); [apply IH|done|done].
  - destruct (String.compare y z) eqn:Hyz; [|intros _|done].
    + apply String.compare_eq_iff in Hyz as <-. by rewrite Hxy.
    + by rewrite (compare_lt_trans x y z).
Qed.

Lemma path_ltb_irrefl p : Path.ltb p p = false.
Proof.
  unfold Path.ltb. destruct (Path.is_absolute p); apply elements_ltb_irrefl.
Qed.

Lemma path_ltb_trans p q r :
  Path.ltb p q = true -> Path.ltb q r = true -> Path.ltb p r = true.
Proof.
  unfold Path.ltb.
  destruct (Path.is_absolute p), (Path.is_absolute q), (Path.is_absolute r);
    try done; apply elements_ltb_trans.
Qed.

Lemma path_ltb_asym p q : Path.ltb p q = true -> Path.ltb q p = false.
Proof.
  intros H. destruct (Path.ltb q p) eqn:H'; [|done].
  by rewrite <- (path_ltb_irrefl p), <- (path_ltb_trans p q p H H').
Qed.

Lemma entry_le_trans : Transitive (not_after IndexEntry_lt).
Proof.
  intros a b c. unfold not_after, IndexEntry_lt. intros Hab Hbc.
  destruct (Path.ltb (file_path c) (file_path a)) eqn:Hca; [|done].
  destruct (Path.ltb (file_path a) (file_path b)) eqn:Hlt.
  - by rewrite (path_ltb_trans _ _ _ Hca Hlt) in Hbc.
  - rewrite (path_ltb_total _ _ Hlt Hab) in Hca. congruence.
Qed.

Lemma index_sort_sorted l :
  StronglySorted (not_after IndexEntry_lt) (std_sort IndexEntry_lt l).
Proof.
  apply (@Sorted_StronglySorted _ _ entry_le_trans).
  apply std_sort_sorted. intros x y. apply path_ltb_asym.
Qed.

(** In a list in the order of the paths, [std::lower_bound] comes to an
    entry of the path when there is one. *)
Lemma lower_bound_finds l p x :
  StronglySorted (not_after IndexEntry_lt) l ->
  In x l -> file_path x = p ->
  exists e, Index.lower_bound l p = Some e /\ file_path e = p /\ In e l.
Proof.
  induction 1 as [|y l Hl IH Hall]; [done|]. intros Hin Hp. simpl.
  destruct (Path.ltb (file_path y) p) eqn:Hlt.
  - destruct Hin as [->|Hin].
    { subst p. by rewrite path_ltb_irrefl in Hlt. }
    destruct (IH Hin Hp) as (e & He & Hpe & Hine). eauto.
  - exists y. split; [done|]. split; [|by left].
    destruct Hin as [->|Hin]; [done|].
    rewrite Forall_forall in Hall. apply list_elem_of_In in Hin.
    specialize (Hall x Hin).
    unfold not_after, IndexEntry_lt in Hall. rewrite Hp in Hall.
    by apply path_ltb_total.
Qed.

Lemma distinct_paths_same l (a b : IndexEntry) :
  NoDup (map file_path l) -> In a l -> In b l ->
  file_path a = file_path b -> a = b.
Proof.
  induction l as [|x l IH]; simpl; [done|].
  intros [Hx Hnd]%NoDup_cons [->|Ha] [->|Hb] Hp; try done.
  - destruct Hx. apply list_elem_of_In. rewrite Hp. by apply in_map.
  - destruct Hx. apply list_elem_of_In. rewrite <- Hp. by apply in_map.
  - by apply IH.
Qed.

(** *** Adding, finding and removing entries *)

(** X7.  After [add_or_update_entry] succeeded on an index of different
    paths, [get_entry] of that path gives the entry that was added, the
    paths are still different, and the entries are in the order of their
    paths. *)
Theorem index_add_then_get
  (fs : files) (p : Path.t) (h m : string) (t : time_point) (sz : N)
  (idx idx1 idx' : Index.t) :
  Index.ensure_loaded fs idx = (true, idx1) ->
  index_paths_distinct idx1 ->
  Path.lexically_normal p = p ->
  Index.add_or_update_entry fs p h m t sz idx = (true, idx') ->
  Index.get_entry p idx' = Some (mkIndexEntry m h t sz p)
  /\ index_paths_distinct idx'
  /\ StronglySorted (not_after IndexEntry_lt) (Index.entries_ idx').
Proof.
  intros Hens Hnd Hnorm. unfold Index.add_or_update_entry. rewrite Hens.
  cbn [negb]. destruct (negb _); [done|].
  set (new_entry := mkIndexEntry m h t sz p).
  set (rf := fix replace_first (l : list IndexEntry) : option (list IndexEntry) :=
               match l with
               | [] => None
               | e :: l' =>
                   if Path.eqb (file_path e) p then Some (new_entry :: l')
                   else option_map (cons e) (replace_first l')
               end).
  set (es := match rf (Index.entries_ idx1) with
             | Some l => l
             | None => Index.entries_ idx1 ++ [new_entry]
             end).
  intros [= <-].
  assert (forall l, NoDup (map file_path l) ->
            match rf l with
            | Some l' => In new_entry l' /\ map file_path l' = map file_path l
            | None => ~ In p (map file_path l)
            end) as Hrf.
  { induction l as [|e l IH]; simpl; [by intros _ []|].
    intros [He Hl]%NoDup_cons.
    destruct (Path.eqb (file_path e) p) eqn:Hep.
    - apply path_eqb_eq in Hep. split; [by left|]. simpl. by rewrite Hep.
    - specialize (IH Hl). destruct (rf l) as [l'|]; simpl.
      + destruct IH as [Hin Hmap]. split; [by right|]. by rewrite Hmap.
      + intros [Heq|Hin]; [|done]. by rewrite Heq, path_eqb_refl in Hep. }
  assert (In new_entry es /\ NoDup (map file_path es)) as [Hin Hnd'].
  { subst es. specialize (Hrf _ Hnd).
    destruct (rf (Index.entries_ idx1)) as [l'|].
    - destruct Hrf as [Hin Hmap]. split; [done|]. by rewrite Hmap.
    - split; [apply in_app_iff; right; by left|].
      rewrite map_app. simpl. apply NoDup_app. split; [done|].
      split; [|apply NoDup_singleton].
      intros x Hx ->%list_elem_of_singleton. apply Hrf.
      by apply list_elem_of_In. }
  unfold Index.sort_entries_, index_paths_distinct. cbn [Index.entries_].
  pose proof (std_sort_perm IndexEntry_lt es) as Hperm.
  pose proof (index_sort_sorted es) as Hsorted.
  assert (NoDup (map file_path (std_sort IndexEntry_lt es))) as Hnds.
  { assert (map file_path (std_sort IndexEntry_lt es) ≡ₚ map file_path es)
      as Hpm by by apply Permutation_map.
    by rewrite Hpm. }
  split; [|by split].
  unfold Index.get_entry. cbn [Index.entries_]. rewrite Hnorm.
  assert (In new_entry (std_sort IndexEntry_lt es)) as Hin'.
  { eapply Permutation_in; [symmetry; exact Hperm|done]. }
  destruct (lower_bound_finds _ p new_entry Hsorted Hin' eq_refl)
    as (e & -> & Hpe & Hine).
  rewrite Hpe, path_eqb_refl. f_equal.
  by apply (distinct_paths_same (std_sort IndexEntry_lt es)).
Qed.

Lemma index_add_then_get_witness :
  Index.get_entry (Path.of_string "sub/f.txt")
    (snd (Index.add_or_update_entry SampleIndex.without_index
            (Path.of_string "sub/f.txt") Sample.hello_hash "100644"
            1700000000000000005 6 (Index.mk [SampleIndex.entry_a] true)))
  = Some SampleRm.entry.
Proof.
  refine (proj1 (index_add_then_get SampleIndex.without_index
                   (Path.of_string "sub/f.txt") Sample.hello_hash "100644"
                   1700000000000000005 6 (Index.mk [SampleIndex.entry_a] true)
                   (Index.mk [SampleIndex.entry_a] true) _ _ _ _ _)).
  - reflexivity.
  - repeat constructor. inversion 1.
  - reflexivity.
  - vm_compute. reflexivity.
Defined.

(** X8.  After [remove_entry], [get_entry] finds nothing at the path; the
    call returns true exactly when an entry had the path, and the entries
    of other paths stay, in their order. *)
Theorem index_remove_then_get
  (fs : files) (p : Path.t) (idx idx1 idx' : Index.t) (removed : bool) :
  Index.ensure_loaded fs idx = (true, idx1) ->
  Path.lexically_normal p = p ->
  Index.remove_entry fs p idx = (removed, idx') ->
  Index.get_entry p idx' = None
  /\ (removed = true <-> In p (map file_path (Index.entries_ idx1)))
  /\ Index.entries_ idx'
     = List.filter (fun e => negb (Path.eqb (file_path e) p))
         (Index.entries_ idx1).
Proof.
  intros Hens Hnorm. unfold Index.remove_entry. rewrite Hens. cbn [negb].
  intros [= <- <-]. cbn [Index.entries_]. split; [|split; [|done]].
  - unfold Index.get_entry. rewrite Hnorm. cbn [Index.entries_].
    destruct (Index.lower_bound _ p) as [e|] eqn:He; [|done].
    apply lower_bound_In, filter_In in He as [_ He].
    apply negb_true_iff in He. by rewrite He.
  - rewrite Nat.ltb_lt. split.
    + intros Hlt. induction (Index.entries_ idx1) as [|e l IH]; simpl in *; [lia|].
      destruct (Path.eqb (file_path e) p) eqn:Hep; simpl in *.
      * left. by apply path_eqb_eq.
      * right. apply IH. lia.
    + intros (e & <- & Hin)%in_map_iff.
      apply (filter_drops_one _ _ e Hin). by rewrite path_eqb_refl.
Qed.

Lemma index_remove_then_get_witness :
  Index.get_entry SampleRm.tracked
    (snd (Index.remove_entry SampleIndex.without_index SampleRm.tracked
            (Index.mk [SampleIndex.entry_a; SampleRm.entry] true)))
  = None.
Proof.
  refine (proj1 (index_remove_then_get SampleIndex.without_index SampleRm.tracked
                   (Index.mk [SampleIndex.entry_a; SampleRm.entry] true)
                   (Index.mk [SampleIndex.entry_a; SampleRm.entry] true)
                   _ _ _ _ _)); reflexivity.
Defined.

(** ** References: [update_ref] and the resolution of names *)

Lemma xdigit_no_space (s : string) :
  Str.all_of Str.isxdigit s = true -> no_space s = true.
Proof.
  unfold no_space. induction s as [|c s IH]; simpl; [done|].
  intros [Hc Hs]%andb_true_iff. rewrite IH by done. rewrite andb_true_r.
  destruct (Str.isspace c) eqn:Hsp; [|done].
  revert Hc Hsp. unfold Str.isxdigit, Str.isspace.
  destruct c as [[] [] [] [] [] [] [] []]; vm_compute; congruence.
Qed.

(** A hash followed by a newline is read back by [in >> word]. *)
Lemma read_hash_line (fs : files) (p h : string) :
  String.length h = 40%nat -> no_space h = true ->
  Repository.read_hash (<[p := File (h +:+ Str.of_char Str.nl)]> fs) p = Some h.
Proof.
  intros Hlen Hns. unfold Repository.read_hash, Fs.read.
  rewrite lookup_insert_eq. unfold Str.extract_word.
  assert (h <> "") as Hne by (intros ->; done).
  rewrite skipws_id.
  - rewrite (span_all (fun c => negb (Str.isspace c)) h (Str.of_char Str.nl) Hns eq_refl).
    destruct h; [done|]. by rewrite Hlen.
  - destruct h as [|c h]; [done|]. rewrite app_cons.
    by apply (no_space_head (String c h)).
Qed.

Lemma prefix_app_l (a b s : string) :
  String.prefix (a +:+ b) s = true -> String.prefix a s = true.
Proof.
  revert s. induction a as [|c a IH]; intros s; [by destruct s|].
  rewrite app_cons. destruct s as [|d s]; simpl; [done|].
  destruct (ascii_dec c d); [apply IH|done].
Qed.

Lemma create_directories_from_read els : forall fs prefix fs1 p,
  Fs.create_directories_from fs prefix els = Some fs1 ->
  Fs.read fs1 p = Fs.read fs p.
Proof.
  induction els as [|e els IH]; intros fs prefix fs1 p; simpl.
  - by intros [= <-].
  - set (q := match prefix with "" => e | _ => _ end).
    destruct (fs !! q) as [[c|]|] eqn:Hq; [done|apply IH|].
    intros H. rewrite (IH _ _ _ _ H). unfold Fs.read.
    destruct (decide (p = q)) as [->|Hne].
    + by rewrite lookup_insert_eq, Hq.
    + by rewrite lookup_insert_ne.
Qed.

(** What every way out of [update_ref] has in common. *)
Lemma update_ref_cases r ref_name new_hash expected allow res r' :
  Repository.update_ref r ref_name new_hash expected allow = (res, r') ->
  (res <> SUCCESS /\ res <> IO_ERROR /\ r' = r)
  \/ (res = IO_ERROR
      /\ exists fs1, r' = Repository.set_gitdir fs1 r
           /\ forall p, Fs.read fs1 p = Fs.read (Repository.gitdir r) p)
  \/ (res = SUCCESS
      /\ Repository.invalid_ref_name ref_name = false
      /\ String.length new_hash = 40%nat
      /\ Str.all_of Str.isxdigit new_hash = true
      /\ is_Some (Commit.load_by_hash new_hash (Repository.objects r))
      /\ exists fs1,
           r' = Repository.set_gitdir
                  (<[ref_name := File (new_hash +:+ Str.of_char Str.nl)]> fs1) r
           /\ forall p, Fs.read fs1 p = Fs.read (Repository.gitdir r) p).
Proof.
  unfold Repository.update_ref.
  destruct (Repository.invalid_ref_name ref_name) eqn:Hname.
  { intros [= <- <-]. left. done. }
  destruct (Nat.eqb_spec (String.length new_hash) 40) as [Hlen|_];
    [|intros [= <- <-]; by left].
  destruct (Str.all_of Str.isxdigit new_hash) eqn:Hhex;
    [|intros [= <- <-]; by left].
  cbn [negb orb].
  destruct (Commit.load_by_hash new_hash (Repository.objects r)) as [c|] eqn:Hc;
    [|intros [= <- <-]; by left].
  destruct (_ && _); [intros [= <- <-]; right; left; split; [done|];
                      exists (Repository.gitdir r); split; [by destruct r|done]|].
  destruct (if Fs.exists_ _ _ then _ else _) as [existed current].
  destruct (match expected with Some _ => _ | None => _ end) as [refusal|] eqn:Hexp.
  { intros [= <- <-]. left. split; [|split; [|done]].
    - destruct expected as [e|]; [|done].
      destruct (negb existed); [congruence|]. destruct (negb _); congruence.
    - destruct expected as [e|]; [|done].
      destruct (negb existed); [congruence|]. destruct (negb _); congruence. }
  destruct (_ && _ && _ && _ && _); [intros [= <- <-]; by left|].
  destruct (if negb _ then _ else _) as [fs1|] eqn:Hmade;
    [|intros [= <- <-]; right; left; split; [done|];
      exists (Repository.gitdir r); split; [by destruct r|done]].
  assert (forall p, Fs.read fs1 p = Fs.read (Repository.gitdir r) p) as Hread.
  { intros p. revert Hmade. destruct (negb (_ || _)).
    - apply create_directories_from_read.
    - destruct (negb (Fs.is_directory _ _)); [done|]. by intros [= <-]. }
  destruct (Fs.write fs1 ref_name _) as [fs2|] eqn:Hw;
    [|intros [= <- <-]; right; left; split; [done|]; by exists fs1].
  unfold Fs.write in Hw. destruct (Fs.is_directory fs1 ref_name); [done|].
  destruct (negb (Fs.is_directory fs1 _)); [done|]. injection Hw as <-.
  intros [= <- <-]. right. right. repeat split; try done; eauto.
Qed.





Lemma try_ref_file_found r p h :
  Repository.try_ref_file r p = Repository.RefFound h ->
  String.length h = 40%nat
  /\ is_Some (Commit.load_by_hash h (Repository.objects r)).
Proof.
  unfold Repository.try_ref_file, Repository.read_hash.
  destruct (_ && _); [|done].
  destruct (Fs.read _ _) as [content|]; [|done].
  destruct (Str.extract_word content) as [[w rest]|]; [|done].
  destruct (Nat.eqb_spec (String.length w) 40) as [Hlen|_]; [|done].
  destruct (Commit.load_by_hash w _) eqn:Hc; [|done].
  intros [= <-]. split; [done|]. by rewrite Hc.
Qed.

Lemma head_hash_length r h :
  Repository._get_head_commit_hash r = Some h -> String.length h = 40%nat.
Proof.
  unfold Repository._get_head_commit_hash, Repository.read_hash.
  destruct (negb _); [done|].
  destruct (Repository.first_line _ _) as [line|]; [|done].
  destruct (Repository.symbolic_target line) as [target|].
  - destruct (Fs.exists_ _ _); [|done].
    destruct (Fs.read _ _) as [content|]; [|done].
    destruct (Str.extract_word content) as [[w rest]|]; [|done].
    destruct (Nat.eqb_spec (String.length w) 40) as [Hlen|_]; [|done].
    by intros [= <-].
  - destruct (Nat.eqb_spec (String.length line) 40) as [Hlen|_]; [|done].
    by intros [= <-].
Qed.

Lemma resolve_commit_ish_cases (r : Repository.t) (name h : string) :
  Repository._resolve_commit_ish_to_full_hash r name = Some h ->
  String.length h = 40%nat
  /\ (name = "HEAD"
      \/ is_Some (Commit.load_by_hash h (Repository.objects r))).
Proof.
  assert (forall n, Repository.resolve_hash_prefix r n = Some h ->
            String.length h = 40%nat
            /\ is_Some (Commit.load_by_hash h (Repository.objects r))) as Hprefix.
  { intros n. unfold Repository.resolve_hash_prefix.
    destruct (_ && _ && _); [|done].
    destruct (Repository._find_object_file_by_prefix r n) as [full|]; [|done].
    destruct (Nat.eqb_spec (String.length full) 40) as [Hlen|_]; [|done].
    destruct (Commit.load_by_hash full _) eqn:Hc; [|done].
    intros [= <-]. split; [done|]. by rewrite Hc. }
  assert (forall n, Repository.resolve_short_name r n = Some h ->
            String.length h = 40%nat
            /\ is_Some (Commit.load_by_hash h (Repository.objects r))) as Hshort.
  { intros n. unfold Repository.resolve_short_name.
    destruct (if negb _ then Repository.try_ref_file r ("refs/heads/" +:+ n)
              else _) as [h1| |] eqn:Hb.
    - intros [= ->]. destruct (negb _); [|done].
      by apply try_ref_file_found in Hb.
    - destruct (if negb _ then Repository.try_ref_file r ("refs/tags/" +:+ n)
                else _) as [h2| |] eqn:Ht; [|apply (Hprefix n)..].
      intros [= ->]. destruct (negb _); [|done].
      by apply try_ref_file_found in Ht.
    - destruct (if negb _ then Repository.try_ref_file r ("refs/tags/" +:+ n)
                else _) as [h2| |] eqn:Ht; [|apply (Hprefix n)..].
      intros [= ->]. destruct (negb _); [|done].
      by apply try_ref_file_found in Ht. }
  assert (forall n, Repository.resolve_remote_name r n = Some h ->
            String.length h = 40%nat
            /\ is_Some (Commit.load_by_hash h (Repository.objects r))) as Hremote.
  { intros n. unfold Repository.resolve_remote_name.
    destruct (match Str.find "/" n with Some _ => _ | None => _ end)
      as [path|]; [|apply (Hshort n)].
    destruct (Repository.try_ref_file r path) as [h1| |] eqn:Hr;
      [|apply (Hshort n)|done].
    intros [= ->]. by apply try_ref_file_found in Hr. }
  unfold Repository._resolve_commit_ish_to_full_hash.
  destruct (String.eqb_spec name "") as [|_]; [done|].
  destruct (String.eqb_spec name "HEAD") as [->|_].
  { intros H. split; [by eapply head_hash_length|by left]. }
  intros H. assert (String.length h = 40%nat
    /\ is_Some (Commit.load_by_hash h (Repository.objects r))) as [? ?];
    [|by split; [|right]].
  destruct (Str.starts_with "refs/" name); [|by apply (Hremote name)].
  destruct (Repository.try_ref_file r name) as [h1| |] eqn:Hr;
    [|by apply (Hremote name)|done].
  injection H as ->. by apply try_ref_file_found in Hr.
Qed.

(** X11.  What [_resolve_commit_ish_to_full_hash] returns has 40
    characters, and unless the name is [HEAD] it is the hash of a commit
    that loads from the object store. *)
Theorem resolved_name_is_a_commit (r : Repository.t) (name h : string) :
  Repository._resolve_commit_ish_to_full_hash r name = Some h ->
  String.length h = 40%nat
  /\ (name = "HEAD"
      \/ is_Some (Commit.load_by_hash h (Repository.objects r))).
Proof. apply resolve_commit_ish_cases. Qed.

Lemma resolved_name_is_a_commit_witness :
  String.length SampleMerge.h_theirs = 40%nat
  /\ ("feature" = "HEAD"
      \/ is_Some (Commit.load_by_hash SampleMerge.h_theirs
                    (Repository.objects SampleMerge.repo))).
Proof.
  apply (resolved_name_is_a_commit SampleMerge.repo "feature").
  vm_compute. reflexivity.
Defined.

(** ** The search for a common ancestor, with merges *)

#[local] Set Warnings "-clear-no-such-hyp".

Section AncestorSearch.
Context (load : string -> option Commit.t).

Lemma enqueue_parents_spec parents : forall vis q vis' q',
  enqueue_parents parents vis q = (vis', q') ->
  (forall x, x ∈ vis' <-> x ∈ vis \/ In x parents)
  /\ (forall x, In x q' -> In x q \/ (In x parents /\ x ∉ vis))
  /\ (forall x, In x q -> In x q')
  /\ (forall x, In x parents -> x ∈ vis \/ In x q')
  /\ (forall x, x ∈ vis' -> x ∈ vis \/ In x q').
Proof.
  induction parents as [|p ps IH]; intros vis q vis' q'; simpl.
  - intros [= <- <-]. repeat split; try tauto; by intros [?|[]].
  - case_bool_decide as Hp.
    + intros H. destruct (IH _ _ _ _ H) as (H1 & H2 & H3 & H4 & H5).
      repeat split.
      * rewrite H1. intros [?|?]; tauto.
      * rewrite H1. intros [?|[<-|?]]; tauto.
      * intros x Hx. destruct (H2 x Hx) as [?|[? ?]]; tauto.
      * done.
      * intros x [<-|Hx]; [by left|by apply H4].
      * done.
    + intros H. destruct (IH _ _ _ _ H) as (H1 & H2 & H3 & H4 & H5).
      repeat split.
      * rewrite H1. set_solver.
      * rewrite H1. set_solver.
      * intros x Hx. destruct (H2 x Hx) as [Hq|[? Hn]].
        -- apply in_app_iff in Hq as [?|[<-|[]]]; [tauto|]. right. tauto.
        -- right. split; [tauto|]. set_solver.
      * intros x Hx. apply H3, in_app_iff. by left.
      * intros x [<-|Hx].
        -- right. apply H3, in_app_iff. right. by left.
        -- destruct (H4 x Hx) as [Hv|?]; [|by right].
           apply elem_of_union in Hv as [->%elem_of_singleton|?]; [|by left].
           right. apply H3, in_app_iff. right. by left.
      * intros x Hx. destruct (H5 x Hx) as [Hv|?]; [|by right].
        apply elem_of_union in Hv as [->%elem_of_singleton|?]; [|by left].
        right. apply H3, in_app_iff. right. by left.
Qed.

(** Every hash that the first search collects is reached from the hashes
    it started with. *)
Lemma collect_ancestors_sound (R : string -> Prop) fuel :
  (forall h p, R h -> parent_link load h p -> R p) ->
  forall q vis anc s,
    (forall x, In x q -> R x) -> (forall x, x ∈ anc -> R x) ->
    collect_ancestors load fuel q vis anc = Some s ->
    forall x, x ∈ s -> R x.
Proof.
  intros Hclosed. induction fuel as [|fuel IH]; intros q vis anc s Hq Hanc.
  - destruct q; simpl; [|done]. by intros [= <-].
  - destruct q as [|c q]; simpl; [by intros [= <-]|].
    assert (forall x, x ∈ {[c]} ∪ anc -> R x) as Hanc'.
    { intros x [->%elem_of_singleton|?]%elem_of_union; [apply Hq; by left|auto]. }
    destruct (load c) as [commit|] eqn:Hc.
    + destruct (enqueue_parents _ vis q) as [vis' q'] eqn:He.
      apply IH; [|done].
      intros x Hx. destruct (enqueue_parents_spec _ _ _ _ _ He) as (_ & H2 & _).
      destruct (H2 x Hx) as [?|[Hp _]]; [apply Hq; by right|].
      apply (Hclosed c); [apply Hq; by left|]. by exists commit.
    + apply IH; [|done]. intros x Hx. apply Hq. by right.
Qed.

(** The first search collects everything that is reached. *)
Lemma collect_ancestors_closed fuel : forall q vis anc s,
  (forall x, x ∈ vis -> x ∈ anc \/ In x q) ->
  (forall x p, x ∈ anc -> parent_link load x p -> p ∈ anc \/ In p q) ->
  collect_ancestors load fuel q vis anc = Some s ->
  (forall x, x ∈ anc -> x ∈ s) /\ (forall x, In x q -> x ∈ s)
  /\ (forall x p, x ∈ s -> parent_link load x p -> p ∈ s).
Proof.
  induction fuel as [|fuel IH]; intros q vis anc s Hvis Hanc.
  - destruct q; simpl; [|done]. intros [= <-].
    split; [done|]. split; [by intros ? []|].
    intros x p Hx Hl. by destruct (Hanc x p Hx Hl).
  - destruct q as [|c q]; simpl.
    { intros [= <-]. split; [done|]. split; [by intros ? []|].
      intros x p Hx Hl. by destruct (Hanc x p Hx Hl). }
    destruct (load c) as [commit|] eqn:Hc.
    + destruct (enqueue_parents _ vis q) as [vis' q'] eqn:He.
      destruct (enqueue_parents_spec _ _ _ _ _ He) as (H1 & H2 & H3 & H4 & H5).
      intros Hs. apply IH in Hs as (Ha & Hq & Hcl).
      * split; [intros x Hx; apply Ha; set_solver|].
        split; [|done]. intros x [<-|Hx]; [apply Ha; set_solver|by apply Hq, H3].
      * intros x Hx. destruct (H5 x Hx) as [Hv|?]; [|by right].
        destruct (Hvis x Hv) as [?|[<-|?]];
          [left; set_solver|left; set_solver|right; by apply H3].
      * intros x p [->%elem_of_singleton|Hx]%elem_of_union Hl.
        -- destruct Hl as (c' & Hc' & Hp). rewrite Hc in Hc'. injection Hc' as <-.
           destruct (H4 p Hp) as [Hv|?]; [|by right].
           destruct (Hvis p Hv) as [?|[<-|?]];
             [left; set_solver|left; set_solver|right; by apply H3].
        -- destruct (Hanc x p Hx Hl) as [?|[<-|?]];
             [left; set_solver|left; set_solver|right; by apply H3].
    + intros Hs. apply IH in Hs as (Ha & Hq & Hcl).
      * split; [intros x Hx; apply Ha; set_solver|].
        split; [|done]. intros x [<-|Hx]; [apply Ha; set_solver|by apply Hq].
      * intros x Hx. destruct (Hvis x Hx) as [?|[<-|?]];
          [left; set_solver|left; set_solver|by right].
      * intros x p [->%elem_of_singleton|Hx]%elem_of_union Hl.
        -- destruct Hl as (c' & Hc' & _). congruence.
        -- destruct (Hanc x p Hx Hl) as [?|[<-|?]];
             [left; set_solver|left; set_solver|by right].
Qed.

Lemma first_common_sound (R : string -> Prop) fuel :
  (forall h p, R h -> parent_link load h p -> R p) ->
  forall q vis (s : gset string) y,
    (forall x, In x q -> R x) ->
    first_common load fuel q vis s = Some (Some y) -> y ∈ s /\ R y.
Proof.
  intros Hclosed. induction fuel as [|fuel IH]; intros q vis s y Hq.
  - by destruct q.
  - destruct q as [|c q]; simpl; [done|].
    case_bool_decide as Hin.
    { intros [= <-]. split; [done|]. apply Hq. by left. }
    destruct (load c) as [commit|] eqn:Hc.
    + destruct (enqueue_parents _ vis q) as [vis' q'] eqn:He.
      apply IH. intros x Hx.
      destruct (enqueue_parents_spec _ _ _ _ _ He) as (_ & H2 & _).
      destruct (H2 x Hx) as [?|[Hp _]]; [apply Hq; by right|].
      apply (Hclosed c); [apply Hq; by left|]. by exists commit.
    + apply IH. intros x Hx. apply Hq. by right.
Qed.

Lemma find_common_ancestor_sound fuel a b y :
  _find_common_ancestor load fuel a b = Some (Some y) ->
  ancestor_or_self load a y /\ ancestor_or_self load b y.
Proof.
  unfold _find_common_ancestor. destruct (_ || _); [done|].
  destruct (String.eqb_spec a b) as [<-|_].
  { intros [= <-]. split; apply rtc_refl. }
  destruct (collect_ancestors load fuel [a] {[a]} ∅) as [s|] eqn:Hs; [|done].
  intros Hy.
  apply (first_common_sound (ancestor_or_self load b)) in Hy as [Hys Hby].
  - split; [|done].
    apply (collect_ancestors_sound (ancestor_or_self load a) fuel) with
      (q := [a]) (vis := {[a]}) (anc := ∅) (s := s); try done.
    + intros h p Hh Hl. eapply rtc_r; [exact Hh|done].
    + intros x [<-|[]]. apply rtc_refl.
  - intros h p Hh Hl. eapply rtc_r; [exact Hh|done].
  - intros x [<-|[]]. apply rtc_refl.
Qed.

Lemma find_common_ancestor_of_ancestor fuel a b res :
  a <> "" -> b <> "" -> ancestor_or_self load a b ->
  _find_common_ancestor load fuel a b = Some res -> res = Some b.
Proof.
  intros Ha Hb Hreach. unfold _find_common_ancestor.
  destruct (String.eqb_spec a "") as [|_]; [done|].
  destruct (String.eqb_spec b "") as [|_]; [done|]. cbn [orb].
  destruct (String.eqb_spec a b) as [<-|_]; [by intros [= <-]|].
  destruct (collect_ancestors load fuel [a] {[a]} ∅) as [s|] eqn:Hs; [|done].
  apply collect_ancestors_closed in Hs as (_ & Hq & Hcl).
  - assert (b ∈ s) as Hbs.
    { assert (a ∈ s) as Has by (apply Hq; by left).
      clear -Has Hcl Hreach. induction Hreach as [|x y z Hl _ IH]; [done|].
      apply IH. by apply (Hcl x). }
    destruct fuel as [|fuel]; simpl; [done|].
    rewrite bool_decide_eq_true_2 by done. by intros [= <-].
  - intros x ->%elem_of_singleton. right. by left.
  - set_solver.
Qed.

(** The searches end: a hash is queued once, when it is first seen. *)
Lemma enqueue_parents_measure (U : gset string) parents : forall vis q vis' q',
  (forall p, In p parents -> p ∈ U) ->
  enqueue_parents parents vis q = (vis', q') ->
  (2 * size (U ∖ vis') + length q' <= 2 * size (U ∖ vis) + length q)%nat.
Proof.
  induction parents as [|p ps IH]; intros vis q vis' q' HU; simpl.
  - by intros [= <- <-].
  - case_bool_decide as Hp.
    + apply IH. intros x Hx. apply HU. by right.
    + intros H. apply IH in H; [|intros x Hx; apply HU; by right].
      rewrite length_app in H. simpl in H.
      assert (U ∖ ({[p]} ∪ vis) = (U ∖ vis) ∖ {[p]}) as Heq by set_solver.
      rewrite Heq in H.
      assert ({[p]} ⊆ U ∖ vis) as Hsub.
      { apply singleton_subseteq_l, elem_of_difference. split; [|done].
        apply HU. by left. }
      rewrite (size_difference _ _ Hsub), size_singleton in H.
      pose proof (subseteq_size _ _ Hsub) as Hle. rewrite size_singleton in Hle.
      lia.
Qed.

Lemma collect_ancestors_ends (U : gset string) fuel : forall q vis anc,
  (forall h c p, load h = Some c -> In p (Commit.parent_hashes_hex c) -> p ∈ U) ->
  (2 * size (U ∖ vis) + length q < fuel)%nat ->
  is_Some (collect_ancestors load fuel q vis anc).
Proof.
  induction fuel as [|fuel IH]; intros q vis anc HU Hm; [lia|].
  destruct q as [|c q]; simpl; [done|]. cbn [length] in Hm.
  destruct (load c) as [commit|] eqn:Hc.
  - destruct (enqueue_parents _ vis q) as [vis' q'] eqn:He.
    apply enqueue_parents_measure with (U := U) in He;
      [|intros p; by apply (HU c commit p)].
    apply IH; [done|lia].
  - apply IH; [done|lia].
Qed.

Lemma first_common_ends (U : gset string) fuel : forall q vis s,
  (forall h c p, load h = Some c -> In p (Commit.parent_hashes_hex c) -> p ∈ U) ->
  (2 * size (U ∖ vis) + length q < fuel)%nat ->
  is_Some (first_common load fuel q vis s).
Proof.
  induction fuel as [|fuel IH]; intros q vis s HU Hm; [lia|].
  destruct q as [|c q]; simpl; [done|]. cbn [length] in Hm.
  case_bool_decide; [done|].
  destruct (load c) as [commit|] eqn:Hc.
  - destruct (enqueue_parents _ vis q) as [vis' q'] eqn:He.
    apply enqueue_parents_measure with (U := U) in He;
      [|intros p; by apply (HU c commit p)].
    apply IH; [done|lia].
  - apply IH; [done|lia].
Qed.

Lemma find_common_ancestor_ends (U : gset string) fuel a b :
  (forall h c p, load h = Some c -> In p (Commit.parent_hashes_hex c) -> p ∈ U) ->
  (2 * size U + 1 < fuel)%nat ->
  is_Some (_find_common_ancestor load fuel a b).
Proof.
  intros HU Hfuel. unfold _find_common_ancestor.
  destruct (_ || _); [done|]. destruct (String.eqb a b); [done|].
  assert (forall x : string, (size (U ∖ {[x]}) <= size U)%nat) as Hsz.
  { intros x. apply subseteq_size. set_solver. }
  destruct (collect_ancestors_ends U fuel [a] {[a]} ∅ HU) as [s ->].
  { specialize (Hsz a). simpl. lia. }
  apply (first_common_ends U); [done|]. specialize (Hsz b). simpl. lia.
Qed.

End AncestorSearch.

Lemma parent_universe_closed (r : Repository.t) h c p :
  commit_loader r h = Some c -> In p (Commit.parent_hashes_hex c) ->
  p ∈ parent_universe (Repository.objects r).
Proof.
  intros Hc Hp. destruct (loader_in_store r h c Hc) as (bytes & Hin).
  unfold parent_universe. apply elem_of_list_to_set, list_elem_of_In.
  apply in_concat. eexists. split; [apply in_map, Hin|].
  unfold commit_loader in Hc. simpl. by rewrite Hc.
Qed.

(** X12.  What [_find_common_ancestor] returns is an ancestor of both
    commits (or one of them): it is reached from each through parent
    links, merges included. *)
Theorem common_ancestor_is_reached_from_both
  (fuel : nat) (r : Repository.t) (a b y : string) :
  Repository._find_common_ancestor fuel r a b = Some (Some y) ->
  ancestor_or_self (commit_loader r) a y
  /\ ancestor_or_self (commit_loader r) b y.
Proof. apply (find_common_ancestor_sound (commit_loader r)). Qed.

Lemma common_ancestor_is_reached_from_both_witness :
  ancestor_or_self (commit_loader SampleHistory.repo) SampleHistory.ha
    SampleHistory.hy
  /\ ancestor_or_self (commit_loader SampleHistory.repo) SampleHistory.hb
       SampleHistory.hy.
Proof.
  apply (common_ancestor_is_reached_from_both 8 SampleHistory.repo).
  vm_compute. reflexivity.
Defined.

(** X13.  When the second commit is the first or one of its ancestors,
    the search returns the second commit itself, whatever else the two have
    in common; [history_fuel] turns suffice for the answer. *)
Theorem common_ancestor_of_descendant_and_ancestor
  (r : Repository.t) (a b : string) :
  a <> "" -> b <> "" ->
  ancestor_or_self (commit_loader r) a b ->
  Repository._find_common_ancestor (history_fuel (Repository.objects r)) r a b
  = Some (Some b).
Proof.
  intros Ha Hb Hreach.
  destruct (find_common_ancestor_ends (commit_loader r)
              (parent_universe (Repository.objects r))
              (history_fuel (Repository.objects r)) a b) as [res Hres].
  - intros h c p. apply parent_universe_closed.
  - unfold history_fuel. lia.
  - unfold Repository._find_common_ancestor. fold (commit_loader r).
    rewrite Hres. f_equal.
    by apply (find_common_ancestor_of_ancestor (commit_loader r)
                (history_fuel (Repository.objects r)) a b).
Qed.

Lemma common_ancestor_of_descendant_and_ancestor_witness :
  Repository._find_common_ancestor
    (history_fuel (Repository.objects SampleHistory.repo)) SampleHistory.repo
    SampleHistory.ha SampleHistory.hy
  = Some (Some SampleHistory.hy).
Proof.
  apply (common_ancestor_of_descendant_and_ancestor SampleHistory.repo).
  - discriminate.
  - discriminate.
  - eapply rtc_l; [|apply rtc_refl].
    exists SampleHistory.a. split; vm_compute; auto.
Defined.

Lemma common_ancestor_search_ends_lemma
  (fuel : nat) (r : Repository.t) (a b : string) :
  (2 * size (parent_universe (Repository.objects r)) + 1 < fuel)%nat ->
  is_Some (Repository._find_common_ancestor fuel r a b).
Proof.
  intros Hfuel.
  apply (find_common_ancestor_ends (commit_loader r)
           (parent_universe (Repository.objects r))); [|done].
  intros h c p. apply parent_universe_closed.
Qed.

(** X14.  The search ends on every object store, also when parent links
    form a cycle: a hash is queued only the first time it is seen, so
    twice the number of parent hashes of the store, and two turns more,
    suffice. *)
Theorem common_ancestor_search_ends
  (fuel : nat) (r : Repository.t) (a b : string) :
  (2 * size (parent_universe (Repository.objects r)) + 1 < fuel)%nat ->
  is_Some (Repository._find_common_ancestor fuel r a b).
Proof. apply common_ancestor_search_ends_lemma. Qed.

Lemma common_ancestor_search_ends_witness :
  is_Some (Repository._find_common_ancestor 8 SampleHistory.repo
             SampleHistory.ha SampleHistory.hb).
Proof.
  apply (common_ancestor_search_ends 8 SampleHistory.repo).
  vm_compute. lia.
Defined.

(** X15.  Merging a commit that is already an ancestor of [HEAD] (or is
    [HEAD] itself) returns true and leaves the repository as it was. *)
Theorem merge_of_ancestor_changes_nothing
  (fuel : nat) (env : Env) (name : string) (r : Repository.t)
  (ours theirs : string) :
  Fs.exists_ (Repository.gitdir r) Repository.MERGE_HEAD_FILE_NAME = false ->
  Repository.is_workspace_clean fuel r = Some true ->
  Repository._get_head_commit_hash r = Some ours ->
  Repository._resolve_commit_ish_to_full_hash r name = Some theirs ->
  ancestor_or_self (commit_loader r) ours theirs ->
  (2 * size (parent_universe (Repository.objects r)) + 1 < fuel)%nat ->
  Repository.merge fuel env name r = Some (true, r).
Proof.
  intros Hno Hclean Hhead Hres Hreach Hfuel. unfold Repository.merge.
  rewrite Hno, Hclean, Hhead, Hres.
  destruct (String.eqb ours theirs); [done|].
  assert (ours <> "") as Ho.
  { intros ->. by apply head_hash_length in Hhead. }
  assert (theirs <> "") as Ht.
  { intros ->. by apply resolve_commit_ish_cases in Hres as [? _]. }
  destruct (common_ancestor_search_ends_lemma fuel r ours theirs Hfuel)
    as [res Hr].
  rewrite Hr.
  rewrite (find_common_ancestor_of_ancestor (commit_loader r) fuel ours theirs
             res Ho Ht Hreach Hr).
  by rewrite String.eqb_refl.
Qed.

Lemma merge_of_ancestor_changes_nothing_witness :
  Repository.merge 5 SampleMerge.env SampleMerge.h_base SampleMerge.repo
  = Some (true, SampleMerge.repo).
Proof.
  apply (merge_of_ancestor_changes_nothing 5 SampleMerge.env SampleMerge.h_base
           SampleMerge.repo SampleMerge.h_ours SampleMerge.h_base).
  - reflexivity.
  - vm_compute. reflexivity.
  - vm_compute. reflexivity.
  - vm_compute. reflexivity.
  - eapply rtc_l; [|apply rtc_refl].
    exists SampleMerge.ours. split; vm_compute; auto.
  - vm_compute. lia.
Defined.
